(** * Shard-role coordination: the discovery addresser and the roler

    A shallow embedding of [src/pfs/route/discovery_addresser.go] and
    [src/pfs/role/roler.go], followed by the properties proved about them.

    Conventions of the embedding.
    - Go's [uint64] is [N] and [int64]/[int] is [Z]; where the source can
      wrap around, the reduction modulo [2^64] is written out.
    - A Go [map[K]V] is a [gmap K V].  A [map[uint64]bool] used as a set keeps
      its boolean values: [m[k]] is [getb m k], [len(m)] counts keys.
    - [for k, v := range m] visits the entries of [m] in an order the Go
      runtime chooses.  Every such loop takes that order from a [MapOrder]
      oracle, indexed by the place of the loop, and is otherwise a fold over
      the resulting list.
    - Functions that mutate their arguments return the new values.
    - Keys of the store are built with [path.Join], which cleans what it
      joins: [pathJoin] is [path.Join] with [path.Clean], element by
      element. *)

From Stdlib Require Import ZArith NArith Lia.
From stdpp Require Import base option list gmap fin_maps strings pretty sorting.

Open Scope N_scope.

(** ** Go preliminaries *)

Definition MaxUint64 : N := 2 ^ 64 - 1.
Definition MaxInt64 : Z := (2 ^ 63 - 1)%Z.

(** Reduction of an unsigned 64-bit result. *)
Definition wrap64 (n : N) : N := n mod 2 ^ 64.

(** Reduction of a signed 64-bit result (two's complement). *)
Definition wrapInt (z : Z) : Z := ((z + 2 ^ 63) mod 2 ^ 64 - 2 ^ 63)%Z.

(** [uint64(len(m))] for a map. *)
Definition len `{Countable K} {V} (m : gmap K V) : N := N.of_nat (size m).

(** [m[k]] for a [map[K]bool]: a missing key reads as [false]. *)
Definition getb `{Countable K} (m : gmap K bool) (k : K) : bool :=
  default false (m !! k).

(** [m[k]] for a [map[K][]string]: a missing key reads as the nil slice. *)
Definition getl `{Countable K} {V} (m : gmap K (list V)) (k : K) : list V :=
  default [] (m !! k).

(** The values [0, 1, ..., n-1] of a counting loop
    [for i := uint64(0); i < n; i++]. *)
Definition upto (n : N) : list N := N.of_nat <$> seq 0 (N.to_nat n).

(** Errors.  [ErrShardNotFound] and [ErrVersionNotFound] are the two
    [fmt.Errorf] values of the addresser; [ErrExternal] stands for an error
    handed back by a collaborator (discovery store, JSON codec, shard
    engine); [PanicDivideByZero] and [PanicNilDereference] are the run-time
    panics of an integer division by zero and of a write through a nil
    pointer. *)
Inductive error :=
| ErrCancelled
| ErrShardNotFound (shard : N)
| ErrVersionNotFound (version : Z)
| ErrExternal (msg : string)
| PanicDivideByZero
| PanicNilDereference.

Inductive result (A : Type) :=
| Ok (a : A)
| Err (e : error).
Arguments Ok {A} a.
Arguments Err {A} e.

(** Go's [a / b] and [a % b] on [uint64]. *)
Definition goDiv (a b : N) : result N :=
  if b =? 0 then Err PanicDivideByZero else Ok (a / b).
Definition goMod (a b : N) : result N :=
  if b =? 0 then Err PanicDivideByZero else Ok (a mod b).

(** ** Iteration order of maps *)

(** The places where the source ranges over a map. *)
Inductive Site :=
| AtDecode
| AtStateShards (key : string)
| AtMinVersion
| AtDeleteRoles
| AtSameServers
| AtMaster (shard : N)
| AtReplica (replica shard : N)
| AtSwap (replica shard : N)
| AtSwapRoles (from : Site) (id : string)
| AtSwapShards (from : Site) (id swapID : string)
| AtPublish
| AtPublishMasters (id : string)
| AtPublishReplicas (id : string)
| AtVersion
| AtFillDecode
| AtFillRemove
| AtFillCopy
| AtShardsMasters (version : Z)
| AtShardsReplicas (version : Z)
| AtContainsShard (shard : N)
| AtMasterCounts
| AtMinCount
| AtMaxCount
| AtRandomShard.

Class MapOrder := range_order : ∀ A : Type, Site → list A → list A.

(** The order is a rearrangement of the entries: each is visited once. *)
Class MapOrderOk `{MapOrder} :=
  range_order_perm : ∀ A (s : Site) (l : list A), range_order A s l ≡ₚ l.

(** The order in which [map_to_list] happens to list the entries. *)
Definition storedOrder : MapOrder := λ _ _ l, l.

(** [for k, v := range m] at place [s]. *)
Definition range `{MapOrder} `{Countable K} {V} (s : Site) (m : gmap K V)
  : list (K * V) :=
  range_order (K * V) s (map_to_list m).

(** ** Messages ([proto.ServerState], [proto.ServerRole], [proto.Addresses]) *)

Record ServerState := mkServerState {
  state_Id : string;
  state_Address : string;
  state_Version : Z;
  state_Shards : gmap N bool;
}.

Record ServerRole := mkServerRole {
  role_Id : string;
  role_Version : Z;
  role_Masters : gmap N bool;
  role_Replicas : gmap N bool;
}.

Record ShardAddresses := mkShardAddresses {
  sa_Master : string;
  sa_Replicas : gmap string bool;
}.

Record Addresses := mkAddresses {
  addr_Version : Z;
  addr_Addresses : gmap N ShardAddresses;
}.

Definition setMasters (r : ServerRole) (m : gmap N bool) : ServerRole :=
  mkServerRole (role_Id r) (role_Version r) m (role_Replicas r).
Definition setReplicas (r : ServerRole) (m : gmap N bool) : ServerRole :=
  mkServerRole (role_Id r) (role_Version r) (role_Masters r) m.

(** ** Placement helpers of the assigner *)

(** [hasShard], lines 458-460. *)
Definition hasShard (serverRole : ServerRole) (shard : N) : bool :=
  getb (role_Masters serverRole) shard || getb (role_Replicas serverRole) shard.

(** [removeReplica], lines 462-470. *)
Definition removeReplica (replicas : gmap N (list string)) (shard : N)
    (id : string) : gmap N (list string) :=
  <[shard := filter (λ replicaID, id ≠ replicaID) (getl replicas shard)]> replicas.

(** [assignMaster], lines 472-500.  The result carries the new
    [serverRoles], [masters] and [*masterRolesRemainder]. *)
Definition assignMaster (serverRoles : gmap string ServerRole)
    (masters : gmap N string) (id : string) (shard : N)
    (masterRolesPerServer masterRolesRemainder : N)
  : bool * (gmap string ServerRole * gmap N string * N) :=
  match serverRoles !! id with
  | None => (false, (serverRoles, masters, masterRolesRemainder))
  | Some serverRole =>
    if masterRolesPerServer <? len (role_Masters serverRole) then
      (false, (serverRoles, masters, masterRolesRemainder))
    else if (len (role_Masters serverRole) =? masterRolesPerServer)
            && (masterRolesRemainder =? 0) then
      (false, (serverRoles, masters, masterRolesRemainder))
    else if hasShard serverRole shard then
      (false, (serverRoles, masters, masterRolesRemainder))
    else
      let remainder' :=
        if (len (role_Masters serverRole) =? masterRolesPerServer)
           && (0 <? masterRolesRemainder)
        then masterRolesRemainder - 1 else masterRolesRemainder in
      let serverRole' :=
        setMasters serverRole (<[shard := true]> (role_Masters serverRole)) in
      (true, (<[id := serverRole']> serverRoles, <[shard := id]> masters, remainder'))
  end.

(** [assignReplica], lines 502-531. *)
Definition assignReplica (serverRoles : gmap string ServerRole)
    (masters : gmap N string) (replicas : gmap N (list string))
    (id : string) (shard : N)
    (replicaRolesPerServer replicaRolesRemainder : N)
  : bool * (gmap string ServerRole * gmap N (list string) * N) :=
  match serverRoles !! id with
  | None => (false, (serverRoles, replicas, replicaRolesRemainder))
  | Some serverRole =>
    if replicaRolesPerServer <? len (role_Replicas serverRole) then
      (false, (serverRoles, replicas, replicaRolesRemainder))
    else if (len (role_Replicas serverRole) =? replicaRolesPerServer)
            && (replicaRolesRemainder =? 0) then
      (false, (serverRoles, replicas, replicaRolesRemainder))
    else if hasShard serverRole shard then
      (false, (serverRoles, replicas, replicaRolesRemainder))
    else
      let remainder' :=
        if (len (role_Replicas serverRole) =? replicaRolesPerServer)
           && (0 <? replicaRolesRemainder)
        then replicaRolesRemainder - 1 else replicaRolesRemainder in
      let serverRole' :=
        setReplicas serverRole (<[shard := true]> (role_Replicas serverRole)) in
      (true, (<[id := serverRole']> serverRoles,
              <[shard := getl replicas shard ++ [id]]> replicas, remainder'))
  end.

(** The inner loop of [swapReplica], lines 552-572: the first [swapShard] of
    [swapServerRole.Replicas] that passes both [hasShard] tests. *)
Fixpoint findSwapShard (serverRole swapServerRole : ServerRole) (shard : N)
    (swapShards : list (N * bool)) : option N :=
  match swapShards with
  | [] => None
  | (swapShard, _) :: rest =>
    if hasShard serverRole swapShard then
      findSwapShard serverRole swapServerRole shard rest
    else if hasShard swapServerRole shard then
      findSwapShard serverRole swapServerRole shard rest
    else Some swapShard
  end.

(** The outer loop of [swapReplica], lines 548-573: the first server and
    shard to exchange with, if any. *)
Fixpoint findSwap `{MapOrder} (from : Site) (id : string)
    (serverRole : ServerRole) (shard : N)
    (swapRoles : list (string * ServerRole)) : option (string * ServerRole * N) :=
  match swapRoles with
  | [] => None
  | (swapID, swapServerRole) :: rest =>
    if decide (swapID = id) then findSwap from id serverRole shard rest
    else
      match findSwapShard serverRole swapServerRole shard
              (range (AtSwapShards from id swapID) (role_Replicas swapServerRole)) with
      | Some swapShard => Some (swapID, swapServerRole, swapShard)
      | None => findSwap from id serverRole shard rest
      end
  end.

(** [swapReplica], lines 533-575.  [from] names the calling loop, for the
    iteration orders.  The two [assignReplica] calls share the local
    [noReplicaRemainder] and their results are discarded, as in the source. *)
Definition swapReplica `{MapOrder} (from : Site)
    (serverRoles : gmap string ServerRole) (masters : gmap N string)
    (replicas : gmap N (list string)) (id : string) (shard : N)
    (replicaRolesPerServer : N)
  : bool * (gmap string ServerRole * gmap N (list string)) :=
  match serverRoles !! id with
  | None => (false, (serverRoles, replicas))
  | Some serverRole =>
    if replicaRolesPerServer <=? len (role_Replicas serverRole) then
      (false, (serverRoles, replicas))
    else
      match findSwap from id serverRole shard
              (range (AtSwapRoles from id) serverRoles) with
      | None => (false, (serverRoles, replicas))
      | Some (swapID, swapServerRole, swapShard) =>
        let swapServerRole' :=
          setReplicas swapServerRole (delete swapShard (role_Replicas swapServerRole)) in
        let serverRoles1 := <[swapID := swapServerRole']> serverRoles in
        let replicas1 := removeReplica replicas swapShard swapID in
        let noReplicaRemainder := 0 in
        let '(_, (serverRoles2, replicas2, noReplicaRemainder2)) :=
          assignReplica serverRoles1 masters replicas1 swapID shard
            MaxUint64 noReplicaRemainder in
        let '(_, (serverRoles3, replicas3, _)) :=
          assignReplica serverRoles2 masters replicas2 id swapShard
            replicaRolesPerServer noReplicaRemainder2 in
        (true, (serverRoles3, replicas3))
      end
  end.

(** ** The collaborators: discovery store, shard engine, log, JSON codec *)

(** Everything a callback does to the outside, in the order it happens:
    calls on the discovery client, calls on the local [Server], sends on
    [versionChan], the [protolog.Info] records of the assigner and the
    registrar, and for the roler [server.Master] and the start of the
    goroutine that holds a master address. *)
Inductive Event :=
| EGet (key : string)
| EGetAll (prefix : string)
| ESet (key value : string) (ttl : N)
| EDelete (key : string)
| EAddShard (shard : N)
| ERemoveShard (shard : N)
| ESendVersion (version : Z)
| ELogSetServerRole (serverRole : ServerRole)
| ELogSetAddresses (addresses : Addresses)
| ELogAddServerRole (serverRole : ServerRole)
| ELogDeleteServerRole (serverRole : ServerRole)
| EMaster (shard : Z)
| EGoHoldMasterAddress (shard : Z) (address stolenFrom : string).

(** Modelled from the spec: the discovery client ([src/pkg/discovery] is not
    among the sources).  Section 6 of the spec gives its contract: a
    key-value store with [Set(key, value, ttl)], [Get(key) -> (value, found)],
    [GetAll(prefix)] and [Delete(key)].  [kv] is the content of the store,
    [fails] says which calls of the store or of the shard engine return an
    error, [trace] records the events so far.  Lease expiry is not modelled. *)
Record World := mkWorld {
  kv : gmap string string;
  fails : Event → option error;
  trace : list Event;
}.

Definition M (A : Type) : Type := World → result A * World.

Definition retM {A} (a : A) : M A := λ w, (Ok a, w).
Definition failM {A} (e : error) : M A := λ w, (Err e, w).
Definition bindM {A B} (c : M A) (k : A → M B) : M B := λ w,
  match c w with
  | (Ok a, w') => k a w'
  | (Err e, w') => (Err e, w')
  end.

Declare Scope go_scope.
Delimit Scope go_scope with go.
Notation "x <~ c ;; k" := (bindM c (λ x, k))
  (at level 100, c at next level, right associativity) : go_scope.
Notation "c ;;; k" := (bindM c (λ _, k))
  (at level 100, right associativity) : go_scope.
Open Scope go_scope.

(** Lift a pure fallible step. *)
Definition lift {A} (r : result A) : M A := λ w, (r, w).

(** Record an event. *)
Definition emit (e : Event) : M unit := λ w,
  (Ok tt, mkWorld (kv w) (fails w) (trace w ++ [e])).

(** A call that may fail: record it, then ask [fails]. *)
Definition call (e : Event) : M unit := λ w,
  let w' := mkWorld (kv w) (fails w) (trace w ++ [e]) in
  match fails w e with
  | Some err => (Err err, w')
  | None => (Ok tt, w')
  end.

Definition updateKv (f : gmap string string → gmap string string) : M unit := λ w,
  (Ok tt, mkWorld (f (kv w)) (fails w) (trace w)).

Definition readKv : M (gmap string string) := λ w, (Ok (kv w), w).

(** Modelled from the spec: [discoveryClient.Get], the value and whether the
    key is there; a missing key reads as the empty value. *)
Definition clientGet (key : string) : M (string * bool) :=
  call (EGet key) ;;;
  store <~ readKv ;;
  retM (default "" (store !! key), bool_decide (is_Some (store !! key))).

(** Modelled from the spec: [discoveryClient.GetAll], the entries whose key
    starts with [prefix]. *)
Definition clientGetAll (prefix : string) : M (gmap string string) :=
  call (EGetAll prefix) ;;;
  store <~ readKv ;;
  retM (filter (λ entry, String.prefix prefix entry.1 = true) store).

(** Modelled from the spec: [discoveryClient.Set]. *)
Definition clientSet (key value : string) (ttl : N) : M unit :=
  call (ESet key value ttl) ;;;
  updateKv (insert key value).

(** Modelled from the spec: [discoveryClient.Delete]. *)
Definition clientDelete (key : string) : M unit :=
  call (EDelete key) ;;;
  updateKv (delete key).

(** The JSON codec ([jsonpb], an external library): how the three messages
    are written to and read from the store. *)
Class Jsonpb := {
  marshalServerRole : ServerRole → result string;
  marshalAddresses : Addresses → result string;
  unmarshalServerState : string → result ServerState;
  unmarshalServerRole : string → result ServerRole;
  unmarshalAddresses : string → result Addresses;
}.

(** [route.Sharder]. *)
Record Sharder := mkSharder {
  NumShards : N;
  NumReplicas : N;
}.

(** ** The discovery addresser *)

Record discoveryAddresser := mkDiscoveryAddresser {
  sharder : Sharder;
  namespace : string;
  addresses : gmap Z Addresses;
}.

(** [newDiscoveryAddresser], lines 32-34. *)
Definition newDiscoveryAddresser (sharder : Sharder) (namespace : string)
  : discoveryAddresser :=
  mkDiscoveryAddresser sharder namespace ∅.

(** ** Paths: [path.Clean] and [path.Join] of Go's standard library *)

(** The elements of a path: the pieces between its slashes. *)
Fixpoint splitSlash (path : string) : list string :=
  match path with
  | EmptyString => [EmptyString]
  | String c rest =>
    if decide (String c EmptyString = "/") then EmptyString :: splitSlash rest
    else
      match splitSlash rest with
      | [] => [String c EmptyString]
      | element :: elements => String c element :: elements
      end
  end.

Fixpoint joinSlash (elements : list string) : string :=
  match elements with
  | [] => EmptyString
  | element :: rest =>
    match rest with
    | [] => element
    | _ :: _ => element +:+ "/" +:+ joinSlash rest
    end
  end.

(** What [path.Clean] does with one element of the path; [out] holds the
    elements written so far, the last one first.  Empty elements (doubled
    slashes) and [.] are dropped; [..] takes back the element written last,
    unless there is none or it is a [..] itself: then it is dropped in a
    rooted path and written in a relative one. *)
Definition cleanElement (rooted : bool) (out : list string) (element : string)
  : list string :=
  if decide (element = "" ∨ element = ".") then out
  else if decide (element = "..") then
    match out with
    | last :: before =>
      if decide (last = "..") then (if rooted then out else ".." :: out)
      else before
    | [] => if rooted then [] else [".."]
    end
  else element :: out.

(** [path.Clean]: the shortest path equivalent to [path] by purely lexical
    processing; an empty result is [.]. *)
Definition pathClean (path : string) : string :=
  let rooted := String.prefix "/" path in
  let out := foldl (cleanElement rooted) [] (splitSlash path) in
  let cleaned := (if rooted then "/" else "") +:+ joinSlash (rev out) in
  if decide (cleaned = "") then "." else cleaned.

(** [path.Join] of two elements: empty elements are ignored, the others are
    joined by a slash and the result is cleaned; two empty elements give the
    empty string. *)
Definition pathJoin (dir name : string) : string :=
  if decide (dir = "") then
    if decide (name = "") then "" else pathClean name
  else pathClean (dir +:+ "/" +:+ name).

(** Keys of the store, lines 125-155. *)
Definition serverDir (a : discoveryAddresser) : string :=
  namespace a +:+ "/pfs/server".
Definition serverStateDir (a : discoveryAddresser) : string :=
  pathJoin (serverDir a) "state".
Definition serverStateKey (a : discoveryAddresser) (id : string) : string :=
  pathJoin (serverStateDir a) id.
Definition serverRoleDir (a : discoveryAddresser) : string :=
  pathJoin (serverDir a) "role".
Definition serverRoleKey (a : discoveryAddresser) (id : string) : string :=
  pathJoin (serverRoleDir a) id.
Definition serverRoleKeyVersion (a : discoveryAddresser) (id : string)
    (version : Z) : string :=
  pathJoin (serverRoleKey a id) (pretty version).
Definition addressesDir (a : discoveryAddresser) : string :=
  namespace a +:+ "/pfs/roles".
Definition addressesKey (a : discoveryAddresser) (version : Z) : string :=
  pathJoin (addressesDir a) (pretty version).

(** Loops with an early [return 0, err]. *)
Fixpoint foldResult {A B} (f : B → A → result B) (l : list A) (b : B) : result B :=
  match l with
  | [] => Ok b
  | x :: rest =>
    match f b x with
    | Ok b' => foldResult f rest b'
    | Err e => Err e
    end
  end.

Fixpoint foldM {A B} (f : B → A → M B) (l : list A) (b : B) : M B :=
  match l with
  | [] => retM b
  | x :: rest => b' <~ f b x ;; foldM f rest b'
  end.

(** ** The assigner: [AssignRoles], lines 189-364 *)

(** The variables the watch callback closes over, lines 194-199. *)
Record Assigner := mkAssigner {
  version : Z;
  oldServerStates : gmap string ServerState;
  oldRoles : gmap string ServerRole;
  oldMasters : gmap N string;
  oldReplicas : gmap N (list string);
  oldMinVersion : Z;
}.

Definition newAssigner : Assigner := mkAssigner 0 ∅ ∅ ∅ ∅ 0.

Section assigner.
Context `{MapOrder} `{Jsonpb}.

(** Lines 226-228: the server joins the locations of each shard it holds. *)
Definition addShardLocations (key : string) (serverState : ServerState)
    (shardLocations : gmap N (list string)) : gmap N (list string) :=
  foldl (λ locations entry,
           <[entry.1 := getl locations entry.1 ++ [state_Id serverState]]> locations)
        shardLocations
        (range (AtStateShards key) (state_Shards serverState)).

(** Lines 214-229: decode the snapshot into [newServerStates], the empty
    [newRoles] and [shardLocations]. *)
Definition decodeServerState (version : Z)
    (acc : gmap string ServerState * gmap string ServerRole * gmap N (list string))
    (entry : string * string)
  : result (gmap string ServerState * gmap string ServerRole * gmap N (list string)) :=
  let '(newServerStates, newRoles, shardLocations) := acc in
  match unmarshalServerState entry.2 with
  | Err e => Err e
  | Ok serverState =>
    Ok (<[state_Id serverState := serverState]> newServerStates,
        <[state_Id serverState :=
            mkServerRole (state_Id serverState) version ∅ ∅]> newRoles,
        addShardLocations entry.1 serverState shardLocations)
  end.

(** Lines 231-236, and lines 370-383 of [Version]. *)
Definition minVersionOf (versions : list Z) : Z :=
  foldl (λ minVersion v, if (v <? minVersion)%Z then v else minVersion)
        MaxInt64 versions.

(** Lines 244-255: delete the roles below [minVersion]. *)
Definition deleteOldRole (minVersion : Z) (_ : unit) (entry : string * string)
  : M unit :=
  serverRole <~ lift (unmarshalServerRole entry.2) ;;
  if (role_Version serverRole <? minVersion)%Z then
    clientDelete entry.1 ;;;
    emit (ELogDeleteServerRole serverRole)
  else retM tt.

(** [sameServers], lines 727-737. *)
Definition sameServers (oldServerStates newServerStates : gmap string ServerState)
  : bool :=
  if negb (len oldServerStates =? len newServerStates) then false
  else forallb (λ entry, bool_decide (is_Some (newServerStates !! entry.1)))
               (range AtSameServers oldServerStates).

(** The candidates for one shard in the order the four loops of lines
    264-283 (and 289-308) try them: the previous master, the previous
    replicas, the servers reporting the shard, every server. *)
Definition candidates (site : Site) (oldMasters : gmap N string)
    (oldReplicas shardLocations : gmap N (list string))
    (newServerStates : gmap string ServerState) (shard : N) : list string :=
  option_list (oldMasters !! shard) ++ getl oldReplicas shard
    ++ getl shardLocations shard ++ (range site newServerStates).*1.

(** One pass of the body of the [Master] loop: the first candidate that
    [assignMaster] accepts ([continue Master]), or [None] when the loops run
    out ([return 0, nil]). *)
Fixpoint tryAssignMaster (ids : list string)
    (serverRoles : gmap string ServerRole) (masters : gmap N string) (shard : N)
    (masterRolesPerServer masterRolesRemainder : N)
  : option (gmap string ServerRole * gmap N string * N) :=
  match ids with
  | [] => None
  | id :: rest =>
    match assignMaster serverRoles masters id shard
            masterRolesPerServer masterRolesRemainder with
    | (true, st) => Some st
    | (false, (serverRoles', masters', remainder')) =>
      tryAssignMaster rest serverRoles' masters' shard masterRolesPerServer remainder'
    end
  end.

(** The [Master] loop, lines 262-285. *)
Fixpoint placeMasters (st : Assigner) (shardLocations : gmap N (list string))
    (newServerStates : gmap string ServerState) (masterRolesPerServer : N)
    (shards : list N)
    (serverRoles : gmap string ServerRole) (masters : gmap N string)
    (masterRolesRemainder : N)
  : option (gmap string ServerRole * gmap N string * N) :=
  match shards with
  | [] => Some (serverRoles, masters, masterRolesRemainder)
  | shard :: rest =>
    match tryAssignMaster
            (candidates (AtMaster shard) (oldMasters st) (oldReplicas st)
               shardLocations newServerStates shard)
            serverRoles masters shard masterRolesPerServer masterRolesRemainder with
    | None => None
    | Some (serverRoles', masters', remainder') =>
      placeMasters st shardLocations newServerStates masterRolesPerServer rest
        serverRoles' masters' remainder'
    end
  end.

(** Lines 289-308: the first candidate that [assignReplica] accepts. *)
Fixpoint tryAssignReplica (ids : list string)
    (serverRoles : gmap string ServerRole) (masters : gmap N string)
    (replicas : gmap N (list string)) (shard : N)
    (replicaRolesPerServer replicaRolesRemainder : N)
  : option (gmap string ServerRole * gmap N (list string) * N) :=
  match ids with
  | [] => None
  | id :: rest =>
    match assignReplica serverRoles masters replicas id shard
            replicaRolesPerServer replicaRolesRemainder with
    | (true, st) => Some st
    | (false, (serverRoles', replicas', remainder')) =>
      tryAssignReplica rest serverRoles' masters replicas' shard
        replicaRolesPerServer remainder'
    end
  end.

(** Lines 309-313: the first server for which [swapReplica] succeeds. *)
Fixpoint trySwapReplica (from : Site) (ids : list string)
    (serverRoles : gmap string ServerRole) (masters : gmap N string)
    (replicas : gmap N (list string)) (shard : N) (replicaRolesPerServer : N)
  : option (gmap string ServerRole * gmap N (list string)) :=
  match ids with
  | [] => None
  | id :: rest =>
    match swapReplica from serverRoles masters replicas id shard
            replicaRolesPerServer with
    | (true, st) => Some st
    | (false, (serverRoles', replicas')) =>
      trySwapReplica from rest serverRoles' masters replicas' shard
        replicaRolesPerServer
    end
  end.

(** The body of the [Replica] loop for one shard, lines 289-314. *)
Definition placeReplica (st : Assigner) (shardLocations : gmap N (list string))
    (newServerStates : gmap string ServerState) (masters : gmap N string)
    (replicaRolesPerServer : N) (replica shard : N)
    (serverRoles : gmap string ServerRole) (replicas : gmap N (list string))
    (replicaRolesRemainder : N)
  : option (gmap string ServerRole * gmap N (list string) * N) :=
  match tryAssignReplica
          (candidates (AtReplica replica shard) (oldMasters st) (oldReplicas st)
             shardLocations newServerStates shard)
          serverRoles masters replicas shard
          replicaRolesPerServer replicaRolesRemainder with
  | Some placed => Some placed
  | None =>
    match trySwapReplica (AtSwap replica shard)
            (range (AtSwap replica shard) newServerStates).*1
            serverRoles masters replicas shard replicaRolesPerServer with
    | Some (serverRoles', replicas') =>
      Some (serverRoles', replicas', replicaRolesRemainder)
    | None => None
    end
  end.

(** The [Replica] loop over the shards, lines 287-315. *)
Fixpoint placeReplicaRound (st : Assigner) (shardLocations : gmap N (list string))
    (newServerStates : gmap string ServerState) (masters : gmap N string)
    (replicaRolesPerServer : N) (replica : N) (shards : list N)
    (serverRoles : gmap string ServerRole) (replicas : gmap N (list string))
    (replicaRolesRemainder : N)
  : option (gmap string ServerRole * gmap N (list string) * N) :=
  match shards with
  | [] => Some (serverRoles, replicas, replicaRolesRemainder)
  | shard :: rest =>
    match placeReplica st shardLocations newServerStates masters
            replicaRolesPerServer replica shard
            serverRoles replicas replicaRolesRemainder with
    | None => None
    | Some (serverRoles', replicas', remainder') =>
      placeReplicaRound st shardLocations newServerStates masters
        replicaRolesPerServer replica rest serverRoles' replicas' remainder'
    end
  end.

(** The loop over the replica index, lines 286-316. *)
Fixpoint placeReplicas (st : Assigner) (shardLocations : gmap N (list string))
    (newServerStates : gmap string ServerState) (masters : gmap N string)
    (replicaRolesPerServer : N) (numShards : N) (replicaIndices : list N)
    (serverRoles : gmap string ServerRole) (replicas : gmap N (list string))
    (replicaRolesRemainder : N)
  : option (gmap string ServerRole * gmap N (list string) * N) :=
  match replicaIndices with
  | [] => Some (serverRoles, replicas, replicaRolesRemainder)
  | replica :: rest =>
    match placeReplicaRound st shardLocations newServerStates masters
            replicaRolesPerServer replica (upto numShards)
            serverRoles replicas replicaRolesRemainder with
    | None => None
    | Some (serverRoles', replicas', remainder') =>
      placeReplicas st shardLocations newServerStates masters
        replicaRolesPerServer numShards rest serverRoles' replicas' remainder'
    end
  end.

End assigner.

Section assignRoles.
Context `{MapOrder} `{Jsonpb}.

(** Lines 334-338: [shardAddresses.Master = address] through the pointer
    stored for [shard]. *)
Definition setMasterAddress (address : string)
    (shardToAddresses : gmap N ShardAddresses) (entry : N * bool)
  : result (gmap N ShardAddresses) :=
  match shardToAddresses !! entry.1 with
  | None => Err PanicNilDereference
  | Some shardAddresses =>
    Ok (<[entry.1 := mkShardAddresses address (sa_Replicas shardAddresses)]>
          shardToAddresses)
  end.

(** Lines 339-343: [shardAddresses.Replicas[address] = true]. *)
Definition addReplicaAddress (address : string)
    (shardToAddresses : gmap N ShardAddresses) (entry : N * bool)
  : result (gmap N ShardAddresses) :=
  match shardToAddresses !! entry.1 with
  | None => Err PanicNilDereference
  | Some shardAddresses =>
    Ok (<[entry.1 := mkShardAddresses (sa_Master shardAddresses)
                       (<[address := true]> (sa_Replicas shardAddresses))]>
          shardToAddresses)
  end.

(** The body of the loop of lines 324-344: write one [ServerRole] and enter
    the server's address for its shards. *)
Definition publishRole (a : discoveryAddresser) (version : Z)
    (newServerStates : gmap string ServerState)
    (shardToAddresses : gmap N ShardAddresses) (entry : string * ServerRole)
  : M (gmap N ShardAddresses) :=
  let '(id, serverRole) := entry in
  encodedServerRole <~ lift (marshalServerRole serverRole) ;;
  clientSet (serverRoleKeyVersion a id version) encodedServerRole 0 ;;;
  emit (ELogSetServerRole serverRole) ;;;
  let address :=
    match newServerStates !! id with
    | Some serverState => state_Address serverState
    | None => ""
    end in
  withMasters <~ lift (foldResult (setMasterAddress address)
                         (range (AtPublishMasters id) (role_Masters serverRole))
                         shardToAddresses) ;;
  lift (foldResult (addReplicaAddress address)
          (range (AtPublishReplicas id) (role_Replicas serverRole))
          withMasters).

(** Lines 317-352: build the [Addresses] snapshot and write the assignment. *)
Definition publish (a : discoveryAddresser) (version : Z)
    (newServerStates : gmap string ServerState)
    (newRoles : gmap string ServerRole) : M unit :=
  let empty :=
    foldl (λ acc shard, <[shard := mkShardAddresses "" ∅]> acc) ∅
          (upto (NumShards (sharder a))) in
  shardToAddresses <~ foldM (publishRole a version newServerStates)
                        (range AtPublish newRoles) empty ;;
  let addresses := mkAddresses version shardToAddresses in
  encodedAddresses <~ lift (marshalAddresses addresses) ;;
  clientSet (addressesKey a version) encodedAddresses 0 ;;;
  emit (ELogSetAddresses addresses).

(** Lines 210-213: the budgets per server. *)
Definition budgets (a : discoveryAddresser) (servers : N) : result (N * N * N * N) :=
  match goDiv (NumShards (sharder a)) servers,
        goMod (NumShards (sharder a)) servers,
        goDiv (wrap64 (NumShards (sharder a) * NumReplicas (sharder a))) servers,
        goMod (wrap64 (NumShards (sharder a) * NumReplicas (sharder a))) servers with
  | Ok masterRolesPerServer, Ok masterRolesRemainder,
    Ok replicaRolesPerServer, Ok replicaRolesRemainder =>
    Ok (masterRolesPerServer, masterRolesRemainder,
        replicaRolesPerServer, replicaRolesRemainder)
  | Err e, _, _, _ | _, Err e, _, _ | _, _, Err e, _ | _, _, _, Err e => Err e
  end.

(** Lines 262-316: both placement loops, from the empty [newRoles]. *)
Definition place (st : Assigner) (a : discoveryAddresser)
    (shardLocations : gmap N (list string))
    (newServerStates : gmap string ServerState)
    (newRoles : gmap string ServerRole)
    (budget : N * N * N * N)
  : option (gmap string ServerRole * gmap N string * gmap N (list string)) :=
  let '(masterRolesPerServer, masterRolesRemainder,
        replicaRolesPerServer, replicaRolesRemainder) := budget in
  match placeMasters st shardLocations newServerStates masterRolesPerServer
          (upto (NumShards (sharder a))) newRoles ∅ masterRolesRemainder with
  | None => None
  | Some (withMasters, newMasters, _) =>
    match placeReplicas st shardLocations newServerStates newMasters
            replicaRolesPerServer (NumShards (sharder a))
            (upto (NumReplicas (sharder a)))
            withMasters ∅ replicaRolesRemainder with
    | None => None
    | Some (newRoles', newReplicas, _) => Some (newRoles', newMasters, newReplicas)
    end
  end.

(** Lines 238-256: when the cluster minimum has advanced, remember it and
    delete the roles no server uses any more. *)
Definition collectRoles (a : discoveryAddresser) (st : Assigner) (minVersion : Z)
    (w : World) : result unit * Assigner * World :=
  if (oldMinVersion st <? minVersion)%Z then
    let st' := mkAssigner (version st) (oldServerStates st) (oldRoles st)
                 (oldMasters st) (oldReplicas st) minVersion in
    let '(r, w') :=
      (serverRoles <~ clientGetAll (serverRoleDir a) ;;
       foldM (deleteOldRole minVersion) (range AtDeleteRoles serverRoles) tt) w in
    (r, st', w')
  else (Ok tt, st, w).

(** The watch callback of [AssignRoles], lines 201-359: from the captured
    variables [st], the snapshot and the world to the callback's result, the
    captured variables afterwards and the world afterwards. *)
Definition assignRolesCallback (a : discoveryAddresser) (st : Assigner)
    (encodedServerStates : gmap string string) (w : World)
  : result N * Assigner * World :=
  if len encodedServerStates =? 0 then (Ok 0, st, w)
  else
    match budgets a (len encodedServerStates) with
    | Err e => (Err e, st, w)
    | Ok budget =>
      match foldResult (decodeServerState (version st))
              (range AtDecode encodedServerStates) (∅, ∅, ∅) with
      | Err e => (Err e, st, w)
      | Ok (newServerStates, newRoles, shardLocations) =>
        let minVersion :=
          minVersionOf (state_Version <$> (range AtMinVersion newServerStates).*2) in
        let '(collected, st1, w1) := collectRoles a st minVersion w in
        match collected with
        | Err e => (Err e, st1, w1)
        | Ok _ =>
          if sameServers (oldServerStates st1) newServerStates then (Ok 0, st1, w1)
          else
            match place st1 a shardLocations newServerStates newRoles budget with
            | None => (Ok 0, st1, w1)
            | Some (newRoles', newMasters, newReplicas) =>
              match publish a (version st1) newServerStates newRoles' w1 with
              | (Err e, w2) => (Err e, st1, w2)
              | (Ok _, w2) =>
                (Ok 0,
                 mkAssigner (wrapInt (version st1 + 1)) newServerStates newRoles'
                   newMasters newReplicas (oldMinVersion st1),
                 w2)
              end
            end
        end
      end
    end.

(** The body of the loop of [Version], lines 375-383. *)
Definition versionStep (minVersion : Z) (entry : string * string) : result Z :=
  match unmarshalServerState entry.2 with
  | Err e => Err e
  | Ok serverState =>
    Ok (if (state_Version serverState <? minVersion)%Z
        then state_Version serverState else minVersion)
  end.

(** [Version], lines 366-385.  An error is returned with the result [0]
    in the source; here it is the [Err] case. *)
Definition Version (a : discoveryAddresser) : M Z :=
  encodedServerStates <~ clientGetAll (serverStateDir a) ;;
  lift (foldResult versionStep (range AtVersion encodedServerStates) MaxInt64).

End assignRoles.

(** ** The resolver, lines 36-99 and 440-456 *)

Section resolver.
Context `{Jsonpb}.

(** [getAddresses], lines 440-456.  The receiver is only read: no statement
    of the file assigns to [a.addresses] after [newDiscoveryAddresser].  When
    the key is missing, line 449 builds an error value and drops it;
    execution goes on to decode the value [Get] handed back. *)
Definition getAddresses (a : discoveryAddresser) (version : Z) : M Addresses :=
  match addresses a !! version with
  | Some cached => retM cached
  | None =>
    got <~ clientGet (addressesKey a version) ;;
    let '(encodedAddresses, ok) := got in
    let _ := if negb ok then Some (ErrVersionNotFound version) else None in
    lift (unmarshalAddresses encodedAddresses)
  end.

(** [GetMasterAddress], lines 36-49: [(result, ok)], or the error. *)
Definition GetMasterAddress (a : discoveryAddresser) (shard : N) (version : Z)
  : M (string * bool) :=
  addresses <~ getAddresses a version ;;
  match addr_Addresses addresses !! shard with
  | None => retM ("", false)
  | Some shardAddresses => retM (sa_Master shardAddresses, true)
  end.

(** [GetReplicaAddresses], lines 51-64. *)
Definition GetReplicaAddresses (a : discoveryAddresser) (shard : N) (version : Z)
  : M (gmap string bool) :=
  addresses <~ getAddresses a version ;;
  match addr_Addresses addresses !! shard with
  | None => failM (ErrShardNotFound shard)
  | Some shardAddresses => retM (sa_Replicas shardAddresses)
  end.

(** [GetShardToMasterAddress], lines 66-79. *)
Definition GetShardToMasterAddress (a : discoveryAddresser) (version : Z)
  : M (gmap N string) :=
  addresses <~ getAddresses a version ;;
  retM (sa_Master <$> addr_Addresses addresses).

(** [GetShardToReplicaAddresses], lines 81-99. *)
Definition GetShardToReplicaAddresses (a : discoveryAddresser) (version : Z)
  : M (gmap N (gmap string bool)) :=
  addresses <~ getAddresses a version ;;
  retM (sa_Replicas <$> addr_Addresses addresses).

End resolver.

(** ** The registrar: [fillRoles], lines 619-725 *)

Section fillRoles.
Context `{MapOrder} `{Jsonpb}.

(** [shards], lines 707-716. *)
Definition shards (serverRole : ServerRole) : list N :=
  (range (AtShardsMasters (role_Version serverRole)) (role_Masters serverRole)).*1
  ++ (range (AtShardsReplicas (role_Version serverRole)) (role_Replicas serverRole)).*1.

(** [containsShard], lines 718-725. *)
Definition containsShard (roles : gmap Z ServerRole) (shard : N) : bool :=
  existsb (λ entry, getb (role_Masters entry.2) shard
                    || getb (role_Replicas entry.2) shard)
          (range (AtContainsShard shard) roles).

Definition serverCall (e : Event) : bool :=
  match e with
  | EAddShard _ | ERemoveShard _ => true
  | _ => false
  end.

(** A batch of shard-engine calls, each in a goroutine of its own, joined by
    [wg.Wait()]: every call of the batch is made; the error kept by the
    [sync.Once] is that of a failing call, here the first in the order the
    calls were started.  Log records issued while the batch is started are
    part of [events] and cannot fail. *)
Definition parallel (events : list Event) (w : World) : option error * World :=
  (head (omap (fails w) (filter (λ e, serverCall e = true) events)),
   mkWorld (kv w) (fails w) (trace w ++ events)).

Definition logged (e : Event) (w : World) : World :=
  mkWorld (kv w) (fails w) (trace w ++ [e]).

(** Lines 633-640: decode the snapshot into [roles] and [versions]. *)
Definition decodeServerRole (acc : gmap Z ServerRole * list Z)
    (entry : string * string) : result (gmap Z ServerRole * list Z) :=
  match unmarshalServerRole entry.2 with
  | Err e => Err e
  | Ok serverRole =>
    Ok (<[role_Version serverRole := serverRole]> acc.1,
        acc.2 ++ [role_Version serverRole])
  end.

(** Lines 643-672: bring the server up to date, version by version.  The
    result is [addShardErr], the [oldRoles] reached and the world. *)
Fixpoint applyVersions (roles : gmap Z ServerRole) (versions : list Z)
    (oldRoles : gmap Z ServerRole) (w : World)
  : option error * gmap Z ServerRole * World :=
  match versions with
  | [] => (None, oldRoles, w)
  | version :: rest =>
    match oldRoles !! version with
    | Some _ => applyVersions roles rest oldRoles w
    | None =>
      let serverRole := default (mkServerRole "" 0 ∅ ∅) (roles !! version) in
      let w1 := logged (ELogAddServerRole serverRole) w in
      let '(addShardErr, w2) :=
        parallel (EAddShard <$>
                    filter (λ shard, containsShard oldRoles shard = false)
                           (shards serverRole)) w1 in
      match addShardErr with
      | Some e => (Some e, oldRoles, w2)
      | None =>
        applyVersions roles rest (<[version := serverRole]> oldRoles)
          (logged (ESendVersion version) w2)
      end
    end
  end.

(** Lines 677-696: what the removal loop does for one entry of [oldRoles]. *)
Definition expiredRole (roles : gmap Z ServerRole) (entry : Z * ServerRole)
  : list Event :=
  match roles !! entry.1 with
  | Some _ => []
  | None =>
    ELogDeleteServerRole entry.2
    :: (ERemoveShard <$>
          filter (λ shard, containsShard roles shard = false) (shards entry.2))
  end.

(** The watch callback of [fillRoles], lines 629-703: from the captured
    [oldRoles], the snapshot and the world to the callback's error, the
    [oldRoles] afterwards and the world afterwards. *)
Definition fillRolesCallback (oldRoles : gmap Z ServerRole)
    (encodedServerRoles : gmap string string) (w : World)
  : option error * gmap Z ServerRole * World :=
  match foldResult decodeServerRole (range AtFillDecode encodedServerRoles) (∅, []) with
  | Err e => (Some e, oldRoles, w)
  | Ok (roles, versions) =>
    let versions := merge_sort Z.le versions in
    match applyVersions roles versions oldRoles w with
    | (Some addShardErr, oldRoles1, w1) => (Some addShardErr, oldRoles1, w1)
    | (None, oldRoles1, w1) =>
      let '(removeShardErr, w2) :=
        parallel (concat (expiredRole roles <$> range AtFillRemove oldRoles1)) w1 in
      let oldRoles2 :=
        foldl (λ acc entry, <[entry.1 := entry.2]> acc) ∅ (range AtFillCopy roles) in
      (removeShardErr, oldRoles2, w2)
    end
  end.

End fillRoles.

(** ** The roler, [src/pfs/role/roler.go] *)

(** The fields of [roler] that [Run] reads.  In this file the sharder counts
    shards with an [int]. *)
Record roler := mkRoler {
  rolerNumShards : Z;
  localAddress : string;
}.

(** [counts[address]]: a missing address reads as [0]. *)
Definition getCount (counts : gmap string Z) (address : string) : Z :=
  default 0%Z (counts !! address).

(** What an iteration of the loop of [Run] ends with. *)
Inductive Control :=
| Continue
| Return (e : error).

Section roler.
Context `{MapOrder}.

(** [openShard], lines 68-75. *)
Definition openShard (r : roler) (shardToMasterAddress : gmap Z string)
  : option Z :=
  head (filter (λ i, shardToMasterAddress !! i = None)
               (seqZ 0 (rolerNumShards r))).

(** [randomShard], lines 77-91. *)
Definition randomShard (address : string) (shardToMasterAddress : gmap Z string)
  : option Z :=
  fst <$> head (filter (λ entry, address = entry.2)
                       (range AtRandomShard shardToMasterAddress)).

(** [masterCounts], lines 93-99. *)
Definition masterCounts (shardToMasterAddress : gmap Z string) : gmap string Z :=
  foldl (λ result entry,
           <[entry.2 := wrapInt (getCount result entry.2 + 1)]> result)
        ∅ (range AtMasterCounts shardToMasterAddress).

(** [minCount], lines 101-111. *)
Definition minCount (counts : gmap string Z) : string * Z :=
  foldl (λ acc entry, if (entry.2 <? acc.2)%Z then entry else acc)
        ("", MaxInt64) (range AtMinCount counts).

(** [maxCount], lines 113-123. *)
Definition maxCount (counts : gmap string Z) : string * Z :=
  foldl (λ acc entry, if (acc.2 <? entry.2)%Z then entry else acc)
        ("", 0%Z) (range AtMaxCount counts).

(** Lines 33-41 and 50-58: claim [shard] and start the goroutine that holds
    the address. *)
Definition claim (r : roler) (shard : Z) (stolenFrom : string) (w : World)
  : Control * World :=
  match call (EMaster shard) w with
  | (Err e, w1) => (Return e, w1)
  | (Ok _, w1) =>
    (Continue,
     mkWorld (kv w1) (fails w1)
       (trace w1 ++ [EGoHoldMasterAddress shard (localAddress r) stolenFrom]))
  end.

(** One iteration of the loop of [Run], lines 21-58.  [fetched] is what
    [r.addresser.GetShardToMasterAddress()] returned. *)
Definition runIteration (r : roler) (fetched : result (gmap Z string))
    (w : World) : Control * World :=
  match fetched with
  | Err e => (Return e, w)
  | Ok shardToMasterAddress =>
    let counts := masterCounts shardToMasterAddress in
    let min := (minCount counts).2 in
    if (min <? getCount counts (localAddress r))%Z then (Continue, w)
    else
      match openShard r shardToMasterAddress with
      | Some shard => claim r shard "" w
      | None =>
        let '(maxAddress, max) := maxCount counts in
        if (wrapInt (max - 1) <? wrapInt (getCount counts (localAddress r) + 1))%Z
        then (Continue, w)
        else
          match randomShard maxAddress shardToMasterAddress with
          | Some shard => claim r shard maxAddress w
          | None => (Continue, w)
          end
      end
  end.

End roler.

(** ** [WaitForAvailability], lines 387-438 *)

(** What the watch callback of [WaitForAvailability] returns: [(0, nil)],
    [(0, errComplete)], or the error of a decoder. *)
Inductive Availability :=
| KeepWatching
| Complete
| Failed (e : error).

Section waitForAvailability.
Context `{MapOrder} `{Jsonpb}.

(** The places of the two loops over maps, lines 393 and 418. *)
Variables (atDecode atVersions : Site).

(** The body of the loop of lines 393-408. *)
Definition decodeStateOrRole (a : discoveryAddresser)
    (acc : gmap string ServerState * list ServerRole) (entry : string * string)
  : result (gmap string ServerState * list ServerRole) :=
  let '(key, encodedServerStateOrRole) := entry in
  match
    (if String.prefix (serverStateDir a) key then
       match unmarshalServerState encodedServerStateOrRole with
       | Err e => Err e
       | Ok serverState =>
         Ok (<[state_Id serverState := serverState]> acc.1, acc.2)
       end
     else Ok acc)
  with
  | Err e => Err e
  | Ok (serverStates, serverRoles) =>
    if String.prefix (serverRoleDir a) key then
      match unmarshalServerRole encodedServerStateOrRole with
      | Err e => Err e
      | Ok serverRole => Ok (serverStates, serverRoles ++ [serverRole])
      end
    else Ok (serverStates, serverRoles)
  end.

(** The body of the loop of lines 418-423; [None] is its early return. *)
Definition collectVersion (versions : option (gmap Z bool))
    (entry : string * ServerState) : option (gmap Z bool) :=
  versions ≫= λ versions,
    if (state_Version entry.2 =? -1)%Z then None
    else Some (<[state_Version entry.2 := true]> versions).

(** The watch callback of [WaitForAvailability], lines 390-431. *)
Definition waitCallback (a : discoveryAddresser) (ids : list string)
    (encodedServerStatesAndRoles : gmap string string) : Availability :=
  match foldResult (decodeStateOrRole a)
          (range atDecode encodedServerStatesAndRoles) (∅, []) with
  | Err e => Failed e
  | Ok (serverStates, serverRoles) =>
    if negb (size serverStates =? length ids)%nat then KeepWatching
    else if negb (forallb (λ id, bool_decide (is_Some (serverStates !! id))) ids)
    then KeepWatching
    else
      match foldl collectVersion (Some ∅) (range atVersions serverStates) with
      | None => KeepWatching
      | Some versions =>
        if negb (size versions =? 1)%nat then KeepWatching
        else if forallb (λ serverRole, getb versions (role_Version serverRole))
                  serverRoles
        then Complete
        else KeepWatching
      end
  end.

End waitForAvailability.

(** ** A small cluster to run the definitions on *)

(** A table-driven codec: the few encoded values of the examples and what
    they stand for. *)
Definition exampleStates : gmap string ServerState :=
  list_to_map
    [("stateA", mkServerState "A" "hostA:650" (-1) ∅);
     ("stateB", mkServerState "B" "hostB:650" (-1) ∅);
     ("stateC", mkServerState "C" "hostC:650" (-1) ∅);
     ("stateA3", mkServerState "A" "hostA:650" 3 ∅);
     ("stateB5", mkServerState "B" "hostB:650" 5 ∅)].

Definition exampleRoles : gmap string ServerRole :=
  list_to_map
    [("roleA0", mkServerRole "A" 0 {[0 := true; 1 := true]} ∅);
     ("roleA1", mkServerRole "A" 1 {[1 := true]} {[2 := true]})].

Definition exampleAddresses : gmap string Addresses :=
  list_to_map
    [("addresses0",
      mkAddresses 0 {[0 := mkShardAddresses "hostA:650" {["hostB:650" := true]}]})].

Definition decodeWith {A} (table : gmap string A) (encoded : string) : result A :=
  match table !! encoded with
  | Some value => Ok value
  | None => Err (ErrExternal "malformed value")
  end.

Definition exampleJsonpb : Jsonpb := {|
  marshalServerRole := λ serverRole,
    Ok ("role of " +:+ role_Id serverRole +:+ " in " +:+ pretty (role_Version serverRole));
  marshalAddresses := λ addresses, Ok ("addresses" +:+ pretty (addr_Version addresses));
  unmarshalServerState := decodeWith exampleStates;
  unmarshalServerRole := decodeWith exampleRoles;
  unmarshalAddresses := decodeWith exampleAddresses;
|}.

Definition exampleAddresser : discoveryAddresser :=
  newDiscoveryAddresser (mkSharder 4 1) "test".

(** A store with no entries on which no call fails. *)
Definition emptyWorld : World := mkWorld ∅ (λ _, None) [].

(** The snapshot of the [ServerState] tree with servers [A] and [B]. *)
Definition exampleSnapshot : gmap string string :=
  {[ "test/pfs/server/state/A" := "stateA"; "test/pfs/server/state/B" := "stateB" ]}.

(** The callback on that snapshot, from a fresh assigner, with maps visited
    in stored order. *)
Definition exampleRun : result N * Assigner * World :=
  assignRolesCallback (H := storedOrder) (H0 := exampleJsonpb)
    exampleAddresser newAssigner exampleSnapshot emptyWorld.

(** Three servers for three shards with one replica each: in stored order
    the plain replica placement runs out of candidates at the last shard and
    [swapReplica] has to step in. *)
Definition exampleSwapRun : result N * Assigner * World :=
  assignRolesCallback (H := storedOrder) (H0 := exampleJsonpb)
    (newDiscoveryAddresser (mkSharder 3 1) "test") newAssigner
    {[ "test/pfs/server/state/A" := "stateA";
       "test/pfs/server/state/B" := "stateB";
       "test/pfs/server/state/C" := "stateC" ]}
    emptyWorld.

(** The roles of that run when the replica of shard 2 is to be placed. *)
Definition exampleDeadlock : gmap string ServerRole :=
  {[ "A" := mkServerRole "A" 0 {[1 := true]} {[0 := true]};
     "B" := mkServerRole "B" 0 {[2 := true]} ∅;
     "C" := mkServerRole "C" 0 {[0 := true]} {[1 := true]} ]}.

(** A store in which both servers have reported, [A] at version 3 and [B]
    at version 5, and the addresses of version 0 are published. *)
Definition exampleWorld : World :=
  mkWorld {[ "test/pfs/server/state/A" := "stateA3";
             "test/pfs/server/state/B" := "stateB5";
             "test/pfs/roles/0" := "addresses0" ]}
          (λ _, None) [].

(** The registrar of [A] has applied version 0 and now sees only version 1. *)
Definition exampleOldRoles : gmap Z ServerRole :=
  {[ 0%Z := mkServerRole "A" 0 {[0 := true; 1 := true]} ∅ ]}.

Definition exampleRoleSnapshot : gmap string string :=
  {[ "test/pfs/server/role/A/1" := "roleA1" ]}.

(** A roler on [hostC], which masters no shard yet, in a cluster of four
    shards: three on [hostB], one on [hostA]. *)
Definition exampleRoler : roler := mkRoler 4 "hostC".

Definition exampleMasters : gmap Z string :=
  {[ 0%Z := "hostB"; 1%Z := "hostB"; 2%Z := "hostB"; 3%Z := "hostA" ]}.



#[global] Instance ShardAddresses_eq_dec : EqDecision ShardAddresses.
Proof. solve_decision. Defined.

#[global] Instance Addresses_eq_dec : EqDecision Addresses.
Proof. solve_decision. Defined.

(** One shard, mastered by [A] and replicated on [B], and what [publish]
    stores for it. *)
Definition examplePublishedStates : gmap string ServerState :=
  {[ "A" := mkServerState "A" "hostA:650" (-1) ∅;
     "B" := mkServerState "B" "hostB:650" (-1) ∅ ]}.

Definition examplePublishedRoles : gmap string ServerRole :=
  {[ "A" := mkServerRole "A" 0 {[0 := true]} ∅;
     "B" := mkServerRole "B" 0 ∅ {[0 := true]} ]}.

Definition examplePublished : Addresses :=
  mkAddresses 0 {[0 := mkShardAddresses "hostA:650" {["hostB:650" := true]}]}.

(** A codec that encodes [examplePublished] alone, and decodes it again. *)
Definition roundTripJsonpb : Jsonpb := {|
  marshalServerRole := λ serverRole,
    Ok ("role of " +:+ role_Id serverRole +:+ " in " +:+ pretty (role_Version serverRole));
  marshalAddresses := λ addresses,
    if decide (addresses = examplePublished) then Ok "addresses0"
    else Err (ErrExternal "unknown value");
  unmarshalServerState := decodeWith exampleStates;
  unmarshalServerRole := decodeWith exampleRoles;
  unmarshalAddresses := decodeWith {[ "addresses0" := examplePublished ]};
|}.

Definition examplePublishRun : result unit * World :=
  publish (H := storedOrder) (H0 := roundTripJsonpb)
    (newDiscoveryAddresser (mkSharder 1 1) "test") 0
    examplePublishedStates examplePublishedRoles emptyWorld.

(** Shards 1 and 3 of the four have no master yet. *)
Definition exampleOpenMasters : gmap Z string :=
  {[ 0%Z := "hostB"; 2%Z := "hostA" ]}.

(** The server tree when [A] alone has registered and reached version 3. *)
Definition exampleAvailable : gmap string string :=
  {[ "test/pfs/server/state/A" := "stateA3" ]}.

(** A world in which the shard engine refuses shard 2. *)
Definition exampleFailingWorld : World :=
  mkWorld ∅
    (λ e, match e with
          | EAddShard 2 => Some (ErrExternal "disk full")
          | _ => None
          end)
    [].

(** * Vocabulary of the properties *)

(** The admission predicate: the server does not hold the shard, and its
    count is below the budget, or at the budget with remainder left. *)
Definition accepts (held : gmap N bool) (serverRole : ServerRole) (shard : N)
    (perServer remainder : N) : Prop :=
  hasShard serverRole shard = false
  ∧ (len held < perServer ∨ (len held = perServer ∧ 0 < remainder)).

Definition remainderAfter (held : gmap N bool) (perServer remainder : N) : N :=
  if decide (len held = perServer) then remainder - 1 else remainder.

(** The sum of [f] over the roles of all servers. *)
Definition total (f : ServerRole → nat) (roles : gmap string ServerRole) : nat :=
  sum_list_with (λ entry, f entry.2) (map_to_list roles).

(** After [placed] successful placements with [remainder] left of
    [remainder0]: no server is more than one over [perServer], the servers
    over [perServer] are paid for by the remainder used, and the counts add
    up to [placed]. *)
Record budgetInv (held : ServerRole → gmap N bool)
    (perServer remainder0 remainder : nat)
    (roles : gmap string ServerRole) (placed : nat) : Prop := {
  budget_bound : ∀ id r, roles !! id = Some r → (size (held r) ≤ perServer + 1)%nat;
  budget_excess :
    (total (λ r, size (held r) - perServer)%nat roles + remainder ≤ remainder0)%nat;
  budget_total : total (λ r, size (held r)) roles = placed;
}.

(** A [map[uint64]bool] that is used as a set: every key maps to [true]. *)
Definition setLike (m : gmap N bool) : Prop :=
  ∀ shard b, m !! shard = Some b → b = true.

(** Membership in such a map, the way the source tests it. *)
Definition holds (m : gmap N bool) (shard : N) : Prop := getb m shard = true.

Record roleOk (r : ServerRole) : Prop := {
  roleOk_masters : setLike (role_Masters r);
  roleOk_replicas : setLike (role_Replicas r);
  roleOk_disjoint : ∀ shard,
    ¬ (holds (role_Masters r) shard ∧ holds (role_Replicas r) shard);
}.

Definition rolesOk (roles : gmap string ServerRole) : Prop :=
  ∀ id r, roles !! id = Some r → roleOk r.

(** The state of the master loop after [placed] shards. *)
Record masterInv (perServer remainder0 : nat) (roles : gmap string ServerRole)
    (remainder : N) (placed : nat) : Prop := {
  masterInv_ok : rolesOk roles;
  masterInv_budget :
    budgetInv role_Masters perServer remainder0 (N.to_nat remainder) roles placed;
  masterInv_noReplicas : ∀ id r, roles !! id = Some r → role_Replicas r = ∅;
}.

(** The masters every server had when the replica loop began. *)
Definition sameMasters (roles0 roles : gmap string ServerRole) : Prop :=
  ∀ id, role_Masters <$> roles !! id = role_Masters <$> roles0 !! id.

Record replicaInv (perServer remainder0 : nat) (roles0 roles : gmap string ServerRole)
    (remainder : N) (placed : nat) : Prop := {
  replicaInv_ok : rolesOk roles;
  replicaInv_budget :
    budgetInv role_Replicas perServer remainder0 (N.to_nat remainder) roles placed;
  replicaInv_masters : sameMasters roles0 roles;
}.

(** The counts of [held] differ by at most one between any two servers. *)
Definition balanced (held : ServerRole → gmap N bool)
    (roles : gmap string ServerRole) : Prop :=
  ∀ id1 r1 id2 r2, roles !! id1 = Some r1 → roles !! id2 = Some r2 →
    (size (held r1) ≤ size (held r2) + 1)%nat.

(** No server is master and replica of one shard. *)
Definition disjointRoles (roles : gmap string ServerRole) : Prop :=
  ∀ id r shard, roles !! id = Some r →
    ¬ (holds (role_Masters r) shard ∧ holds (role_Replicas r) shard).

Record goodAssignment (roles : gmap string ServerRole) : Prop := {
  good_masters : balanced role_Masters roles;
  good_replicas : balanced role_Replicas roles;
  good_disjoint : disjointRoles roles;
}.

Definition roleDisjoint (r : ServerRole) : Prop :=
  ∀ shard, ¬ (holds (role_Masters r) shard ∧ holds (role_Replicas r) shard).

(** Every run of [c] extends the trace by events that satisfy [P]. *)
Definition emits {A} (P : Event → Prop) (c : M A) : Prop :=
  ∀ w, ∃ events, trace (c w).2 = trace w ++ events ∧ Forall P events.

(** The [ServerRole]s a step writes are roles of [roles]. *)
Definition writesFrom (roles : gmap string ServerRole) (e : Event) : Prop :=
  ∀ r, e = ELogSetServerRole r → ∃ id, roles !! id = Some r.

Definition freshRoles (roles : gmap string ServerRole) : Prop :=
  ∀ id r, roles !! id = Some r → role_Masters r = ∅ ∧ role_Replicas r = ∅.

(** The [ServerState] entries of the store. *)
Definition stateEntries (a : discoveryAddresser) (w : World) : gmap string string :=
  filter (λ entry, String.prefix (serverStateDir a) entry.1 = true) (kv w).

(** The versions sent on [versionChan], in order. *)
Definition sentVersions (events : list Event) : list Z :=
  omap (λ e, match e with ESendVersion v => Some v | _ => None end) events.

(** The events of bringing the server up to date. *)
Definition isApply (e : Event) : Prop :=
  match e with
  | ELogAddServerRole _ | EAddShard _ | ESendVersion _ => True
  | _ => False
  end.

(** The events of the removal loop: a [RemoveShard] is for a shard that no
    role of [roles] holds. *)
Definition isRemoval (roles : gmap Z ServerRole) (e : Event) : Prop :=
  match e with
  | ELogDeleteServerRole _ => True
  | ERemoveShard shard =>
    ∀ version serverRole, roles !! version = Some serverRole →
      hasShard serverRole shard = false
  | _ => False
  end.

(** The number of shards whose master is [address]. *)
Definition countOf (shardToMasterAddress : gmap Z string) (address : string) : nat :=
  length (filter (λ entry, entry.2 = address) (map_to_list shardToMasterAddress)).

(** [masters] is the inverse of the master sets of [roles]: a shard is
    recorded for [id] exactly when the role of [id] holds it as master. *)
Definition mastersAgree (roles : gmap string ServerRole) (masters : gmap N string)
  : Prop :=
  ∀ shard id,
    masters !! shard = Some id
    ↔ ∃ r, roles !! id = Some r ∧ holds (role_Masters r) shard.

(** [replicas] lists, for every shard, the servers whose role holds it as
    replica, each once. *)
Definition replicasAgree (roles : gmap string ServerRole)
    (replicas : gmap N (list string)) : Prop :=
  (∀ shard id,
     id ∈ getl replicas shard
     ↔ ∃ r, roles !! id = Some r ∧ holds (role_Replicas r) shard)
  ∧ ∀ shard, NoDup (getl replicas shard).

(** The events the callback of [AssignRoles] adds when it publishes nothing. *)
Definition isCollect (e : Event) : Prop :=
  match e with
  | EGetAll _ | EDelete _ | ELogDeleteServerRole _ => True
  | _ => False
  end.

(** The shard being placed gains one replica, every other shard keeps its
    number of replicas. *)
Definition oneMore (replicas replicas' : gmap N (list string)) (shard : N) : Prop :=
  ∀ shard',
    length (getl replicas' shard')
    = (length (getl replicas shard') + if decide (shard' = shard) then 1 else 0)%nat.

(** How often [shard] occurs in a list of shards. *)
Definition occurrences (shard : N) (shards : list N) : nat :=
  length (filter (λ x, x = shard) shards).


(** The events of writing an assignment. *)
Definition isWrite (e : Event) : Prop :=
  match e with
  | ESet _ _ _ | ELogSetServerRole _ | ELogSetAddresses _ => True
  | _ => False
  end.

(** What makes a stored role deletable: the key is in the role tree of the
    store [w] and decodes to a role below [minVersion]. *)
Definition deletable `{Jsonpb} (a : discoveryAddresser) (w : World)
    (minVersion : Z) (key : string) : Prop :=
  ∃ encoded serverRole,
    kv w !! key = Some encoded
    ∧ String.prefix (serverRoleDir a) key = true
    ∧ unmarshalServerRole encoded = Ok serverRole
    ∧ (role_Version serverRole < minVersion)%Z.

(** The address [publishRole] enters for a server, lines 329-333: that of
    its [ServerState], empty when the server has none. *)
Definition addressOf (newServerStates : gmap string ServerState) (id : string)
  : string :=
  match newServerStates !! id with
  | Some serverState => state_Address serverState
  | None => ""
  end.

Definition masterAt (shardToAddresses : gmap N ShardAddresses) (shard : N)
  : option string :=
  sa_Master <$> shardToAddresses !! shard.

Definition replicaAt (shardToAddresses : gmap N ShardAddresses) (shard : N)
    (address : string) : option bool :=
  shardToAddresses !! shard ≫= λ shardAddresses,
    sa_Replicas shardAddresses !! address.

(** Decoding undoes encoding of [Addresses]. *)
Definition addressesRoundTrip `{Jsonpb} : Prop :=
  ∀ addresses value,
    marshalAddresses addresses = Ok value → unmarshalAddresses value = Ok addresses.

(** A computation leaves the store as it is at every key outside [Q]. *)
Definition keepsOutside {A} (Q : string → Prop) (c : M A) : Prop :=
  ∀ w key, ¬ Q key → kv (c w).2 !! key = kv w !! key.

(** The keys the assigner of version [version] may write or delete: those
    of the role tree and the addresses key of the version. *)
Definition assignerKey (a : discoveryAddresser) (version : Z) (key : string)
  : Prop :=
  String.prefix (serverRoleDir a) key = true ∨ key = addressesKey a version.

(** An error the collaborators hand out: one the store returns for some
    call, or one a decoder or encoder of the codec returns. *)
Definition collaboratorError `{Jsonpb} (w : World) (e : error) : Prop :=
  (∃ event, fails w event = Some e)
  ∨ (∃ encoded, unmarshalServerState encoded = Err e)
  ∨ (∃ encoded, unmarshalServerRole encoded = Err e)
  ∨ (∃ serverRole, marshalServerRole serverRole = Err e)
  ∨ (∃ addresses, marshalAddresses addresses = Err e).

(** A computation that fails only with errors of the collaborators. *)
Definition failsFrom `{Jsonpb} {A} (c : M A) : Prop :=
  ∀ w, fails (c w).2 = fails w
       ∧ ∀ e, (c w).1 = Err e → collaboratorError w e.

(** An element [path.Clean] keeps as it is: not empty, not [.], not [..]. *)
Definition cleanElem (element : string) : bool :=
  bool_decide (element ≠ "" ∧ element ≠ "." ∧ element ≠ "..").

(** A clean relative path: every element between its slashes is one that
    [path.Clean] keeps.  Such a path is not empty, neither begins nor ends
    with a slash, and has no doubled slash. *)
Definition cleanPath (path : string) : Prop :=
  forallb cleanElem (splitSlash path) = true.

(** A string without slash and without dot. *)
Fixpoint plainString (s : string) : Prop :=
  match s with
  | EmptyString => True
  | String c rest =>
    String c EmptyString ≠ "/" ∧ String c EmptyString ≠ "." ∧ plainString rest
  end.

(** * Properties *)

(** ** Admission by [assignMaster] and [assignReplica] *)

Lemma assignMaster_cases serverRoles masters id shard perServer remainder :
  (assignMaster serverRoles masters id shard perServer remainder
     = (false, (serverRoles, masters, remainder))
   ∧ ∀ serverRole, serverRoles !! id = Some serverRole →
       ¬ accepts (role_Masters serverRole) serverRole shard perServer remainder)
  ∨ (∃ serverRole,
       serverRoles !! id = Some serverRole
       ∧ accepts (role_Masters serverRole) serverRole shard perServer remainder
       ∧ assignMaster serverRoles masters id shard perServer remainder
         = (true,
            (<[id := setMasters serverRole
                       (<[shard := true]> (role_Masters serverRole))]> serverRoles,
             <[shard := id]> masters,
             remainderAfter (role_Masters serverRole) perServer remainder))).
Proof.
  unfold assignMaster, accepts, remainderAfter.
  destruct (serverRoles !! id) as [serverRole|] eqn:Hid.
  2: { left. split; [done|]. intros ? [=]. }
  destruct (N.ltb_spec perServer (len (role_Masters serverRole))) as [Hgt|Hle].
  { left. split; [done|]. intros ? [= <-] [_ ?]. lia. }
  destruct (N.eqb_spec (len (role_Masters serverRole)) perServer) as [Heq|Hne];
    destruct (N.eqb_spec remainder 0) as [Hz|Hnz]; simpl.
  - left. split; [done|]. intros ? [= <-] [_ ?]. lia.
  - destruct (hasShard serverRole shard) eqn:Hhas.
    + left. split; [done|]. intros ? [= <-] [? _]. congruence.
    + right. exists serverRole. split; [done|]. split; [split; [done|]; lia|].
      destruct (N.ltb_spec 0 remainder); [|lia].
      rewrite decide_True by done. done.
  - destruct (hasShard serverRole shard) eqn:Hhas.
    + left. split; [done|]. intros ? [= <-] [? _]. congruence.
    + right. exists serverRole. split; [done|]. split; [split; [done|]; lia|].
      rewrite decide_False by done. done.
  - destruct (hasShard serverRole shard) eqn:Hhas.
    + left. split; [done|]. intros ? [= <-] [? _]. congruence.
    + right. exists serverRole. split; [done|]. split; [split; [done|]; lia|].
      rewrite decide_False by done.
      destruct (N.ltb_spec 0 remainder); done.
Qed.

Lemma assignReplica_cases serverRoles masters replicas id shard perServer remainder :
  (assignReplica serverRoles masters replicas id shard perServer remainder
     = (false, (serverRoles, replicas, remainder))
   ∧ ∀ serverRole, serverRoles !! id = Some serverRole →
       ¬ accepts (role_Replicas serverRole) serverRole shard perServer remainder)
  ∨ (∃ serverRole,
       serverRoles !! id = Some serverRole
       ∧ accepts (role_Replicas serverRole) serverRole shard perServer remainder
       ∧ assignReplica serverRoles masters replicas id shard perServer remainder
         = (true,
            (<[id := setReplicas serverRole
                       (<[shard := true]> (role_Replicas serverRole))]> serverRoles,
             <[shard := getl replicas shard ++ [id]]> replicas,
             remainderAfter (role_Replicas serverRole) perServer remainder))).
Proof.
  unfold assignReplica, accepts, remainderAfter.
  destruct (serverRoles !! id) as [serverRole|] eqn:Hid.
  2: { left. split; [done|]. intros ? [=]. }
  destruct (N.ltb_spec perServer (len (role_Replicas serverRole))) as [Hgt|Hle].
  { left. split; [done|]. intros ? [= <-] [_ ?]. lia. }
  destruct (N.eqb_spec (len (role_Replicas serverRole)) perServer) as [Heq|Hne];
    destruct (N.eqb_spec remainder 0) as [Hz|Hnz]; simpl.
  - left. split; [done|]. intros ? [= <-] [_ ?]. lia.
  - destruct (hasShard serverRole shard) eqn:Hhas.
    + left. split; [done|]. intros ? [= <-] [? _]. congruence.
    + right. exists serverRole. split; [done|]. split; [split; [done|]; lia|].
      destruct (N.ltb_spec 0 remainder); [|lia].
      rewrite decide_True by done. done.
  - destruct (hasShard serverRole shard) eqn:Hhas.
    + left. split; [done|]. intros ? [= <-] [? _]. congruence.
    + right. exists serverRole. split; [done|]. split; [split; [done|]; lia|].
      rewrite decide_False by done. done.
  - destruct (hasShard serverRole shard) eqn:Hhas.
    + left. split; [done|]. intros ? [= <-] [? _]. congruence.
    + right. exists serverRole. split; [done|]. split; [split; [done|]; lia|].
      rewrite decide_False by done.
      destruct (N.ltb_spec 0 remainder); done.
Qed.

(** ** Counting over the servers of a role map *)

Lemma total_empty f : total f ∅ = 0%nat.
Proof. unfold total. by rewrite map_to_list_empty. Qed.

Lemma total_insert_fresh f roles id r :
  roles !! id = None → total f (<[id := r]> roles) = (f r + total f roles)%nat.
Proof.
  intros Hfresh. unfold total.
  by rewrite (map_to_list_insert roles id r Hfresh).
Qed.

Lemma total_insert f roles id r r0 :
  roles !! id = Some r0 →
  (total f (<[id := r]> roles) + f r0 = total f roles + f r)%nat.
Proof.
  intros Hid.
  rewrite <- (insert_delete_id roles id r0 Hid) at 2.
  rewrite <- (insert_delete_eq roles id r).
  rewrite !total_insert_fresh by apply lookup_delete_eq. lia.
Qed.

Lemma total_const c roles : total (λ _, c) roles = (size roles * c)%nat.
Proof.
  induction roles as [|id r roles Hfresh IH] using map_ind.
  - by rewrite total_empty, map_size_empty.
  - rewrite total_insert_fresh, map_size_insert_None by done. lia.
Qed.

Lemma total_plus f g roles :
  total (λ r, f r + g r)%nat roles = (total f roles + total g roles)%nat.
Proof.
  induction roles as [|id r roles Hfresh IH] using map_ind.
  - by rewrite !total_empty.
  - rewrite !total_insert_fresh by done. lia.
Qed.

Lemma total_le f g roles :
  (∀ id r, roles !! id = Some r → f r ≤ g r)%nat →
  (total f roles ≤ total g roles)%nat.
Proof.
  induction roles as [|id r roles Hfresh IH] using map_ind; intros Hle.
  - by rewrite !total_empty.
  - rewrite !total_insert_fresh by done.
    pose proof (Hle id r (lookup_insert_eq _ _ _)).
    enough (total f roles ≤ total g roles)%nat by lia.
    apply IH. intros id' r' Hid'. apply (Hle id').
    rewrite lookup_insert_ne; [done|]. intros ->. congruence.
Qed.

Lemma total_lt f g roles id0 r0 :
  roles !! id0 = Some r0 → (f r0 < g r0)%nat →
  (∀ id r, roles !! id = Some r → f r ≤ g r)%nat →
  (total f roles < total g roles)%nat.
Proof.
  intros Hid0 Hlt Hle.
  pose proof (total_insert f roles id0 r0 r0 Hid0) as Hf.
  pose proof (total_insert g roles id0 r0 r0 Hid0) as Hg.
  rewrite <- (insert_delete_id roles id0 r0 Hid0).
  rewrite !total_insert_fresh by apply lookup_delete_eq.
  enough (total f (delete id0 roles) ≤ total g (delete id0 roles))%nat by lia.
  apply total_le. intros id r [_ Hid]%lookup_delete_Some. eauto.
Qed.

(** ** The budget invariant of the placement loops *)

Section budget.
(** [held] is [role_Masters] for the master loop and [role_Replicas] for the
    replica loop. *)
Variable held : ServerRole → gmap N bool.

Lemma budgetInv_start perServer remainder0 roles :
  (∀ id r, roles !! id = Some r → held r = ∅) →
  budgetInv held perServer remainder0 remainder0 roles 0.
Proof.
  intros Hempty. split.
  - intros id r Hid. rewrite (Hempty id r Hid), map_size_empty. lia.
  - enough (total (λ r, size (held r) - perServer)%nat roles ≤ total (λ _, 0%nat) roles)%nat
      as Hle by (rewrite total_const in Hle; lia).
    apply total_le. intros id r Hid. rewrite (Hempty id r Hid), map_size_empty. lia.
  - enough (total (λ r, size (held r)) roles ≤ total (λ _, 0%nat) roles)%nat
      as Hle by (rewrite total_const in Hle; lia).
    apply total_le. intros id r Hid. by rewrite (Hempty id r Hid), map_size_empty.
Qed.

(** An accepted placement: one more shard for [id]. *)
Lemma budgetInv_place perServer remainder0 remainder roles placed id r r' :
  roles !! id = Some r →
  size (held r') = S (size (held r)) →
  (size (held r) < perServer ∨ (size (held r) = perServer ∧ 0 < remainder))%nat →
  budgetInv held perServer remainder0 remainder roles placed →
  budgetInv held perServer remainder0
    (if decide (size (held r) = perServer) then remainder - 1 else remainder)%nat
    (<[id := r']> roles) (S placed).
Proof.
  intros Hid Hsize Haccept [Hbound Hexcess Htotal].
  pose proof (Hbound id r Hid) as Hr. split.
  - intros id' r'' [[<- <-]|[_ Hid']]%lookup_insert_Some; [lia|eauto].
  - pose proof (total_insert (λ r, size (held r) - perServer)%nat roles id r' r Hid)
      as Hsum. simpl in Hsum.
    case_decide; lia.
  - pose proof (total_insert (λ r, size (held r)) roles id r' r Hid) as Hsum.
    simpl in Hsum. lia.
Qed.

(** A replacement that keeps the count of [id]. *)
Lemma budgetInv_keep perServer remainder0 remainder roles placed id r r' :
  roles !! id = Some r →
  size (held r') = size (held r) →
  budgetInv held perServer remainder0 remainder roles placed →
  budgetInv held perServer remainder0 remainder (<[id := r']> roles) placed.
Proof.
  intros Hid Hsize [Hbound Hexcess Htotal]. split.
  - intros id' r'' [[<- <-]|[_ Hid']]%lookup_insert_Some; [|eauto].
    rewrite Hsize. eauto.
  - pose proof (total_insert (λ r, size (held r) - perServer)%nat roles id r' r Hid)
      as Hsum. simpl in Hsum. lia.
  - pose proof (total_insert (λ r, size (held r)) roles id r' r Hid) as Hsum.
    simpl in Hsum. lia.
Qed.

(** When everything has been placed, the counts are within one of each
    other. *)
Lemma budgetInv_balanced perServer remainder0 remainder roles placed servers :
  budgetInv held perServer remainder0 remainder roles placed →
  (size roles ≤ servers)%nat →
  (servers * perServer + remainder0 ≤ placed)%nat →
  ∀ id1 r1 id2 r2, roles !! id1 = Some r1 → roles !! id2 = Some r2 →
    (size (held r1) ≤ size (held r2) + 1)%nat.
Proof.
  intros [Hbound Hexcess Htotal] Hservers Hplaced id1 r1 id2 r2 Hid1 Hid2.
  pose proof (Hbound id1 r1 Hid1).
  destruct (decide (size (held r2) < perServer)%nat) as [Hshort|]; [|lia].
  exfalso.
  assert (total (λ r, size (held r)) roles
          < total (λ r, perServer + (size (held r) - perServer))%nat roles)%nat as Hlt.
  { apply (total_lt _ _ roles id2 r2 Hid2); [lia|]. intros. lia. }
  rewrite total_plus, total_const in Hlt.
  nia.
Qed.

End budget.

(** ** Well-formed roles *)

Lemma setLike_empty : setLike ∅.
Proof. intros shard b. by rewrite lookup_empty. Qed.

Lemma setLike_insert m shard : setLike m → setLike (<[shard := true]> m).
Proof.
  intros Hm shard' b [[_ <-]|[_ ?]]%lookup_insert_Some; [done|]. by eapply Hm.
Qed.

Lemma setLike_delete m shard : setLike m → setLike (delete shard m).
Proof. intros Hm shard' b [_ ?]%lookup_delete_Some. by eapply Hm. Qed.

Lemma setLike_absent m shard : setLike m → getb m shard = false → m !! shard = None.
Proof.
  unfold getb. intros Hm Hget. destruct (m !! shard) as [b|] eqn:Hs; [|done].
  rewrite (Hm _ _ Hs) in Hget. done.
Qed.

Lemma setLike_present m shard b : setLike m → m !! shard = Some b → getb m shard = true.
Proof. unfold getb. intros Hm Hs. rewrite Hs. simpl. by eapply Hm. Qed.

Lemma getb_insert (m : gmap N bool) (shard shard' : N) :
  getb (<[shard := true]> m) shard' = if decide (shard = shard') then true else getb m shard'.
Proof. unfold getb. rewrite lookup_insert. by case_decide. Qed.

Lemma getb_delete (m : gmap N bool) (shard shard' : N) :
  getb (delete shard m) shard' = if decide (shard = shard') then false else getb m shard'.
Proof. unfold getb. rewrite lookup_delete. by case_decide. Qed.

Lemma size_insert_new m shard :
  setLike m → getb m shard = false → size (<[shard := true]> m) = S (size m).
Proof. intros Hm Hget. apply map_size_insert_None. by apply setLike_absent. Qed.

Lemma hasShard_false r shard :
  hasShard r shard = false →
  getb (role_Masters r) shard = false ∧ getb (role_Replicas r) shard = false.
Proof. unfold hasShard. by intros ?%orb_false_elim. Qed.

Lemma roleOk_fresh id version : roleOk (mkServerRole id version ∅ ∅).
Proof.
  split; simpl; [apply setLike_empty..|].
  intros shard [Hm _]. unfold holds, getb in Hm. by rewrite lookup_empty in Hm.
Qed.

Lemma roleOk_addMaster r shard :
  roleOk r → hasShard r shard = false →
  roleOk (setMasters r (<[shard := true]> (role_Masters r))).
Proof.
  intros [Hm Hr Hd] [Hms Hrs]%hasShard_false. split; simpl.
  - by apply setLike_insert.
  - done.
  - intros shard'. unfold holds. rewrite getb_insert.
    destruct (decide (shard = shard')) as [<-|_]; [|apply Hd].
    rewrite Hrs. by intros [_ ?].
Qed.

Lemma roleOk_addReplica r shard :
  roleOk r → hasShard r shard = false →
  roleOk (setReplicas r (<[shard := true]> (role_Replicas r))).
Proof.
  intros [Hm Hr Hd] [Hms Hrs]%hasShard_false. split; simpl.
  - done.
  - by apply setLike_insert.
  - intros shard'. unfold holds. rewrite getb_insert.
    destruct (decide (shard = shard')) as [<-|_]; [|apply Hd].
    rewrite Hms. by intros [? _].
Qed.

Lemma roleOk_deleteReplica r shard :
  roleOk r → roleOk (setReplicas r (delete shard (role_Replicas r))).
Proof.
  intros [Hm Hr Hd]. split; simpl.
  - done.
  - by apply setLike_delete.
  - intros shard'. unfold holds. rewrite getb_delete.
    destruct (decide (shard = shard')) as [<-|_]; [|apply Hd].
    by intros [_ ?].
Qed.

Lemma rolesOk_insert roles id r :
  rolesOk roles → roleOk r → rolesOk (<[id := r]> roles).
Proof.
  intros Hroles Hr id' r' [[_ <-]|[_ ?]]%lookup_insert_Some; [done|by eapply Hroles].
Qed.

(** ** The master loop keeps its invariant *)

Lemma assignMaster_inv perServer remainder0 roles masters id shard remainder placed
    ok roles' masters' remainder' :
  masterInv (N.to_nat perServer) remainder0 roles remainder placed →
  assignMaster roles masters id shard perServer remainder
    = (ok, (roles', masters', remainder')) →
  masterInv (N.to_nat perServer) remainder0 roles' remainder'
    (if ok then S placed else placed).
Proof.
  intros Hinv Hcall.
  destruct (assignMaster_cases roles masters id shard perServer remainder)
    as [[Heq _]|(r & Hid & [Hhas Haccept] & Heq)];
    rewrite Heq in Hcall; simplify_eq; [done|].
  destruct Hinv as [Hok Hbudget Hnone].
  pose proof (Hok id r Hid) as Hr.
  destruct (hasShard_false _ _ Hhas) as [Hms _].
  split.
  - apply rolesOk_insert; [done|]. by apply roleOk_addMaster.
  - unfold remainderAfter, len in *.
    eapply (budgetInv_place role_Masters) in Hbudget; [| exact Hid | |].
    + repeat case_decide; try lia; try exact Hbudget.
      replace (N.to_nat (remainder - 1)) with (N.to_nat remainder - 1)%nat by lia.
      exact Hbudget.
    + simpl. apply size_insert_new; [apply Hr|done].
    + lia.
  - intros id' r' [[_ <-]|[_ ?]]%lookup_insert_Some; simpl; eauto.
Qed.

Lemma tryAssignMaster_inv perServer remainder0 ids roles masters shard remainder
    placed roles' masters' remainder' :
  masterInv (N.to_nat perServer) remainder0 roles remainder placed →
  tryAssignMaster ids roles masters shard perServer remainder
    = Some (roles', masters', remainder') →
  masterInv (N.to_nat perServer) remainder0 roles' remainder' (S placed).
Proof.
  revert roles masters remainder.
  induction ids as [|id ids IH]; intros roles masters remainder Hinv Htry; [done|].
  simpl in Htry.
  destruct (assignMaster roles masters id shard perServer remainder)
    as [ok [[roles1 masters1] remainder1]] eqn:Hcall.
  pose proof (assignMaster_inv _ _ _ _ _ _ _ _ _ _ _ _ Hinv Hcall) as Hinv1.
  destruct ok; [by simplify_eq|]. by eapply IH.
Qed.

Lemma placeMasters_inv `{MapOrder} st shardLocations newServerStates perServer
    remainder0 shards roles masters remainder placed roles' masters' remainder' :
  masterInv (N.to_nat perServer) remainder0 roles remainder placed →
  placeMasters st shardLocations newServerStates perServer shards
    roles masters remainder = Some (roles', masters', remainder') →
  masterInv (N.to_nat perServer) remainder0 roles' remainder'
    (placed + length shards).
Proof.
  revert roles masters remainder placed.
  induction shards as [|shard shards IH];
    intros roles masters remainder placed Hinv Hplace; simpl in Hplace.
  { simplify_eq. by rewrite Nat.add_0_r. }
  destruct (tryAssignMaster _ roles masters shard perServer remainder)
    as [[[roles1 masters1] remainder1]|] eqn:Htry; [|done].
  pose proof (tryAssignMaster_inv _ _ _ _ _ _ _ _ _ _ _ Hinv Htry) as Hinv1.
  specialize (IH _ _ _ _ Hinv1 Hplace).
  simpl. by replace (placed + S (length shards))%nat with (S placed + length shards)%nat by lia.
Qed.

Lemma assignMaster_size roles masters id shard perServer remainder :
  size (assignMaster roles masters id shard perServer remainder).2.1.1 = size roles.
Proof.
  destruct (assignMaster_cases roles masters id shard perServer remainder)
    as [[Heq _]|(r & Hid & _ & Heq)]; rewrite Heq; simpl; [done|].
  by apply map_size_insert_Some.
Qed.

Lemma tryAssignMaster_size ids roles masters shard perServer remainder
    roles' masters' remainder' :
  tryAssignMaster ids roles masters shard perServer remainder
    = Some (roles', masters', remainder') →
  size roles' = size roles.
Proof.
  revert roles masters remainder.
  induction ids as [|id ids IH]; intros roles masters remainder Htry; [done|].
  simpl in Htry.
  pose proof (assignMaster_size roles masters id shard perServer remainder) as Hsize.
  destruct (assignMaster roles masters id shard perServer remainder)
    as [ok [[roles1 masters1] remainder1]]; simpl in Hsize.
  destruct ok; [by simplify_eq|]. rewrite <- Hsize. by eapply IH.
Qed.

Lemma placeMasters_size `{MapOrder} st shardLocations newServerStates perServer
    shards roles masters remainder roles' masters' remainder' :
  placeMasters st shardLocations newServerStates perServer shards
    roles masters remainder = Some (roles', masters', remainder') →
  size roles' = size roles.
Proof.
  revert roles masters remainder.
  induction shards as [|shard shards IH];
    intros roles masters remainder Hplace; simpl in Hplace; [by simplify_eq|].
  destruct (tryAssignMaster _ roles masters shard perServer remainder)
    as [[[roles1 masters1] remainder1]|] eqn:Htry; [|done].
  rewrite <- (tryAssignMaster_size _ _ _ _ _ _ _ _ _ Htry). by eapply IH.
Qed.

(** ** The replica loop keeps its invariant *)

Lemma sameMasters_insert roles0 roles id r r' :
  sameMasters roles0 roles → roles !! id = Some r →
  role_Masters r' = role_Masters r →
  sameMasters roles0 (<[id := r']> roles).
Proof.
  intros Hsame Hid Hm id'. rewrite lookup_insert.
  case_decide; [subst; simpl|done].
  by rewrite Hm, <- Hsame, Hid.
Qed.

Lemma sameMasters_size roles0 roles : sameMasters roles0 roles → size roles = size roles0.
Proof.
  intros Hsame.
  rewrite <- (map_size_fmap role_Masters roles), <- (map_size_fmap role_Masters roles0).
  f_equal. apply map_eq. intros id. rewrite !lookup_fmap. apply Hsame.
Qed.

Lemma assignReplica_inv perServer remainder0 roles0 roles masters replicas id shard
    remainder placed ok roles' replicas' remainder' :
  replicaInv (N.to_nat perServer) remainder0 roles0 roles remainder placed →
  assignReplica roles masters replicas id shard perServer remainder
    = (ok, (roles', replicas', remainder')) →
  replicaInv (N.to_nat perServer) remainder0 roles0 roles' remainder'
    (if ok then S placed else placed).
Proof.
  intros Hinv Hcall.
  destruct (assignReplica_cases roles masters replicas id shard perServer remainder)
    as [[Heq _]|(r & Hid & [Hhas Haccept] & Heq)];
    rewrite Heq in Hcall; simplify_eq; [done|].
  destruct Hinv as [Hok Hbudget Hsame].
  pose proof (Hok id r Hid) as Hr.
  destruct (hasShard_false _ _ Hhas) as [_ Hrs].
  split.
  - apply rolesOk_insert; [done|]. by apply roleOk_addReplica.
  - unfold remainderAfter, len in *.
    eapply (budgetInv_place role_Replicas) in Hbudget; [| exact Hid | |].
    + repeat case_decide; try lia; try exact Hbudget.
      replace (N.to_nat (remainder - 1)) with (N.to_nat remainder - 1)%nat by lia.
      exact Hbudget.
    + simpl. apply size_insert_new; [apply Hr|done].
    + lia.
  - by eapply sameMasters_insert.
Qed.

Lemma tryAssignReplica_inv perServer remainder0 roles0 ids roles masters replicas
    shard remainder placed roles' replicas' remainder' :
  replicaInv (N.to_nat perServer) remainder0 roles0 roles remainder placed →
  tryAssignReplica ids roles masters replicas shard perServer remainder
    = Some (roles', replicas', remainder') →
  replicaInv (N.to_nat perServer) remainder0 roles0 roles' remainder' (S placed).
Proof.
  revert roles replicas remainder.
  induction ids as [|id ids IH]; intros roles replicas remainder Hinv Htry; [done|].
  simpl in Htry.
  destruct (assignReplica roles masters replicas id shard perServer remainder)
    as [ok [[roles1 replicas1] remainder1]] eqn:Hcall.
  pose proof (assignReplica_inv _ _ _ _ _ _ _ _ _ _ _ _ _ _ Hinv Hcall) as Hinv1.
  destruct ok; [by simplify_eq|]. by eapply IH.
Qed.

(** What the loops of [swapReplica] find. *)
Lemma elem_of_range `{MapOrderOk} `{Countable K} {V} (s : Site) (m : gmap K V) k v :
  (k, v) ∈ range s m ↔ m !! k = Some v.
Proof.
  unfold range. rewrite (range_order_perm _ s (map_to_list m)).
  apply elem_of_map_to_list.
Qed.

Lemma findSwapShard_Some serverRole swapServerRole shard swapShards swapShard :
  findSwapShard serverRole swapServerRole shard swapShards = Some swapShard →
  (∃ b, (swapShard, b) ∈ swapShards)
  ∧ hasShard serverRole swapShard = false
  ∧ hasShard swapServerRole shard = false.
Proof.
  induction swapShards as [|[s b] rest IH]; simpl; [done|].
  destruct (hasShard serverRole s) eqn:Hs.
  { intros ([b' Hin] & ? & ?)%IH. split; [exists b'; by right|done]. }
  destruct (hasShard swapServerRole shard) eqn:Hswap.
  { intros ([b' Hin] & ? & ?)%IH. split; [exists b'; by right|done]. }
  intros [= <-]. split; [exists b; by left|done].
Qed.

Lemma findSwap_Some `{MapOrder} from id serverRole shard swapRoles
    swapID swapServerRole swapShard :
  findSwap from id serverRole shard swapRoles = Some (swapID, swapServerRole, swapShard) →
  (swapID, swapServerRole) ∈ swapRoles
  ∧ swapID ≠ id
  ∧ (∃ b, (swapShard, b) ∈ range (AtSwapShards from id swapID) (role_Replicas swapServerRole))
  ∧ hasShard serverRole swapShard = false
  ∧ hasShard swapServerRole shard = false.
Proof.
  induction swapRoles as [|[sid srole] rest IH]; simpl; [done|].
  case_decide as Hsid.
  { intros (? & ? & ?)%IH. split; [by right|done]. }
  destruct (findSwapShard serverRole srole shard _) as [s|] eqn:Hfind.
  - intros [= <- <- <-]. apply findSwapShard_Some in Hfind.
    split; [by left|]. split; [done|]. done.
  - intros (? & ? & ?)%IH. split; [by right|done].
Qed.

Lemma total_ge f roles id r : roles !! id = Some r → (f r ≤ total f roles)%nat.
Proof.
  intros Hid. rewrite <- (insert_delete_id roles id r Hid).
  rewrite total_insert_fresh by apply lookup_delete_eq. lia.
Qed.

(** A count above [perServer] has used the remainder, so a count always fits
    where [perServer + remainder0] does. *)
Lemma budgetInv_room held perServer remainder0 remainder roles placed id r :
  budgetInv held perServer remainder0 remainder roles placed →
  roles !! id = Some r →
  (size (held r) ≤ perServer + remainder0)%nat.
Proof.
  intros [Hbound Hexcess _] Hid.
  pose proof (total_ge (λ r, size (held r) - perServer)%nat roles id r Hid) as Hge.
  simpl in Hge. lia.
Qed.

Lemma swapReplica_inv `{MapOrderOk} perServer remainder0 roles0 from roles masters
    replicas id shard remainder placed ok roles' replicas' :
  (N.to_nat perServer + remainder0 ≤ N.to_nat MaxUint64)%nat →
  replicaInv (N.to_nat perServer) remainder0 roles0 roles remainder placed →
  swapReplica from roles masters replicas id shard perServer
    = (ok, (roles', replicas')) →
  replicaInv (N.to_nat perServer) remainder0 roles0 roles' remainder
    (if ok then S placed else placed).
Proof.
  intros Hroom Hinv. unfold swapReplica.
  destruct (roles !! id) as [serverRole|] eqn:Hid; [|by intros [= <- <- <-]].
  destruct (N.leb_spec perServer (len (role_Replicas serverRole))) as [|Hbelow];
    [by intros [= <- <- <-]|].
  destruct (findSwap from id serverRole shard _)
    as [[[swapID swapServerRole] swapShard]|] eqn:Hfind; [|by intros [= <- <- <-]].
  apply findSwap_Some in Hfind
    as (Hswap%elem_of_range & Hne & [b Hshard%elem_of_range] & Hfree & Hfree').
  destruct Hinv as [Hok Hbudget Hsame].
  pose proof (Hok _ _ Hid) as Hr. pose proof (Hok _ _ Hswap) as Hsr.
  destruct (hasShard_false _ _ Hfree) as [_ HfreeR].
  destruct (hasShard_false _ _ Hfree') as [HfreeM' HfreeR'].
  pose proof (setLike_present _ _ _ (roleOk_replicas _ Hsr) Hshard) as Hheld.
  assert (shard ≠ swapShard) as Hdiff by (intros ->; congruence).
  set (swapServerRole' :=
         setReplicas swapServerRole (delete swapShard (role_Replicas swapServerRole))).
  assert (hasShard swapServerRole' shard = false) as Hfree''.
  { unfold hasShard, swapServerRole'. simpl. rewrite HfreeM', getb_delete.
    by case_decide. }
  assert (size (role_Replicas swapServerRole') = pred (size (role_Replicas swapServerRole)))
    as Hsize' by (simpl; apply map_size_delete_Some; eauto).
  assert (size (role_Replicas swapServerRole) ≠ 0)%nat as Hpos
    by (eapply map_size_ne_0_lookup_2; eauto).
  pose proof (budgetInv_room _ _ _ _ _ _ _ _ Hbudget Hswap) as Hfits.
  (* the shard handed to [swapID] *)
  destruct (assignReplica_cases (<[swapID := swapServerRole']> roles) masters
              (removeReplica replicas swapShard swapID) swapID shard MaxUint64 0)
    as [[_ Hrefuse]|(r1 & Hr1 & _ & ->)].
  { exfalso. apply (Hrefuse swapServerRole'); [apply lookup_insert_eq|].
    split; [done|]. left. unfold len. lia. }
  rewrite lookup_insert_eq in Hr1. injection Hr1 as <-.
  rewrite insert_insert_eq.
  assert (remainderAfter (role_Replicas swapServerRole') MaxUint64 0 = 0) as ->
    by (unfold remainderAfter; case_decide; lia).
  set (swapServerRole'' :=
         setReplicas swapServerRole'
           (<[shard := true]> (role_Replicas swapServerRole'))).
  assert (roleOk swapServerRole'') as Hsr''
    by (apply roleOk_addReplica; [by apply roleOk_deleteReplica|done]).
  assert (size (role_Replicas swapServerRole'') = size (role_Replicas swapServerRole))
    as Hsize''.
  { transitivity (S (size (role_Replicas swapServerRole'))); [|lia].
    apply size_insert_new; [apply roleOk_deleteReplica, Hsr|].
    by destruct (hasShard_false _ _ Hfree''). }
  (* the shard taken over by [id] *)
  destruct (assignReplica_cases (<[swapID := swapServerRole'']> roles) masters
              (<[shard := getl (removeReplica replicas swapShard swapID) shard ++ [swapID]]>
                 (removeReplica replicas swapShard swapID))
              id swapShard perServer 0)
    as [[_ Hrefuse]|(r2 & Hr2 & _ & ->)].
  { exfalso. apply (Hrefuse serverRole); [by rewrite lookup_insert_ne|].
    split; [done|]. by left. }
  rewrite lookup_insert_ne in Hr2 by done. simplify_eq.
  intros [= <- <- <-].
  split.
  - apply rolesOk_insert; [by apply rolesOk_insert|]. by apply roleOk_addReplica.
  - eapply (budgetInv_keep role_Replicas) in Hbudget; [|exact Hswap|exact Hsize''].
    assert (<[swapID := swapServerRole'']> roles !! id = Some serverRole) as Hid'
      by (by rewrite lookup_insert_ne).
    eapply (budgetInv_place role_Replicas) in Hbudget; [|exact Hid'| |].
    + unfold len in Hbelow. rewrite decide_False in Hbudget by lia. exact Hbudget.
    + simpl. apply size_insert_new; [apply Hr|done].
    + unfold len in Hbelow. lia.
  - eapply sameMasters_insert; [|by rewrite lookup_insert_ne|done].
    by eapply sameMasters_insert.
Qed.

Lemma trySwapReplica_inv `{MapOrderOk} perServer remainder0 roles0 from ids roles
    masters replicas shard remainder placed roles' replicas' :
  (N.to_nat perServer + remainder0 ≤ N.to_nat MaxUint64)%nat →
  replicaInv (N.to_nat perServer) remainder0 roles0 roles remainder placed →
  trySwapReplica from ids roles masters replicas shard perServer
    = Some (roles', replicas') →
  replicaInv (N.to_nat perServer) remainder0 roles0 roles' remainder (S placed).
Proof.
  intros Hroom. revert roles replicas.
  induction ids as [|id ids IH]; intros roles replicas Hinv Htry; [done|].
  simpl in Htry.
  destruct (swapReplica from roles masters replicas id shard perServer)
    as [ok [roles1 replicas1]] eqn:Hcall.
  pose proof (swapReplica_inv _ _ _ _ _ _ _ _ _ _ _ _ _ _ Hroom Hinv Hcall) as Hinv1.
  destruct ok; [by simplify_eq|]. by eapply IH.
Qed.

Lemma placeReplica_inv `{MapOrderOk} st shardLocations newServerStates masters
    perServer remainder0 roles0 replica shard roles replicas remainder placed
    roles' replicas' remainder' :
  (N.to_nat perServer + remainder0 ≤ N.to_nat MaxUint64)%nat →
  replicaInv (N.to_nat perServer) remainder0 roles0 roles remainder placed →
  placeReplica st shardLocations newServerStates masters perServer replica shard
    roles replicas remainder = Some (roles', replicas', remainder') →
  replicaInv (N.to_nat perServer) remainder0 roles0 roles' remainder' (S placed).
Proof.
  intros Hroom Hinv. unfold placeReplica.
  destruct (tryAssignReplica _ roles masters replicas shard perServer remainder)
    as [[[roles1 replicas1] remainder1]|] eqn:Htry.
  { intros [= <- <- <-]. by eapply tryAssignReplica_inv. }
  destruct (trySwapReplica _ _ roles masters replicas shard perServer)
    as [[roles1 replicas1]|] eqn:Hswap; [|done].
  intros [= <- <- <-]. by eapply trySwapReplica_inv.
Qed.

Lemma placeReplicaRound_inv `{MapOrderOk} st shardLocations newServerStates masters
    perServer remainder0 roles0 replica shards roles replicas remainder placed
    roles' replicas' remainder' :
  (N.to_nat perServer + remainder0 ≤ N.to_nat MaxUint64)%nat →
  replicaInv (N.to_nat perServer) remainder0 roles0 roles remainder placed →
  placeReplicaRound st shardLocations newServerStates masters perServer replica
    shards roles replicas remainder = Some (roles', replicas', remainder') →
  replicaInv (N.to_nat perServer) remainder0 roles0 roles' remainder'
    (placed + length shards).
Proof.
  intros Hroom. revert roles replicas remainder placed.
  induction shards as [|shard shards IH];
    intros roles replicas remainder placed Hinv Hplace; simpl in Hplace.
  { simplify_eq. by rewrite Nat.add_0_r. }
  destruct (placeReplica _ _ _ masters perServer replica shard roles replicas remainder)
    as [[[roles1 replicas1] remainder1]|] eqn:Hone; [|done].
  pose proof (placeReplica_inv _ _ _ _ _ _ _ _ _ _ _ _ _ _ _ _ Hroom Hinv Hone) as Hinv1.
  specialize (IH _ _ _ _ Hinv1 Hplace). simpl.
  by replace (placed + S (length shards))%nat with (S placed + length shards)%nat by lia.
Qed.

Lemma length_upto n : length (upto n) = N.to_nat n.
Proof. unfold upto. by rewrite length_fmap, length_seq. Qed.

Lemma placeReplicas_inv `{MapOrderOk} st shardLocations newServerStates masters
    perServer remainder0 roles0 numShards replicaIndices roles replicas remainder
    placed roles' replicas' remainder' :
  (N.to_nat perServer + remainder0 ≤ N.to_nat MaxUint64)%nat →
  replicaInv (N.to_nat perServer) remainder0 roles0 roles remainder placed →
  placeReplicas st shardLocations newServerStates masters perServer numShards
    replicaIndices roles replicas remainder = Some (roles', replicas', remainder') →
  replicaInv (N.to_nat perServer) remainder0 roles0 roles' remainder'
    (placed + length replicaIndices * N.to_nat numShards).
Proof.
  intros Hroom. revert roles replicas remainder placed.
  induction replicaIndices as [|replica rest IH];
    intros roles replicas remainder placed Hinv Hplace; simpl in Hplace.
  { simplify_eq. simpl. by rewrite Nat.add_0_r. }
  destruct (placeReplicaRound _ _ _ masters perServer replica _ roles replicas remainder)
    as [[[roles1 replicas1] remainder1]|] eqn:Hround; [|done].
  pose proof (placeReplicaRound_inv _ _ _ _ _ _ _ _ _ _ _ _ _ _ _ _ Hroom Hinv Hround)
    as Hinv1.
  rewrite length_upto in Hinv1.
  specialize (IH _ _ _ _ Hinv1 Hplace). simpl.
  by replace (placed + (N.to_nat numShards + length rest * N.to_nat numShards))%nat
    with (placed + N.to_nat numShards + length rest * N.to_nat numShards)%nat by lia.
Qed.

(** ** What [place] returns *)

Lemma budgets_Ok a servers budget :
  budgets a servers = Ok budget →
  servers ≠ 0
  ∧ budget = (NumShards (sharder a) / servers, NumShards (sharder a) mod servers,
              wrap64 (NumShards (sharder a) * NumReplicas (sharder a)) / servers,
              wrap64 (NumShards (sharder a) * NumReplicas (sharder a)) mod servers).
Proof.
  unfold budgets, goDiv, goMod.
  destruct (N.eqb_spec servers 0); [done|]. by intros [= <-].
Qed.

Lemma place_good `{MapOrderOk} st a shardLocations newServerStates newRoles
    servers budget roles' masters' replicas' :
  budgets a servers = Ok budget →
  (size newRoles ≤ N.to_nat servers)%nat →
  (∀ id r, newRoles !! id = Some r → role_Masters r = ∅ ∧ role_Replicas r = ∅) →
  place st a shardLocations newServerStates newRoles budget
    = Some (roles', masters', replicas') →
  goodAssignment roles'.
Proof.
  intros [Hservers ->]%budgets_Ok Hsize Hfresh. unfold place.
  set (numShards := NumShards (sharder a)).
  set (numReplicas := NumReplicas (sharder a)).
  destruct (placeMasters _ _ _ _ _ newRoles ∅ _)
    as [[[roles1 masters1] remainder1]|] eqn:Hmasters; [|done].
  destruct (placeReplicas _ _ _ masters1 _ _ _ roles1 ∅ _)
    as [[[roles2 replicas2] remainder2]|] eqn:Hreplicas; [|done].
  intros [= <- <- <-].
  (* the master loop *)
  assert (masterInv (N.to_nat (numShards / servers)) (N.to_nat (numShards mod servers))
            newRoles (numShards mod servers) 0) as Hstart.
  { split.
    - intros id r Hid. destruct (Hfresh id r Hid) as [Hm Hr].
      split; rewrite ?Hm, ?Hr; [apply setLike_empty..|].
      intros shard [Hheld _]. unfold holds, getb in Hheld.
      by rewrite lookup_empty in Hheld.
    - apply budgetInv_start. intros id r Hid. by destruct (Hfresh id r Hid).
    - intros id r Hid. by destruct (Hfresh id r Hid). }
  pose proof (placeMasters_inv _ _ _ _ _ _ _ _ _ _ _ _ _ Hstart Hmasters) as Hm.
  pose proof (placeMasters_size _ _ _ _ _ _ _ _ _ _ _ Hmasters) as Hsize1.
  rewrite length_upto in Hm. destruct Hm as [Hok1 Hbudget1 Hnone1].
  (* the replica loop *)
  set (wanted := wrap64 (numShards * numReplicas)) in *.
  assert (wanted < 2 ^ 64) as Hwanted by (apply N.mod_lt; lia).
  pose proof (N.div_mod wanted servers Hservers) as Hdm.
  pose proof (N.mod_lt wanted servers Hservers) as Hrem.
  assert (1 * (wanted / servers) ≤ servers * (wanted / servers)) as Hmul
    by (apply N.mul_le_mono_r; lia).
  assert (replicaInv (N.to_nat (wanted / servers)) (N.to_nat (wanted mod servers))
            roles1 roles1 (wanted mod servers) 0) as Hstart2.
  { split; [done| |done]. apply budgetInv_start. eauto. }
  assert (N.to_nat (wanted / servers) + N.to_nat (wanted mod servers)
          ≤ N.to_nat MaxUint64)%nat as Hroom.
  { unfold MaxUint64. clear -Hwanted Hdm Hmul. revert Hwanted Hdm Hmul.
    generalize (wanted / servers) (wanted mod servers) (servers * (wanted / servers)).
    intros q m sq ???. lia. }
  eapply placeReplicas_inv in Hreplicas; [|exact Hroom|exact Hstart2].
  rewrite length_upto in Hreplicas. destruct Hreplicas as [Hok2 Hbudget2 Hsame].
  pose proof (sameMasters_size _ _ Hsame) as Hsize2.
  split.
  - intros id1 r1 id2 r2 Hid1 Hid2.
    pose proof (Hsame id1) as H1. pose proof (Hsame id2) as H2.
    rewrite Hid1 in H1. rewrite Hid2 in H2.
    destruct (roles1 !! id1) as [r1'|] eqn:Hid1'; [|done].
    destruct (roles1 !! id2) as [r2'|] eqn:Hid2'; [|done].
    simpl in H1, H2. injection H1 as ->. injection H2 as ->.
    eapply (budgetInv_balanced role_Masters _ _ _ _ _ (N.to_nat servers) Hbudget1);
      [lia| |exact Hid1'|exact Hid2'].
    pose proof (N.div_mod numShards servers Hservers). nia.
  - intros id1 r1 id2 r2 Hid1 Hid2.
    eapply (budgetInv_balanced role_Replicas _ _ _ _ _ (N.to_nat servers) Hbudget2);
      [lia| |exact Hid1|exact Hid2].
    assert (wanted ≤ numShards * numReplicas) by (apply N.Div0.mod_le).
    nia.
  - intros id r shard Hid. apply (roleOk_disjoint _ (Hok2 id r Hid)).
Qed.

(** ** Disjointness alone is preserved by each placement step *)

Lemma disjointRoles_insert roles id r :
  disjointRoles roles → roleDisjoint r → disjointRoles (<[id := r]> roles).
Proof.
  intros Hroles Hr id' r' shard [[_ <-]|[_ ?]]%lookup_insert_Some;
    [apply Hr|by eapply Hroles].
Qed.

Lemma assignMaster_disjoint roles masters id shard perServer remainder :
  disjointRoles roles →
  disjointRoles (assignMaster roles masters id shard perServer remainder).2.1.1.
Proof.
  intros Hroles.
  destruct (assignMaster_cases roles masters id shard perServer remainder)
    as [[-> _]|(r & Hid & [[_ Hrs]%hasShard_false _] & ->)]; simpl; [done|].
  apply disjointRoles_insert; [done|]. intros shard'. simpl. unfold holds.
  rewrite getb_insert. destruct (decide (shard = shard')) as [<-|_].
  - rewrite Hrs. by intros [_ ?].
  - by eapply Hroles.
Qed.

Lemma assignReplica_disjoint roles masters replicas id shard perServer remainder :
  disjointRoles roles →
  disjointRoles (assignReplica roles masters replicas id shard perServer remainder).2.1.1.
Proof.
  intros Hroles.
  destruct (assignReplica_cases roles masters replicas id shard perServer remainder)
    as [[-> _]|(r & Hid & [[Hms _]%hasShard_false _] & ->)]; simpl; [done|].
  apply disjointRoles_insert; [done|]. intros shard'. simpl. unfold holds.
  rewrite getb_insert. destruct (decide (shard = shard')) as [<-|_].
  - rewrite Hms. by intros [? _].
  - by eapply Hroles.
Qed.

Lemma swapReplica_disjoint `{MapOrderOk} from roles masters replicas id shard perServer :
  disjointRoles roles →
  disjointRoles (swapReplica from roles masters replicas id shard perServer).2.1.
Proof.
  intros Hroles. unfold swapReplica.
  destruct (roles !! id) as [serverRole|] eqn:Hid; [|done].
  destruct (perServer <=? len (role_Replicas serverRole)); [done|].
  destruct (findSwap from id serverRole shard _)
    as [[[swapID swapServerRole] swapShard]|] eqn:Hfind; [|done].
  apply findSwap_Some in Hfind as (Hswap%elem_of_range & _).
  set (roles1 := <[swapID := _]> roles).
  assert (disjointRoles roles1) as Hroles1.
  { apply disjointRoles_insert; [done|]. intros shard'. simpl. unfold holds.
    rewrite getb_delete. destruct (decide (swapShard = shard')) as [<-|_].
    - by intros [_ ?].
    - by eapply Hroles. }
  pose proof (assignReplica_disjoint roles1 masters
                (removeReplica replicas swapShard swapID) swapID shard MaxUint64 0
                Hroles1) as Hroles2.
  destruct (assignReplica roles1 _ _ swapID shard MaxUint64 0)
    as [ok2 [[roles2 replicas2] remainder2]]. simpl in Hroles2.
  pose proof (assignReplica_disjoint roles2 masters replicas2 id swapShard
                perServer remainder2 Hroles2) as Hroles3.
  by destruct (assignReplica roles2 _ _ id swapShard perServer remainder2)
    as [ok3 [[roles3 replicas3] remainder3]].
Qed.

(** ** What a step adds to the trace *)

Lemma emits_retM {A} P (a : A) : emits P (retM a).
Proof. intros w. exists []. by rewrite app_nil_r. Qed.

Lemma emits_lift {A} P (r : result A) : emits P (lift r).
Proof. intros w. exists []. by rewrite app_nil_r. Qed.

Lemma emits_emit (P : Event → Prop) e : P e → emits P (emit e).
Proof. intros He w. exists [e]. split; [done|]. by constructor. Qed.

Lemma emits_call (P : Event → Prop) e : P e → emits P (call e).
Proof.
  intros He w. exists [e]. unfold call.
  split; [by destruct (fails w e)|]. by constructor.
Qed.

Lemma emits_readKv P : emits P readKv.
Proof. intros w. exists []. by rewrite app_nil_r. Qed.

Lemma emits_updateKv P f : emits P (updateKv f).
Proof. intros w. exists []. simpl. by rewrite app_nil_r. Qed.

Lemma emits_bindM {A B} P (c : M A) (k : A → M B) :
  emits P c → (∀ a, emits P (k a)) → emits P (bindM c k).
Proof.
  intros Hc Hk w. unfold bindM.
  destruct (Hc w) as (events1 & Htrace1 & HP1).
  destruct (c w) as [[a|e] w1]; simpl in Htrace1; [|by exists events1].
  destruct (Hk a w1) as (events2 & Htrace2 & HP2).
  exists (events1 ++ events2). rewrite Htrace2, Htrace1, app_assoc.
  split; [done|]. by apply Forall_app.
Qed.

Lemma emits_foldM {A B} P (f : B → A → M B) (l : list A) (b : B) :
  (∀ b x, x ∈ l → emits P (f b x)) → emits P (foldM f l b).
Proof.
  revert b. induction l as [|x l IH]; intros b Hf; simpl; [apply emits_retM|].
  apply emits_bindM; [apply Hf; by left|].
  intros b'. apply IH. intros b'' y Hy. apply Hf. by right.
Qed.

Lemma emits_clientGetAll (P : Event → Prop) prefix :
  P (EGetAll prefix) → emits P (clientGetAll prefix).
Proof.
  intros HP. unfold clientGetAll.
  apply emits_bindM; [by apply emits_call|]. intros _.
  apply emits_bindM; [apply emits_readKv|]. intros store. apply emits_retM.
Qed.

Lemma emits_clientSet (P : Event → Prop) key value ttl :
  P (ESet key value ttl) → emits P (clientSet key value ttl).
Proof.
  intros HP. unfold clientSet.
  apply emits_bindM; [by apply emits_call|]. intros _. apply emits_updateKv.
Qed.

Lemma emits_clientDelete (P : Event → Prop) key :
  P (EDelete key) → emits P (clientDelete key).
Proof.
  intros HP. unfold clientDelete.
  apply emits_bindM; [by apply emits_call|]. intros _. apply emits_updateKv.
Qed.

Lemma length_range `{MapOrderOk} `{Countable K} {V} (s : Site) (m : gmap K V) :
  length (range s m) = size m.
Proof.
  unfold range. rewrite (range_order_perm _ s (map_to_list m)).
  apply length_map_to_list.
Qed.

(** ** The callback of [AssignRoles] *)

Lemma decodeServerStates_fresh `{MapOrder} `{Jsonpb} version entries
    states roles locations states' roles' locations' :
  foldResult (decodeServerState version) entries (states, roles, locations)
    = Ok (states', roles', locations') →
  freshRoles roles →
  freshRoles roles' ∧ (size roles' ≤ size roles + length entries)%nat.
Proof.
  revert states roles locations.
  induction entries as [|entry entries IH]; intros states roles locations; simpl.
  { intros [= <- <- <-] Hfresh. split; [done|lia]. }
  destruct (unmarshalServerState entry.2) as [serverState|e]; simpl; [|done].
  intros Hfold Hfresh. apply IH in Hfold as [Hfresh' Hsize].
  - split; [done|].
    pose proof (map_size_insert (state_Id serverState)
                  (mkServerRole (state_Id serverState) version ∅ ∅) roles) as Hins.
    destruct (roles !! state_Id serverState); simpl in Hins; lia.
  - intros id r [[_ <-]|[_ ?]]%lookup_insert_Some; [done|by eapply Hfresh].
Qed.

Lemma emits_deleteOldRoles `{Jsonpb} roles minVersion entries :
  emits (writesFrom roles) (foldM (deleteOldRole minVersion) entries tt).
Proof.
  apply emits_foldM. intros [] entry _. unfold deleteOldRole.
  apply emits_bindM; [apply emits_lift|]. intros serverRole.
  destruct (role_Version serverRole <? minVersion)%Z; [|apply emits_retM].
  apply emits_bindM; [by apply emits_clientDelete|]. intros _.
  by apply emits_emit.
Qed.

Lemma collectRoles_trace `{MapOrder} `{Jsonpb} roles a st minVersion w :
  ∃ events,
    trace (collectRoles a st minVersion w).2
      = trace w ++ events
    ∧ Forall (writesFrom roles) events
    ∧ oldRoles (collectRoles a st minVersion w).1.2 = oldRoles st
    ∧ version (collectRoles a st minVersion w).1.2 = version st.
Proof.
  unfold collectRoles. destruct (oldMinVersion st <? minVersion)%Z.
  2: { exists []. by rewrite app_nil_r. }
  assert (emits (writesFrom roles)
            (serverRoles <~ clientGetAll (serverRoleDir a) ;;
             foldM (deleteOldRole minVersion) (range AtDeleteRoles serverRoles) tt))
    as Hemits.
  { apply emits_bindM; [by apply emits_clientGetAll|]. intros serverRoles.
    apply emits_deleteOldRoles. }
  destruct (Hemits w) as (events & Htrace & HP).
  destruct (bindM _ _ w) as [r w']. by exists events.
Qed.

Lemma emits_publish `{MapOrderOk} `{Jsonpb} a version newServerStates newRoles :
  emits (writesFrom newRoles) (publish a version newServerStates newRoles).
Proof.
  unfold publish.
  apply emits_bindM.
  { apply emits_foldM. intros shardToAddresses [id serverRole] Hin%elem_of_range.
    unfold publishRole.
    apply emits_bindM; [apply emits_lift|]. intros encodedServerRole.
    apply emits_bindM; [by apply emits_clientSet|]. intros _.
    apply emits_bindM; [apply emits_emit; intros r [= <-]; eauto|]. intros _.
    apply emits_bindM; [apply emits_lift|]. intros withMasters. apply emits_lift. }
  intros shardToAddresses.
  apply emits_bindM; [apply emits_lift|]. intros encodedAddresses.
  apply emits_bindM; [by apply emits_clientSet|]. intros _.
  by apply emits_emit.
Qed.

Lemma goodAssignment_empty : goodAssignment ∅.
Proof. split; intros ?; intros; by rewrite lookup_empty in *. Qed.

(** What one invocation of the callback does: the [ServerRole]s it writes
    all come from one good assignment, and the remembered assignment is
    either kept or replaced by that one. *)
Lemma assignRolesCallback_outcome `{MapOrderOk} `{Jsonpb} a st encodedServerStates w :
  ∃ events roles,
    trace (assignRolesCallback a st encodedServerStates w).2 = trace w ++ events
    ∧ Forall (writesFrom roles) events
    ∧ goodAssignment roles
    ∧ (oldRoles (assignRolesCallback a st encodedServerStates w).1.2 = oldRoles st
       ∨ oldRoles (assignRolesCallback a st encodedServerStates w).1.2 = roles).
Proof.
  assert (∃ events roles,
            trace w = trace w ++ events ∧ Forall (writesFrom roles) events
            ∧ goodAssignment roles ∧ (oldRoles st = oldRoles st ∨ oldRoles st = roles))
    as Hidle.
  { exists [], ∅. rewrite app_nil_r. split_and!; [done|done|apply goodAssignment_empty|by left]. }
  unfold assignRolesCallback.
  destruct (len encodedServerStates =? 0); [done|].
  destruct (budgets a (len encodedServerStates)) as [budget|e] eqn:Hbudget; [|done].
  destruct (foldResult _ _ _) as [[[newServerStates newRoles] shardLocations]|e]
    eqn:Hdecode; [|done].
  apply decodeServerStates_fresh in Hdecode as [Hfresh Hsize];
    [|intros ??; by rewrite lookup_empty].
  rewrite map_size_empty, length_range in Hsize.
  set (minVersion := minVersionOf _).
  destruct (place (collectRoles a st minVersion w).1.2 a shardLocations
              newServerStates newRoles budget)
    as [[[newRoles' newMasters] newReplicas]|] eqn:Hplace.
  - apply (place_good _ _ _ _ _ (len encodedServerStates)) in Hplace as Hgood;
      [|done|unfold len; lia|done].
    destruct (collectRoles_trace newRoles' a st minVersion w)
      as (events1 & Htrace1 & HP1 & Hold1 & _).
    destruct (collectRoles a st minVersion w) as [[collected st1] w1].
    simpl in *. rewrite Hplace.
    destruct collected as [[]|e]; [|by exists events1, newRoles'; eauto].
    destruct (sameServers _ _); [by exists events1, newRoles'; eauto|].
    destruct (emits_publish a (version st1) newServerStates newRoles' w1)
      as (events2 & Htrace2 & HP2).
    destruct (publish a (version st1) newServerStates newRoles' w1) as [[[]|e] w2];
      simpl in *; exists (events1 ++ events2), newRoles';
      rewrite Htrace2, Htrace1, app_assoc;
      (split_and!; [done|by apply Forall_app|done|eauto]).
  - destruct (collectRoles_trace ∅ a st minVersion w)
      as (events1 & Htrace1 & HP1 & Hold1 & _).
    destruct (collectRoles a st minVersion w) as [[collected st1] w1].
    simpl in *. rewrite Hplace.
    exists events1, ∅.
    destruct collected as [[]|e]; [|by auto using goodAssignment_empty].
    destruct (sameServers _ _); by auto using goodAssignment_empty.
Qed.

Lemma storedOrder_ok : @MapOrderOk storedOrder.
Proof. intros A s l. reflexivity. Defined.

Lemma elem_of_writesFrom roles events r :
  Forall (writesFrom roles) events → ELogSetServerRole r ∈ events →
  ∃ id, roles !! id = Some r.
Proof.
  intros Hall Hin. rewrite Forall_forall in Hall. by apply (Hall _ Hin).
Qed.

(** C1.  Every assignment the [AssignRoles] callback publishes is balanced:
    among the [ServerRole]s written by one invocation, and among all servers
    of the assignment the callback remembers as published, the numbers of
    master shards of any two servers differ by at most one, and so do the
    numbers of replica shards, whether or not [swapReplica] was used. *)
Theorem assignRoles_balanced `{MapOrderOk} `{Jsonpb} a st encodedServerStates w
    res st' w' :
  assignRolesCallback a st encodedServerStates w = (res, st', w') →
  ∃ events,
    trace w' = trace w ++ events
    ∧ (∀ r1 r2,
         ELogSetServerRole r1 ∈ events → ELogSetServerRole r2 ∈ events →
         (size (role_Masters r1) ≤ size (role_Masters r2) + 1)%nat
         ∧ (size (role_Replicas r1) ≤ size (role_Replicas r2) + 1)%nat)
    ∧ (oldRoles st' ≠ oldRoles st →
       balanced role_Masters (oldRoles st') ∧ balanced role_Replicas (oldRoles st')).
Proof.
  intros Hrun.
  destruct (assignRolesCallback_outcome a st encodedServerStates w)
    as (events & roles & Htrace & Hwrites & [Hm Hr _] & Hold).
  rewrite Hrun in Htrace, Hold. simpl in Htrace, Hold.
  exists events. split; [done|]. split.
  - intros r1 r2 [id1 Hid1]%(elem_of_writesFrom roles) [id2 Hid2]%(elem_of_writesFrom roles);
      [|done..].
    split; [by eapply Hm|by eapply Hr].
  - intros Hnew. destruct Hold as [?| ->]; done.
Qed.

(** C2.  No server is master and replica of one shard: in the [ServerRole]s
    an invocation of the [AssignRoles] callback writes and in the assignment
    it remembers as published; and [assignMaster], [assignReplica] and
    [swapReplica] each preserve this. *)
Theorem assignRoles_disjoint `{MapOrderOk} `{Jsonpb} :
  (∀ a st encodedServerStates w res st' w',
     assignRolesCallback a st encodedServerStates w = (res, st', w') →
     ∃ events,
       trace w' = trace w ++ events
       ∧ (∀ r shard, ELogSetServerRole r ∈ events →
            ¬ (holds (role_Masters r) shard ∧ holds (role_Replicas r) shard))
       ∧ (oldRoles st' ≠ oldRoles st → disjointRoles (oldRoles st')))
  ∧ (∀ roles masters id shard perServer remainder,
       disjointRoles roles →
       disjointRoles (assignMaster roles masters id shard perServer remainder).2.1.1)
  ∧ (∀ roles masters replicas id shard perServer remainder,
       disjointRoles roles →
       disjointRoles
         (assignReplica roles masters replicas id shard perServer remainder).2.1.1)
  ∧ (∀ from roles masters replicas id shard perServer,
       disjointRoles roles →
       disjointRoles (swapReplica from roles masters replicas id shard perServer).2.1).
Proof.
  split_and!.
  - intros a st encodedServerStates w res st' w' Hrun.
    destruct (assignRolesCallback_outcome a st encodedServerStates w)
      as (events & roles & Htrace & Hwrites & [_ _ Hd] & Hold).
    rewrite Hrun in Htrace, Hold. simpl in Htrace, Hold.
    exists events. split; [done|]. split.
    + intros r shard [id Hid]%(elem_of_writesFrom roles); [|done]. by eapply Hd.
    + intros Hnew. destruct Hold as [?| ->]; done.
  - apply assignMaster_disjoint.
  - apply assignReplica_disjoint.
  - intros. by apply swapReplica_disjoint.
Qed.

(** C3.  [assignMaster] returns [true] exactly when [id] is a known server
    that does not hold [shard] as master or replica and has fewer than
    [masterRolesPerServer] masters, or exactly that many while the remainder
    is positive; it then records [id] as master of [shard] and, in the second
    case, takes one off the remainder.  Otherwise it returns [false] and
    changes nothing.  [assignReplica] does the same with the replica budget. *)
Theorem assign_admission :
  (∀ serverRoles masters id shard perServer remainder,
     let '(ok, (serverRoles', masters', remainder')) :=
       assignMaster serverRoles masters id shard perServer remainder in
     (ok = true ↔
        ∃ serverRole, serverRoles !! id = Some serverRole
          ∧ hasShard serverRole shard = false
          ∧ (len (role_Masters serverRole) < perServer
             ∨ (len (role_Masters serverRole) = perServer ∧ 0 < remainder)))
     ∧ (ok = true →
        ∃ serverRole, serverRoles !! id = Some serverRole
          ∧ serverRoles' =
              <[id := setMasters serverRole
                        (<[shard := true]> (role_Masters serverRole))]> serverRoles
          ∧ masters' = <[shard := id]> masters
          ∧ remainder' =
              (if decide (len (role_Masters serverRole) = perServer)
               then remainder - 1 else remainder))
     ∧ (ok = false →
        serverRoles' = serverRoles ∧ masters' = masters ∧ remainder' = remainder))
  ∧ (∀ serverRoles masters replicas id shard perServer remainder,
     let '(ok, (serverRoles', replicas', remainder')) :=
       assignReplica serverRoles masters replicas id shard perServer remainder in
     (ok = true ↔
        ∃ serverRole, serverRoles !! id = Some serverRole
          ∧ hasShard serverRole shard = false
          ∧ (len (role_Replicas serverRole) < perServer
             ∨ (len (role_Replicas serverRole) = perServer ∧ 0 < remainder)))
     ∧ (ok = true →
        ∃ serverRole, serverRoles !! id = Some serverRole
          ∧ serverRoles' =
              <[id := setReplicas serverRole
                        (<[shard := true]> (role_Replicas serverRole))]> serverRoles
          ∧ replicas' = <[shard := getl replicas shard ++ [id]]> replicas
          ∧ remainder' =
              (if decide (len (role_Replicas serverRole) = perServer)
               then remainder - 1 else remainder))
     ∧ (ok = false →
        serverRoles' = serverRoles ∧ replicas' = replicas ∧ remainder' = remainder)).
Proof.
  split.
  - intros serverRoles masters id shard perServer remainder.
    destruct (assignMaster_cases serverRoles masters id shard perServer remainder)
      as [[-> Hrefuse]|(serverRole & Hid & Haccept & ->)].
    + split_and!; [|done|done]. split; [done|].
      intros (serverRole & Hid & Hfree & Hroom). by destruct (Hrefuse _ Hid).
    + split_and!; [|by eauto|done]. split; [|done]. intros _.
      exists serverRole. by destruct Haccept.
  - intros serverRoles masters replicas id shard perServer remainder.
    destruct (assignReplica_cases serverRoles masters replicas id shard perServer remainder)
      as [[-> Hrefuse]|(serverRole & Hid & Haccept & ->)].
    + split_and!; [|done|done]. split; [done|].
      intros (serverRole & Hid & Hfree & Hroom). by destruct (Hrefuse _ Hid).
    + split_and!; [|by eauto|done]. split; [|done]. intros _.
      exists serverRole. by destruct Haccept.
Qed.

(** The example cluster publishes version 0: two masters and two replicas
    for each of [A] and [B]. *)
Example exampleRun_published :
  (λ r, (role_Id r, map_to_list (role_Masters r), map_to_list (role_Replicas r)))
    <$> (map_to_list (oldRoles exampleRun.1.2)).*2
  = [("A", [(1, true); (0, true)], [(2, true); (3, true)]);
     ("B", [(2, true); (3, true)], [(1, true); (0, true)])].
Proof. vm_compute. reflexivity. Qed.

(** With three servers the last replica cannot be placed directly, and
    [swapReplica] places it by an exchange between [B] and [C]. *)
Example swapReplica_example :
  tryAssignReplica ["C"; "A"; "B"] exampleDeadlock ∅ ∅ 2 1 0 = None
  ∧ (swapReplica (H := storedOrder) (AtSwap 0 2) exampleDeadlock ∅ ∅ "B" 2 1).1 = true
  ∧ (λ r, (role_Id r, map_to_list (role_Masters r), map_to_list (role_Replicas r)))
      <$> (map_to_list (oldRoles exampleSwapRun.1.2)).*2
    = [("C", [(0, true)], [(2, true)]);
       ("A", [(1, true)], [(0, true)]);
       ("B", [(2, true)], [(1, true)])].
Proof. split_and!; vm_compute; reflexivity. Qed.

Lemma assignRoles_balanced_witness :
  ∃ events,
    trace exampleSwapRun.2 = trace emptyWorld ++ events
    ∧ (∀ r1 r2,
         ELogSetServerRole r1 ∈ events → ELogSetServerRole r2 ∈ events →
         (size (role_Masters r1) ≤ size (role_Masters r2) + 1)%nat
         ∧ (size (role_Replicas r1) ≤ size (role_Replicas r2) + 1)%nat)
    ∧ (oldRoles exampleSwapRun.1.2 ≠ oldRoles newAssigner →
       balanced role_Masters (oldRoles exampleSwapRun.1.2)
       ∧ balanced role_Replicas (oldRoles exampleSwapRun.1.2)).
Proof.
  apply (assignRoles_balanced (H0 := storedOrder_ok) (H1 := exampleJsonpb)
           (newDiscoveryAddresser (mkSharder 3 1) "test") newAssigner
           {[ "test/pfs/server/state/A" := "stateA";
              "test/pfs/server/state/B" := "stateB";
              "test/pfs/server/state/C" := "stateC" ]}
           emptyWorld
           exampleSwapRun.1.1 exampleSwapRun.1.2 exampleSwapRun.2).
  vm_compute. reflexivity.
Defined.

Lemma assignRoles_disjoint_witness :
  ∃ events,
    trace exampleRun.2 = trace emptyWorld ++ events
    ∧ (∀ r shard, ELogSetServerRole r ∈ events →
         ¬ (holds (role_Masters r) shard ∧ holds (role_Replicas r) shard))
    ∧ (oldRoles exampleRun.1.2 ≠ oldRoles newAssigner →
       disjointRoles (oldRoles exampleRun.1.2)).
Proof.
  apply (proj1 (assignRoles_disjoint (H0 := storedOrder_ok) (H1 := exampleJsonpb))
           exampleAddresser newAssigner exampleSnapshot emptyWorld
           exampleRun.1.1 exampleRun.1.2 exampleRun.2).
  vm_compute. reflexivity.
Defined.

(** C9.  On an empty snapshot the [AssignRoles] callback returns at once
    with no error: the world (store and trace) and the remembered state are
    what they were.  The budget divisions, which would panic on the zero
    server count of that snapshot, come after the guard, and on every other
    snapshot their divisor is not zero. *)
Theorem assignRoles_empty_snapshot `{MapOrder} `{Jsonpb} a st w :
  assignRolesCallback a st ∅ w = (Ok 0, st, w)
  ∧ budgets a (len (∅ : gmap string string)) = Err PanicDivideByZero
  ∧ (∀ encodedServerStates : gmap string string,
       encodedServerStates ≠ ∅ →
       ∃ budget, budgets a (len encodedServerStates) = Ok budget).
Proof.
  split_and!.
  - unfold assignRolesCallback, len. by rewrite map_size_empty.
  - unfold len. by rewrite map_size_empty.
  - intros encodedServerStates Hne%map_size_non_empty_iff.
    unfold budgets, goDiv, goMod, len.
    destruct (N.eqb_spec (N.of_nat (size encodedServerStates)) 0); [lia|eauto].
Qed.

(** ** [Version] *)

Lemma foldVersion_spec `{Jsonpb} entries minVersion :
  (∀ entry, entry ∈ entries → ∃ serverState, unmarshalServerState entry.2 = Ok serverState) →
  ∃ v,
    foldResult versionStep entries minVersion = Ok v
    ∧ (v ≤ minVersion)%Z
    ∧ (∀ entry serverState,
         entry ∈ entries → unmarshalServerState entry.2 = Ok serverState →
         (v ≤ state_Version serverState)%Z)
    ∧ (v = minVersion
       ∨ ∃ entry serverState,
           entry ∈ entries ∧ unmarshalServerState entry.2 = Ok serverState
           ∧ state_Version serverState = v).
Proof.
  revert minVersion.
  induction entries as [|entry entries IH]; intros minVersion Hdecode; simpl.
  { exists minVersion. split_and!; [done|lia| |by left]. by intros ?? ?%elem_of_nil. }
  destruct (Hdecode entry) as [serverState Hentry]; [by left|].
  unfold versionStep at 1. rewrite Hentry.
  destruct (IH (if (state_Version serverState <? minVersion)%Z
                then state_Version serverState else minVersion))
    as (v & -> & Hle & Hall & Hfrom).
  { intros e He. apply Hdecode. by right. }
  exists v. split; [done|].
  destruct (Z.ltb_spec (state_Version serverState) minVersion).
  - split_and!; [lia| |].
    + intros e s [->|He]%elem_of_cons Hs; [|by eapply Hall].
      rewrite Hentry in Hs. injection Hs as <-. lia.
    + right. destruct Hfrom as [->|(e & s & He & Hs & Hv)].
      * exists entry, serverState. split; [by left|done].
      * exists e, s. split; [by right|done].
  - split_and!; [lia| |].
    + intros e s [->|He]%elem_of_cons Hs; [|by eapply Hall].
      rewrite Hentry in Hs. injection Hs as <-. lia.
    + destruct Hfrom as [->|(e & s & He & Hs & Hv)]; [by left|].
      right. exists e, s. split; [by right|done].
Qed.

Lemma Version_result `{MapOrder} `{Jsonpb} a w :
  fails w (EGetAll (serverStateDir a)) = None →
  (Version a w).1
  = foldResult versionStep (range AtVersion (stateEntries a w)) MaxInt64.
Proof.
  intros Hok. unfold Version, clientGetAll, bindM, call, readKv, retM, lift.
  simpl. by rewrite Hok.
Qed.

(** C10.  When the store holds no [ServerState] entry, [Version] returns
    [math.MaxInt64] and no error; when it holds some, all well-formed, it
    returns the least of their versions.  (The call to the store is taken to
    succeed, and versions are [int64] values.) *)
Theorem Version_minimum `{MapOrderOk} `{Jsonpb} a w :
  fails w (EGetAll (serverStateDir a)) = None →
  (stateEntries a w = ∅ → (Version a w).1 = Ok MaxInt64)
  ∧ (stateEntries a w ≠ ∅ →
     (∀ key encoded, stateEntries a w !! key = Some encoded →
        ∃ serverState, unmarshalServerState encoded = Ok serverState
                       ∧ (state_Version serverState ≤ MaxInt64)%Z) →
     ∃ v,
       (Version a w).1 = Ok v
       ∧ (∃ key encoded serverState,
            stateEntries a w !! key = Some encoded
            ∧ unmarshalServerState encoded = Ok serverState
            ∧ state_Version serverState = v)
       ∧ (∀ key encoded serverState,
            stateEntries a w !! key = Some encoded →
            unmarshalServerState encoded = Ok serverState →
            (v ≤ state_Version serverState)%Z)).
Proof.
  intros Hok. rewrite (Version_result a w Hok). split.
  - intros ->.
    pose proof (length_range AtVersion (∅ : gmap string string)) as Hlen.
    rewrite map_size_empty in Hlen. apply nil_length_inv in Hlen.
    by rewrite Hlen.
  - intros Hne Hdecode.
    destruct (foldVersion_spec (range AtVersion (stateEntries a w)) MaxInt64)
      as (v & Hv & _ & Hall & Hfrom).
    { intros [key encoded] Hin%elem_of_range.
      destruct (Hdecode key encoded Hin) as (serverState & ? & _). eauto. }
    exists v. split; [done|]. split.
    + destruct Hfrom as [->|([key encoded] & serverState & Hin%elem_of_range & Hs & Hversion)];
        [|by eauto 10].
      apply map_choose in Hne as (key & encoded & Hin).
      destruct (Hdecode key encoded Hin) as (serverState & Hs & Hmax).
      exists key, encoded, serverState. split_and!; [done..|].
      pose proof (Hall (key, encoded) serverState) as Hle.
      rewrite elem_of_range in Hle. specialize (Hle Hin Hs). lia.
    + intros key encoded serverState Hin Hs.
      apply (Hall (key, encoded)); [by apply elem_of_range|done].
Qed.

Example Version_exampleWorld :
  (Version (H := storedOrder) (H0 := exampleJsonpb) exampleAddresser exampleWorld).1 = Ok 3%Z
  ∧ (Version (H := storedOrder) (H0 := exampleJsonpb) exampleAddresser emptyWorld).1
    = Ok 9223372036854775807%Z.
Proof. split; vm_compute; reflexivity. Qed.

Lemma exampleWorld_stateEntries key encoded :
  stateEntries exampleAddresser exampleWorld !! key = Some encoded →
  (key, encoded) ∈ [("test/pfs/server/state/A", "stateA3");
                    ("test/pfs/server/state/B", "stateB5")].
Proof.
  intros Hin%elem_of_map_to_list.
  assert (map_to_list (stateEntries exampleAddresser exampleWorld)
          = [("test/pfs/server/state/A", "stateA3");
             ("test/pfs/server/state/B", "stateB5")]) as Hentries
    by (vm_compute; reflexivity).
  by rewrite Hentries in Hin.
Qed.

Lemma Version_minimum_witness :
  (Version (H := storedOrder) (H0 := exampleJsonpb) exampleAddresser emptyWorld).1
  = Ok MaxInt64
  ∧ ∃ v,
      (Version (H := storedOrder) (H0 := exampleJsonpb) exampleAddresser exampleWorld).1
      = Ok v
      ∧ (∃ key encoded serverState,
           stateEntries exampleAddresser exampleWorld !! key = Some encoded
           ∧ unmarshalServerState (Jsonpb := exampleJsonpb) encoded = Ok serverState
           ∧ state_Version serverState = v)
      ∧ (∀ key encoded serverState,
           stateEntries exampleAddresser exampleWorld !! key = Some encoded →
           unmarshalServerState (Jsonpb := exampleJsonpb) encoded = Ok serverState →
           (v ≤ state_Version serverState)%Z).
Proof.
  split.
  - apply (proj1 (Version_minimum (H0 := storedOrder_ok) (H1 := exampleJsonpb)
                    exampleAddresser emptyWorld eq_refl)).
    vm_compute. reflexivity.
  - apply (proj2 (Version_minimum (H0 := storedOrder_ok) (H1 := exampleJsonpb)
                    exampleAddresser exampleWorld eq_refl)).
    + assert (stateEntries exampleAddresser exampleWorld !! "test/pfs/server/state/A"
              = Some "stateA3") as Hentry by (vm_compute; reflexivity).
      intros Hempty. rewrite Hempty, lookup_empty in Hentry. discriminate Hentry.
    + intros key encoded Hin%exampleWorld_stateEntries.
      apply elem_of_cons in Hin as [[= -> ->]|Hin];
        [exists (mkServerState "A" "hostA:650" 3 ∅);
         split; [vm_compute; reflexivity|vm_compute; discriminate]|].
      apply elem_of_cons in Hin as [[= -> ->]|Hin];
        [exists (mkServerState "B" "hostB:650" 5 ∅);
         split; [vm_compute; reflexivity|vm_compute; discriminate]|].
      by apply elem_of_nil in Hin.
Defined.

(** ** The resolver *)

Lemma getAddresses_uncached `{Jsonpb} a version w :
  addresses a !! version = None →
  fails w (EGet (addressesKey a version)) = None →
  getAddresses a version w
  = (unmarshalAddresses (default "" (kv w !! addressesKey a version)),
     mkWorld (kv w) (fails w) (trace w ++ [EGet (addressesKey a version)])).
Proof.
  intros Hmiss Hok.
  unfold getAddresses, clientGet, bindM, call, readKv, retM, lift.
  rewrite Hmiss. simpl. by rewrite Hok.
Qed.

(** C5.  For a version that is neither cached nor stored, [getAddresses]
    does not report the missing version: it hands the absent value (the
    empty string) to the decoder and returns the decoder's verdict.  So the
    four lookups return an error only if the decoder rejects the empty
    string, and then it is the decoder's error; if the decoder accepts it
    they succeed on the decoded value. *)
Theorem getAddresses_missing_version `{Jsonpb} a shard version w :
  addresses a !! version = None →
  kv w !! addressesKey a version = None →
  fails w (EGet (addressesKey a version)) = None →
  (getAddresses a version w).1 = unmarshalAddresses ""
  ∧ (∀ decoded, unmarshalAddresses "" = Ok decoded →
       (GetMasterAddress a shard version w).1
       = Ok (match addr_Addresses decoded !! shard with
             | Some shardAddresses => (sa_Master shardAddresses, true)
             | None => ("", false)
             end)
       ∧ (GetShardToMasterAddress a version w).1
         = Ok (sa_Master <$> addr_Addresses decoded)
       ∧ (GetShardToReplicaAddresses a version w).1
         = Ok (sa_Replicas <$> addr_Addresses decoded)
       ∧ (GetReplicaAddresses a shard version w).1
         = match addr_Addresses decoded !! shard with
           | Some shardAddresses => Ok (sa_Replicas shardAddresses)
           | None => Err (ErrShardNotFound shard)
           end)
  ∧ (∀ e, unmarshalAddresses "" = Err e →
       (GetMasterAddress a shard version w).1 = Err e
       ∧ (GetReplicaAddresses a shard version w).1 = Err e
       ∧ (GetShardToMasterAddress a version w).1 = Err e
       ∧ (GetShardToReplicaAddresses a version w).1 = Err e).
Proof.
  intros Hmiss Hstore Hok.
  pose proof (getAddresses_uncached a version w Hmiss Hok) as Hget.
  rewrite Hstore in Hget. simpl in Hget.
  unfold GetMasterAddress, GetReplicaAddresses, GetShardToMasterAddress,
    GetShardToReplicaAddresses, bindM.
  rewrite Hget. split; [done|]. split.
  - intros decoded ->. split_and!; try done;
      by destruct (addr_Addresses decoded !! shard).
  - by intros e ->.
Qed.

Lemma getAddresses_missing_version_witness :
  (getAddresses (H := exampleJsonpb) exampleAddresser 7 emptyWorld).1
  = unmarshalAddresses (Jsonpb := exampleJsonpb) "".
Proof.
  apply (getAddresses_missing_version (H := exampleJsonpb)
           exampleAddresser 0 7 emptyWorld); reflexivity.
Defined.

(** C6.  The version cache is never filled: when a query has missed the
    cache and succeeded, the same query asked again calls [Get] on the
    discovery store again. *)
Theorem getAddresses_never_caches `{Jsonpb} a shard version w found w1 :
  addresses a !! version = None →
  GetMasterAddress a shard version w = (Ok found, w1) →
  trace (GetMasterAddress a shard version w1).2
  = trace w1 ++ [EGet (addressesKey a version)].
Proof.
  intros Hmiss _.
  unfold GetMasterAddress, getAddresses, clientGet, bindM, call, readKv, retM, lift.
  rewrite Hmiss. simpl.
  destruct (fails w1 _); [done|]. simpl.
  destruct (unmarshalAddresses _) as [decoded|e]; [|done].
  by destruct (addr_Addresses decoded !! shard).
Qed.

Lemma getAddresses_never_caches_witness :
  trace (GetMasterAddress (H := exampleJsonpb) exampleAddresser 0 0
           (GetMasterAddress (H := exampleJsonpb) exampleAddresser 0 0 exampleWorld).2).2
  = [EGet "test/pfs/roles/0"; EGet "test/pfs/roles/0"].
Proof.
  apply (getAddresses_never_caches (H := exampleJsonpb) exampleAddresser 0 0
           exampleWorld ("hostA:650", true)
           (GetMasterAddress (H := exampleJsonpb) exampleAddresser 0 0 exampleWorld).2);
    reflexivity.
Defined.

(** C7 as stated does not hold: version 0 is in the store and has no entry
    for shard 7, and [GetMasterAddress] returns no error. *)
Lemma GetMasterAddress_missing_shard_no_error :
  kv exampleWorld !! addressesKey exampleAddresser 0 = Some "addresses0"
  ∧ (∃ decoded, unmarshalAddresses (Jsonpb := exampleJsonpb) "addresses0" = Ok decoded
                ∧ addr_Addresses decoded !! 7 = None)
  ∧ (GetMasterAddress (H := exampleJsonpb) exampleAddresser 7 0 exampleWorld).1
    = Ok ("", false)
  ∧ ¬ (∃ e, (GetMasterAddress (H := exampleJsonpb) exampleAddresser 7 0 exampleWorld).1
            = Err e).
Proof.
  assert ((GetMasterAddress (H := exampleJsonpb) exampleAddresser 7 0 exampleWorld).1
          = Ok ("", false)) as Hresult by (vm_compute; reflexivity).
  split_and!.
  - vm_compute. reflexivity.
  - eexists. split; vm_compute; reflexivity.
  - exact Hresult.
  - intros [e He]. rewrite Hresult in He. discriminate He.
Qed.

(** C7, amended.  For a version whose addresses are found (cached or
    stored) and a shard that has no entry in them, [GetMasterAddress] returns
    the empty address with [ok = false] and no error, while
    [GetReplicaAddresses] returns the error "shard not found". *)
Theorem missing_shard_lookup `{Jsonpb} a shard version w found w1 :
  getAddresses a version w = (Ok found, w1) →
  addr_Addresses found !! shard = None →
  GetMasterAddress a shard version w = (Ok ("", false), w1)
  ∧ GetReplicaAddresses a shard version w = (Err (ErrShardNotFound shard), w1).
Proof.
  intros Hget Hshard. unfold GetMasterAddress, GetReplicaAddresses, bindM.
  by rewrite Hget, Hshard.
Qed.

Lemma missing_shard_lookup_witness :
  (GetMasterAddress (H := exampleJsonpb) exampleAddresser 7 0 exampleWorld).1
  = Ok ("", false)
  ∧ (GetReplicaAddresses (H := exampleJsonpb) exampleAddresser 7 0 exampleWorld).1
    = Err (ErrShardNotFound 7).
Proof.
  destruct (missing_shard_lookup (H := exampleJsonpb) exampleAddresser 7 0 exampleWorld
              (mkAddresses 0 {[0 := mkShardAddresses "hostA:650" {["hostB:650" := true]}]})
              (getAddresses (H := exampleJsonpb) exampleAddresser 0 exampleWorld).2)
    as [-> ->]; [vm_compute; reflexivity|reflexivity|].
  split; reflexivity.
Defined.

(** ** The callback of [fillRoles] *)

Lemma sentVersions_app events1 events2 :
  sentVersions (events1 ++ events2) = sentVersions events1 ++ sentVersions events2.
Proof. apply omap_app. Qed.

Lemma sentVersions_addShards (shards : list N) : sentVersions (EAddShard <$> shards) = [].
Proof. by induction shards. Qed.

Lemma containsShard_false `{MapOrderOk} roles shard version serverRole :
  containsShard roles shard = false → roles !! version = Some serverRole →
  hasShard serverRole shard = false.
Proof.
  unfold containsShard. intros Hnone Hin.
  apply (elem_of_range (AtContainsShard shard)) in Hin.
  destruct (hasShard serverRole shard) eqn:Hhas; [|done].
  assert (existsb (λ entry, getb (role_Masters entry.2) shard
                            || getb (role_Replicas entry.2) shard)
            (range (AtContainsShard shard) roles) = true) as Hsome; [|congruence].
  apply existsb_exists. exists (version, serverRole).
  split; [by apply list_elem_of_In|done].
Qed.

Lemma applyVersions_trace `{MapOrder} roles versions oldRoles w :
  StronglySorted Z.le versions →
  ∃ applied,
    trace (applyVersions roles versions oldRoles w).2 = trace w ++ applied
    ∧ Forall isApply applied
    ∧ StronglySorted Z.lt (sentVersions applied)
    ∧ (∀ v, v ∈ sentVersions applied → v ∈ versions ∧ oldRoles !! v = None).
Proof.
  revert oldRoles w.
  induction versions as [|version rest IH]; intros oldRoles w Hsorted; simpl.
  { exists []. rewrite app_nil_r. split_and!; [done|done|constructor|].
    by intros v ?%elem_of_nil. }
  apply StronglySorted_inv in Hsorted as [Hrest Hleast].
  rewrite Forall_forall in Hleast.
  destruct (oldRoles !! version) as [known|] eqn:Hknown.
  { destruct (IH oldRoles w Hrest) as (applied & Htrace & Happly & Hsent & Hfrom).
    exists applied. split_and!; [done..|].
    intros v [? ?]%Hfrom. split; [by right|done]. }
  set (serverRole := default _ (roles !! version)).
  set (adds := EAddShard <$> _).
  unfold parallel, logged. simpl.
  destruct (head (omap _ _)) as [e|].
  { simpl. exists (ELogAddServerRole serverRole :: adds).
    rewrite <- app_assoc. split_and!; [done| | |].
    - constructor; [done|]. apply Forall_fmap, Forall_true. done.
    - unfold sentVersions. simpl. fold (sentVersions adds). unfold adds.
      rewrite sentVersions_addShards. constructor.
    - unfold sentVersions. simpl. fold (sentVersions adds). unfold adds.
      rewrite sentVersions_addShards. by intros v ?%elem_of_nil. }
  match goal with |- context [applyVersions roles rest ?o ?w1] =>
    destruct (IH o w1 Hrest) as (applied & Htrace & Happly & Hsent & Hfrom) end.
  exists (ELogAddServerRole serverRole :: adds ++ ESendVersion version :: applied).
  assert (sentVersions (ELogAddServerRole serverRole :: adds
                          ++ ESendVersion version :: applied)
          = version :: sentVersions applied) as Hsends.
  { change (sentVersions (adds ++ ESendVersion version :: applied)
            = version :: sentVersions applied).
    rewrite sentVersions_app. unfold adds. by rewrite sentVersions_addShards. }
  rewrite Hsends. split_and!.
  - rewrite Htrace. simpl. by rewrite <- !app_assoc.
  - constructor; [done|]. apply Forall_app. split.
    + apply Forall_fmap, Forall_true. done.
    + by constructor.
  - constructor; [done|]. apply Forall_forall. intros v [Hin Hnew]%Hfrom.
    specialize (Hleast v Hin).
    rewrite lookup_insert_None in Hnew. destruct Hnew as [_ Hne]. lia.
  - intros v [->|[Hin Hnew]%Hfrom]%elem_of_cons; [split; [by left|done]|].
    rewrite lookup_insert_None in Hnew. split; [by right|by destruct Hnew].
Qed.

Lemma expiredRole_removals `{MapOrderOk} roles entries :
  Forall (isRemoval roles) (concat (expiredRole roles <$> entries)).
Proof.
  induction entries as [|entry entries IH]; simpl; [constructor|].
  apply Forall_app. split; [|done].
  unfold expiredRole. destruct (roles !! entry.1); [constructor|].
  constructor; [done|].
  apply Forall_fmap, Forall_forall. intros shard [Hnone _]%list_elem_of_filter.
  simpl. intros version serverRole Hin. by eapply containsShard_false.
Qed.

(** The decoded versions are the keys of the decoded roles, and each role is
    filed under its own version. *)
Lemma decodeServerRole_versions `{Jsonpb} entries roles versions :
  foldResult decodeServerRole entries (∅, []) = Ok (roles, versions) →
  (∀ v, v ∈ versions ↔ is_Some (roles !! v))
  ∧ ∀ v serverRole, roles !! v = Some serverRole → role_Version serverRole = v.
Proof.
  assert (∀ acc,
            ((∀ v, v ∈ acc.2 ↔ is_Some (acc.1 !! v))
             ∧ ∀ v serverRole, acc.1 !! v = Some serverRole →
                 role_Version serverRole = v) →
            foldResult decodeServerRole entries acc = Ok (roles, versions) →
            (∀ v, v ∈ versions ↔ is_Some (roles !! v))
            ∧ ∀ v serverRole, roles !! v = Some serverRole →
                role_Version serverRole = v) as Hgen.
  { induction entries as [|entry entries IH]; intros acc Hacc Hfold; simpl in Hfold.
    { injection Hfold as ->. exact Hacc. }
    destruct (decodeServerRole acc entry) as [acc'|e] eqn:Hstep; [|done].
    apply (IH acc'); [|done]. unfold decodeServerRole in Hstep.
    destruct (unmarshalServerRole entry.2) as [serverRole|e]; [|done].
    injection Hstep as <-. destruct Hacc as [Hkeys Hfiled]. simpl. split.
    - intros v. rewrite elem_of_app, list_elem_of_singleton, Hkeys.
      rewrite lookup_insert_is_Some. split.
      + intros [?| ->]; [|by left]. destruct (decide (role_Version serverRole = v));
          [by left|by right].
      + intros [->|[_ ?]]; [by right|by left].
    - intros v r [[<- <-]|[_ Hin]]%lookup_insert_Some; [done|by apply Hfiled]. }
  apply Hgen. simpl. split.
  - intros v. rewrite lookup_empty. split; [by intros ?%elem_of_nil|by intros []].
  - intros v r. by rewrite lookup_empty.
Qed.

Lemma containsShard_true `{MapOrderOk} roles shard :
  containsShard roles shard = true →
  ∃ version serverRole,
    roles !! version = Some serverRole ∧ hasShard serverRole shard = true.
Proof.
  unfold containsShard. intros ([version serverRole] & Hin & Hhas)%existsb_exists.
  apply list_elem_of_In, elem_of_range in Hin. by exists version, serverRole.
Qed.

(** In a role whose maps are used as sets, a shard listed by [shards] is
    one [m[shard]] finds. *)
Lemma hasShard_of_shards `{MapOrderOk} serverRole shard :
  setLike (role_Masters serverRole) → setLike (role_Replicas serverRole) →
  shard ∈ shards serverRole → hasShard serverRole shard = true.
Proof.
  intros Hmasters Hreplicas. unfold shards, hasShard, getb.
  rewrite elem_of_app, !list_elem_of_fmap.
  intros [([shard' b] & -> & Hin%elem_of_range)
         |([shard' b] & -> & Hin%elem_of_range)]; simpl in *; rewrite Hin; simpl.
  - by rewrite (Hmasters _ _ Hin).
  - rewrite (Hreplicas _ _ Hin). apply orb_true_r.
Qed.

(** What the loop of lines 643-672 has done when it is through: every
    version it was to apply is sent, and a sent version had its role logged
    and each of its shards added, unless a role remembered or applied before
    it already held the shard. *)
Lemma applyVersions_applies `{MapOrderOk} roles versions oldRoles w :
  StronglySorted Z.le versions →
  ∃ applied,
    trace (applyVersions roles versions oldRoles w).2 = trace w ++ applied
    ∧ ((applyVersions roles versions oldRoles w).1.1 = None →
       ∀ v, v ∈ versions → oldRoles !! v = None → v ∈ sentVersions applied)
    ∧ ∀ v, v ∈ sentVersions applied →
        ELogAddServerRole (default (mkServerRole "" 0 ∅ ∅) (roles !! v)) ∈ applied
        ∧ ∀ shard,
            shard ∈ shards (default (mkServerRole "" 0 ∅ ∅) (roles !! v)) →
            EAddShard shard ∈ applied
            ∨ ∃ v' serverRole',
                hasShard serverRole' shard = true
                ∧ (oldRoles !! v' = Some serverRole'
                   ∨ (serverRole' = default (mkServerRole "" 0 ∅ ∅) (roles !! v')
                      ∧ v' ∈ sentVersions applied ∧ (v' < v)%Z)).
Proof.
  revert oldRoles w.
  induction versions as [|version rest IH]; intros oldRoles w Hsorted.
  { exists []. simpl. rewrite app_nil_r. split_and!; [done| |].
    - by intros _ v ?%elem_of_nil.
    - by intros v ?%elem_of_nil. }
  pose proof Hsorted as Hsorted'.
  apply StronglySorted_inv in Hsorted' as [Hrest Hleast].
  rewrite Forall_forall in Hleast. cbn [applyVersions].
  destruct (oldRoles !! version) as [known|] eqn:Hknown.
  { destruct (IH oldRoles w Hrest) as (applied & Htrace & Hall & Hsent).
    exists applied. split_and!; [done| |done].
    intros Hnone v [->|Hin]%elem_of_cons Hnew; [congruence|by apply Hall]. }
  set (serverRole := default _ (roles !! version)).
  set (adds := EAddShard <$> _).
  assert (sentVersions (ELogAddServerRole serverRole :: adds) = []) as Hnosend.
  { change (sentVersions adds = []). apply sentVersions_addShards. }
  unfold parallel, logged. simpl.
  destruct (head (omap _ _)) as [e|].
  { simpl. exists (ELogAddServerRole serverRole :: adds). rewrite <- app_assoc.
    split_and!; [done|done|]. rewrite Hnosend. by intros v ?%elem_of_nil. }
  match goal with |- context [applyVersions roles rest ?o ?w1] =>
    destruct (IH o w1 Hrest) as (applied & Htrace & Hall & Hsent);
    destruct (applyVersions_trace roles rest o w1 Hrest)
      as (applied' & Htrace' & _ & _ & Hfrom) end.
  rewrite Htrace in Htrace'. apply app_inv_head in Htrace'. subst applied'.
  simpl in Htrace.
  exists (ELogAddServerRole serverRole :: adds ++ ESendVersion version :: applied).
  assert (sentVersions (ELogAddServerRole serverRole :: adds
                          ++ ESendVersion version :: applied)
          = version :: sentVersions applied) as Hsends.
  { change (sentVersions (adds ++ ESendVersion version :: applied)
            = version :: sentVersions applied).
    rewrite sentVersions_app. unfold adds. by rewrite sentVersions_addShards. }
  rewrite Hsends. split_and!.
  - rewrite Htrace. simpl. by rewrite <- !app_assoc.
  - intros Hnone v [->|Hin]%elem_of_cons Hnew; [by left|].
    destruct (decide (v = version)) as [->|Hne]; [by left|]. right.
    apply Hall; [done..|]. by rewrite lookup_insert_ne.
  - intros v [->|Hin]%elem_of_cons.
    + split; [by left|]. intros shard Hshard.
      destruct (containsShard oldRoles shard) eqn:Hheld.
      * right. apply containsShard_true in Hheld as (v' & r' & Hold & Hhas).
        exists v', r'. split; [done|by left].
      * left. right. apply elem_of_app. left. apply list_elem_of_fmap.
        exists shard. split; [done|]. by apply list_elem_of_filter.
    + destruct (Hsent v Hin) as [Hlog Hshards].
      destruct (Hfrom v Hin) as [Hv Hnew].
      apply lookup_insert_None in Hnew as [Hnew Hne].
      specialize (Hleast v Hv).
      split. { right. apply elem_of_app. right. by right. }
      intros shard Hshard.
      destruct (Hshards shard Hshard)
        as [Hadd|(v' & r' & Hhas & [Hold|(-> & Hin' & Hlt)])].
      * left. right. apply elem_of_app. right. by right.
      * right. apply lookup_insert_Some in Hold as [[<- <-]|[_ Hold]].
        -- exists version, serverRole. split; [done|]. right.
           split_and!; [done|by left|lia].
        -- exists v', r'. split; [done|by left].
      * right. eexists v', _. split; [exact Hhas|]. right.
        split_and!; [done|by right|done].
Qed.

(** C4.  In one invocation of the [fillRoles] callback, on a snapshot that
    decodes to [roles]: first come the events of applying new versions, whose
    versions are sent in strictly ascending order, and only then the
    removals; and [RemoveShard] is called only for shards that no role of
    [roles], that is no still-live version, holds.  Whenever anything is
    removed (and whenever the callback returns no error), every version of
    the snapshot that was not remembered has been applied before: it is among
    the versions sent.  A version that is sent is a version of the snapshot
    that was not remembered; its role is logged and for each of its shards
    [AddShard] is called, unless a role remembered before, or applied earlier
    in this invocation under a smaller version, holds the shard.  The code
    tests a role for a shard by [m[shard]]; when the maps of the snapshot's
    roles are used as sets (every key maps to [true], as in every role the
    assigner writes), a removed shard is no key of any role of the
    snapshot. *)
Theorem fillRoles_removes_unclaimed_last `{MapOrderOk} `{Jsonpb} oldRoles
    encodedServerRoles w roles versions :
  foldResult decodeServerRole (range AtFillDecode encodedServerRoles) (∅, [])
    = Ok (roles, versions) →
  ∃ applied removed,
    trace (fillRolesCallback oldRoles encodedServerRoles w).2
      = trace w ++ applied ++ removed
    ∧ Forall isApply applied
    ∧ StronglySorted Z.lt (sentVersions applied)
    ∧ Forall (isRemoval roles) removed
    ∧ (∀ shard version serverRole,
         ERemoveShard shard ∈ applied ++ removed →
         roles !! version = Some serverRole →
         hasShard serverRole shard = false)
    ∧ (removed ≠ [] ∨ (fillRolesCallback oldRoles encodedServerRoles w).1.1 = None →
       ∀ version serverRole,
         roles !! version = Some serverRole → oldRoles !! version = None →
         version ∈ sentVersions applied)
    ∧ (∀ version,
         version ∈ sentVersions applied →
         ∃ serverRole,
           roles !! version = Some serverRole
           ∧ oldRoles !! version = None
           ∧ ELogAddServerRole serverRole ∈ applied
           ∧ ∀ shard,
               shard ∈ shards serverRole →
               EAddShard shard ∈ applied
               ∨ ∃ version' serverRole',
                   hasShard serverRole' shard = true
                   ∧ (oldRoles !! version' = Some serverRole'
                      ∨ (roles !! version' = Some serverRole'
                         ∧ version' ∈ sentVersions applied
                         ∧ (version' < version)%Z)))
    ∧ ((∀ version serverRole,
          roles !! version = Some serverRole →
          setLike (role_Masters serverRole) ∧ setLike (role_Replicas serverRole)) →
       ∀ shard version serverRole,
         ERemoveShard shard ∈ applied ++ removed →
         roles !! version = Some serverRole →
         shard ∉ shards serverRole).
Proof.
  intros Hdecode. unfold fillRolesCallback. rewrite Hdecode.
  apply decodeServerRole_versions in Hdecode as [Hkeys _].
  destruct (applyVersions_trace roles (merge_sort Z.le versions) oldRoles w)
    as (applied & Htrace & Happly & Hsent & Hfrom).
  { apply (StronglySorted_merge_sort Z.le). }
  destruct (applyVersions_applies roles (merge_sort Z.le versions) oldRoles w)
    as (applied' & Htrace' & Hall & Hdone).
  { apply (StronglySorted_merge_sort Z.le). }
  rewrite Htrace in Htrace'. apply app_inv_head in Htrace'. subst applied'.
  assert (∀ version, version ∈ sentVersions applied →
            ∃ serverRole, roles !! version = Some serverRole
                          ∧ oldRoles !! version = None) as Hnew.
  { intros version [Hin Hnone]%Hfrom. rewrite merge_sort_Permutation in Hin.
    apply Hkeys in Hin as [serverRole Hrole]. by exists serverRole. }
  assert (∀ removed shard version serverRole,
            Forall (isRemoval roles) removed →
            ERemoveShard shard ∈ applied ++ removed →
            roles !! version = Some serverRole →
            hasShard serverRole shard = false) as Honly.
  { intros removed shard version serverRole Hremoved [Hin|Hin]%elem_of_app Hrole.
    - rewrite Forall_forall in Happly. by destruct (Happly _ Hin).
    - rewrite Forall_forall in Hremoved. by apply (Hremoved _ Hin version). }
  assert (∀ removed,
            Forall (isRemoval roles) removed →
            (∀ version serverRole,
               roles !! version = Some serverRole →
               setLike (role_Masters serverRole)
               ∧ setLike (role_Replicas serverRole)) →
            ∀ shard version serverRole,
              ERemoveShard shard ∈ applied ++ removed →
              roles !! version = Some serverRole →
              shard ∉ shards serverRole) as Hnokey.
  { intros removed Hremoved Hsets shard version serverRole Hin Hrole Hshard.
    destruct (Hsets version serverRole Hrole) as [Hm Hr].
    pose proof (Honly removed shard version serverRole Hremoved Hin Hrole) as Hnone.
    by rewrite (hasShard_of_shards serverRole shard Hm Hr Hshard) in Hnone. }
  assert (∀ version,
            version ∈ sentVersions applied →
            ∃ serverRole,
              roles !! version = Some serverRole
              ∧ oldRoles !! version = None
              ∧ ELogAddServerRole serverRole ∈ applied
              ∧ ∀ shard,
                  shard ∈ shards serverRole →
                  EAddShard shard ∈ applied
                  ∨ ∃ version' serverRole',
                      hasShard serverRole' shard = true
                      ∧ (oldRoles !! version' = Some serverRole'
                         ∨ (roles !! version' = Some serverRole'
                            ∧ version' ∈ sentVersions applied
                            ∧ (version' < version)%Z))) as Hblocks.
  { intros version Hin. destruct (Hnew version Hin) as (serverRole & Hrole & Hnone).
    destruct (Hdone version Hin) as [Hlog Hshards]. rewrite Hrole in Hlog, Hshards.
    exists serverRole. split_and!; [done..|]. intros shard Hshard.
    destruct (Hshards shard Hshard)
      as [Hadd|(v' & r' & Hhas & [Hold|(-> & Hin' & Hlt)])]; [by left|right..].
    - exists v', r'. split; [done|by left].
    - destruct (Hnew v' Hin') as (r' & Hrole' & _). rewrite Hrole' in Hhas.
      exists v', r'. split; [done|]. right. by split_and!. }
  assert (∀ version serverRole,
            (applyVersions roles (merge_sort Z.le versions) oldRoles w).1.1 = None →
            roles !! version = Some serverRole → oldRoles !! version = None →
            version ∈ sentVersions applied) as Hcomplete.
  { intros version serverRole Hnone Hrole Hold. apply Hall; [done| |done].
    rewrite merge_sort_Permutation. apply Hkeys. by eexists. }
  destruct (applyVersions roles (merge_sort Z.le versions) oldRoles w)
    as [[[addShardErr|] oldRoles1] w1]; simpl in Htrace, Hcomplete.
  - exists applied, []. rewrite app_nil_r.
    split_and!; [done..|constructor| | |done|].
    + intros shard version serverRole Hin.
      apply (Honly [] shard version serverRole); [constructor|].
      by rewrite app_nil_r.
    + by intros [?|?].
    + intros Hsets shard version serverRole Hin.
      apply (Hnokey []); [constructor|done|]. by rewrite app_nil_r.
  - exists applied, (concat (expiredRole roles <$> range AtFillRemove oldRoles1)).
    pose proof (expiredRole_removals roles (range AtFillRemove oldRoles1)) as Hremoved.
    simpl. rewrite Htrace, app_assoc.
    split_and!; [done..| | |done|].
    + intros ???. by apply Honly.
    + intros _ version serverRole. by apply Hcomplete.
    + by apply Hnokey.
Qed.

Example fillRoles_example :
  sentVersions
    (trace (fillRolesCallback (H := storedOrder) (H0 := exampleJsonpb)
              exampleOldRoles exampleRoleSnapshot emptyWorld).2) = [1%Z]
  ∧ filter (λ e, serverCall e = true)
      (trace (fillRolesCallback (H := storedOrder) (H0 := exampleJsonpb)
                exampleOldRoles exampleRoleSnapshot emptyWorld).2)
    = [EAddShard 2; ERemoveShard 0].
Proof. split; vm_compute; reflexivity. Qed.

Lemma fillRoles_removes_unclaimed_last_witness :
  ∃ applied removed,
    trace (fillRolesCallback (H := storedOrder) (H0 := exampleJsonpb)
             exampleOldRoles exampleRoleSnapshot emptyWorld).2
      = trace emptyWorld ++ applied ++ removed
    ∧ Forall isApply applied
    ∧ StronglySorted Z.lt (sentVersions applied)
    ∧ Forall (isRemoval {[ 1%Z := mkServerRole "A" 1 {[1 := true]} {[2 := true]} ]}) removed
    ∧ (∀ shard version serverRole,
         ERemoveShard shard ∈ applied ++ removed →
         ({[ 1%Z := mkServerRole "A" 1 {[1 := true]} {[2 := true]} ]}
            : gmap Z ServerRole) !! version = Some serverRole →
         hasShard serverRole shard = false)
    ∧ 1%Z ∈ sentVersions applied.
Proof.
  destruct (fillRoles_removes_unclaimed_last (H0 := storedOrder_ok)
              (H1 := exampleJsonpb) exampleOldRoles exampleRoleSnapshot emptyWorld
              {[ 1%Z := mkServerRole "A" 1 {[1 := true]} {[2 := true]} ]} [1%Z])
    as (applied & removed & Htrace & Happly & Hsent & Hremoved & Honly & Hall & _);
    [vm_compute; reflexivity|].
  exists applied, removed.
  split; [exact Htrace|]. split; [exact Happly|]. split; [exact Hsent|].
  split; [exact Hremoved|]. split; [exact Honly|].
  apply (Hall (or_intror eq_refl) 1%Z (mkServerRole "A" 1 {[1 := true]} {[2 := true]}));
    reflexivity.
Defined.

(** ** The roler *)

Lemma wrapInt_small z : (- 2 ^ 63 ≤ z < 2 ^ 63)%Z → wrapInt z = z.
Proof. intros Hz. unfold wrapInt. rewrite Z.mod_small; lia. Qed.

Lemma length_filter_le {A} (P : A → Prop) `{∀ x, Decision (P x)} (l : list A) :
  (length (filter P l) ≤ length l)%nat.
Proof.
  induction l as [|x l IH]; simpl; [done|].
  rewrite filter_cons. case_decide; simpl; lia.
Qed.

Lemma foldl_counts (entries : list (Z * string)) :
  (Z.of_nat (length entries) < MaxInt64)%Z →
  ∀ address,
    foldl (λ result entry,
             <[entry.2 := wrapInt (getCount result entry.2 + 1)]> result)
          (∅ : gmap string Z) entries !! address
    = (if decide (length (filter (λ entry, entry.2 = address) entries) = 0)%nat
       then None
       else Some (Z.of_nat (length (filter (λ entry, entry.2 = address) entries)))).
Proof.
  induction entries as [|entry entries IH] using rev_ind; intros Hlen address.
  { simpl. by rewrite lookup_empty. }
  rewrite length_app in Hlen. simpl in Hlen.
  rewrite foldl_app, filter_app, length_app. simpl.
  assert (Z.of_nat (length entries) < MaxInt64)%Z as Hlen' by lia.
  pose proof (length_filter_le (λ e : Z * string, e.2 = entry.2) entries) as Hfew.
  specialize (IH Hlen'). set (counts := foldl _ _ entries) in *.
  destruct (decide (entry.2 = address)) as [<-|Hne].
  - rewrite lookup_insert_eq. unfold getCount. rewrite (IH entry.2).
    assert (length (filter (λ e : Z * string, e.2 = entry.2) [entry]) = 1)%nat as ->
      by (by rewrite filter_cons, decide_True).
    set (c := length (filter _ entries)) in *. unfold MaxInt64 in *.
    rewrite (decide_False (P := (c + 1 = 0)%nat)) by lia.
    destruct (decide (c = 0)%nat) as [->|]; simpl.
    + by rewrite wrapInt_small by lia.
    + rewrite wrapInt_small by lia. f_equal. lia.
  - rewrite lookup_insert_ne by done. rewrite (IH address).
    assert (length (filter (λ e : Z * string, e.2 = address) [entry]) = 0)%nat as ->
      by (by rewrite filter_cons, decide_False).
    by rewrite Nat.add_0_r.
Qed.

Lemma masterCounts_spec `{MapOrderOk} shardToMasterAddress address :
  (Z.of_nat (size shardToMasterAddress) < MaxInt64)%Z →
  masterCounts shardToMasterAddress !! address
  = (if decide (countOf shardToMasterAddress address = 0)%nat then None
     else Some (Z.of_nat (countOf shardToMasterAddress address))).
Proof.
  intros Hsize. unfold masterCounts, countOf.
  rewrite foldl_counts by (by rewrite length_range).
  assert (length (filter (λ entry : Z * string, entry.2 = address)
                    (range AtMasterCounts shardToMasterAddress))
          = length (filter (λ entry : Z * string, entry.2 = address)
                      (map_to_list shardToMasterAddress))) as ->; [|done].
  unfold range.
  by rewrite (range_order_perm _ AtMasterCounts (map_to_list shardToMasterAddress)).
Qed.

Lemma getCount_masterCounts `{MapOrderOk} shardToMasterAddress address :
  (Z.of_nat (size shardToMasterAddress) < MaxInt64)%Z →
  getCount (masterCounts shardToMasterAddress) address
  = Z.of_nat (countOf shardToMasterAddress address).
Proof.
  intros Hsize. unfold getCount. rewrite masterCounts_spec by done.
  case_decide as Hzero; [by rewrite Hzero|done].
Qed.

Lemma countOf_le_size shardToMasterAddress address :
  (countOf shardToMasterAddress address ≤ size shardToMasterAddress)%nat.
Proof.
  unfold countOf. rewrite <- length_map_to_list. apply length_filter_le.
Qed.

Lemma foldl_max (entries : list (string * Z)) (acc : string * Z) :
  let r := foldl (λ acc entry, if (acc.2 <? entry.2)%Z then entry else acc)
                 acc entries in
  (r = acc ∨ r ∈ entries) ∧ (acc.2 ≤ r.2)%Z ∧ ∀ entry, entry ∈ entries → (entry.2 ≤ r.2)%Z.
Proof.
  revert acc. induction entries as [|entry entries IH]; intros acc; simpl.
  { split_and!; [by left|lia|]. by intros ? ?%elem_of_nil. }
  destruct (IH (if (acc.2 <? entry.2)%Z then entry else acc)) as (Hfrom & Hge & Hall).
  destruct (Z.ltb_spec acc.2 entry.2).
  - split_and!.
    + right. destruct Hfrom as [->|?]; [by left|by right].
    + lia.
    + intros e [->|?]%elem_of_cons; [lia|by apply Hall].
  - split_and!.
    + destruct Hfrom as [->|?]; [by left|by right; right].
    + lia.
    + intros e [->|?]%elem_of_cons; [lia|by apply Hall].
Qed.

Lemma foldl_min (entries : list (string * Z)) (acc : string * Z) :
  let r := foldl (λ acc entry, if (entry.2 <? acc.2)%Z then entry else acc)
                 acc entries in
  (r.2 ≤ acc.2)%Z ∧ ∀ entry, entry ∈ entries → (r.2 ≤ entry.2)%Z.
Proof.
  revert acc. induction entries as [|entry entries IH]; intros acc; simpl.
  { split; [lia|]. by intros ? ?%elem_of_nil. }
  destruct (IH (if (entry.2 <? acc.2)%Z then entry else acc)) as (Hle & Hall).
  destruct (Z.ltb_spec entry.2 acc.2).
  - split; [lia|]. intros e [->|?]%elem_of_cons; [lia|by apply Hall].
  - split; [lia|]. intros e [->|?]%elem_of_cons; [lia|by apply Hall].
Qed.

Lemma maxCount_spec `{MapOrderOk} shardToMasterAddress :
  (Z.of_nat (size shardToMasterAddress) < MaxInt64)%Z →
  (maxCount (masterCounts shardToMasterAddress)).2
  = Z.of_nat (countOf shardToMasterAddress
                (maxCount (masterCounts shardToMasterAddress)).1)
  ∧ ∀ address,
      (countOf shardToMasterAddress address
       ≤ countOf shardToMasterAddress
           (maxCount (masterCounts shardToMasterAddress)).1)%nat.
Proof.
  intros Hsize. unfold maxCount.
  set (counts := masterCounts shardToMasterAddress).
  destruct (foldl_max (range AtMaxCount counts) ("", 0%Z)) as (Hfrom & Hge & Hall).
  set (r := foldl _ _ _) in *. simpl in Hge.
  assert (∀ address, Z.of_nat (countOf shardToMasterAddress address) ≤ r.2)%Z as Hmax.
  { intros address.
    destruct (decide (countOf shardToMasterAddress address = 0)%nat) as [->|Hpos];
      [simpl; lia|].
    apply (Hall (address, Z.of_nat (countOf shardToMasterAddress address))).
    apply elem_of_range. unfold counts. rewrite masterCounts_spec by done.
    by rewrite decide_False. }
  assert (r.2 = Z.of_nat (countOf shardToMasterAddress r.1)) as Hr.
  { destruct Hfrom as [->|Hin].
    - simpl. pose proof (Hmax "") as Hempty. simpl in Hempty. lia.
    - destruct r as [address count]. apply elem_of_range in Hin.
      unfold counts in Hin. rewrite masterCounts_spec in Hin by done.
      case_decide; [done|]. by injection Hin as <-. }
  split; [done|]. intros address. specialize (Hmax address). lia.
Qed.

Lemma randomShard_Some `{MapOrderOk} address shardToMasterAddress shard :
  randomShard address shardToMasterAddress = Some shard →
  shardToMasterAddress !! shard = Some address.
Proof.
  unfold randomShard.
  destruct (head _) as [[shard' address']|] eqn:Hhead; [|done].
  intros [= <-]. apply head_Some_elem_of in Hhead.
  apply list_elem_of_filter in Hhead as [Heq Hin%elem_of_range].
  simpl in Heq. by subst.
Qed.

Lemma claim_trace r shard stolenFrom w :
  ∃ events,
    trace (claim r shard stolenFrom w).2 = trace w ++ events
    ∧ ∀ shard', EMaster shard' ∈ events → shard' = shard.
Proof.
  unfold claim, call. simpl. destruct (fails w (EMaster shard)); simpl.
  - exists [EMaster shard]. split; [done|].
    by intros shard' [= ->]%list_elem_of_singleton.
  - exists [EMaster shard; EGoHoldMasterAddress shard (localAddress r) stolenFrom].
    rewrite <- app_assoc. split; [done|].
    intros shard' [[= ->]|[[=]|[]%elem_of_nil]%elem_of_cons]%elem_of_cons. done.
Qed.

(** C8.  One iteration of the roler's loop, on the fetched map
    [shardToMasterAddress].  If some server with masters has fewer of them
    than the local server, the iteration yields and claims nothing.  If no
    shard is open: [maxCount] names a server with the greatest master count;
    when [localCount + 1 > maxCount - 1] the iteration yields without calling
    [server.Master]; and [server.Master] is called only when
    [localCount + 1 <= maxCount - 1], for a shard mastered by that server.
    (A Go map has fewer than [math.MaxInt64] entries.) *)
Theorem runIteration_steals_to_balance `{MapOrderOk} r shardToMasterAddress w :
  (Z.of_nat (size shardToMasterAddress) < MaxInt64)%Z →
  let localCount := Z.of_nat (countOf shardToMasterAddress (localAddress r)) in
  let maxAddress := (maxCount (masterCounts shardToMasterAddress)).1 in
  let maxCount := Z.of_nat (countOf shardToMasterAddress maxAddress) in
  ((∃ address,
      0 < countOf shardToMasterAddress address
        < countOf shardToMasterAddress (localAddress r))%nat →
   runIteration r (Ok shardToMasterAddress) w = (Continue, w))
  ∧ (openShard r shardToMasterAddress = None →
     (∀ address,
        (countOf shardToMasterAddress address
         ≤ countOf shardToMasterAddress maxAddress)%nat)
     ∧ ((localCount + 1 > maxCount - 1)%Z →
        runIteration r (Ok shardToMasterAddress) w = (Continue, w))
     ∧ ∃ events,
         trace (runIteration r (Ok shardToMasterAddress) w).2 = trace w ++ events
         ∧ ∀ shard, EMaster shard ∈ events →
             (localCount + 1 ≤ maxCount - 1)%Z
             ∧ shardToMasterAddress !! shard = Some maxAddress).
Proof.
  intros Hsize localCount maxAddress maxCount'.
  pose proof (getCount_masterCounts shardToMasterAddress (localAddress r) Hsize) as Hlocal.
  destruct (maxCount_spec shardToMasterAddress Hsize) as [Hmax Hgreatest].
  pose proof (countOf_le_size shardToMasterAddress (localAddress r)) as Hfew.
  pose proof (countOf_le_size shardToMasterAddress maxAddress) as Hfew'.
  fold localCount in Hlocal. fold maxAddress in Hmax, Hgreatest. fold maxCount' in Hmax.
  unfold runIteration. rewrite Hlocal.
  split.
  - intros (address & Hpos & Hless).
    destruct (foldl_min (range AtMinCount (masterCounts shardToMasterAddress))
                ("", MaxInt64)) as [_ Hall].
    specialize (Hall (address, Z.of_nat (countOf shardToMasterAddress address))).
    rewrite elem_of_range, masterCounts_spec, decide_False in Hall by (done || lia).
    specialize (Hall eq_refl). simpl in Hall. fold (minCount (masterCounts shardToMasterAddress)) in Hall.
    destruct (Z.ltb_spec (minCount (masterCounts shardToMasterAddress)).2 localCount);
      [done|]. unfold localCount in *. lia.
  - intros ->. split; [done|].
    assert (maxCount (masterCounts shardToMasterAddress) = (maxAddress, maxCount'))
      as -> by (rewrite <- Hmax; unfold maxAddress; by destruct (maxCount _)).
    unfold MaxInt64 in Hsize.
    rewrite !wrapInt_small by (unfold maxCount', localCount; lia).
    split.
    + intros Habove. destruct (_ <? localCount)%Z; [done|].
      destruct (Z.ltb_spec (maxCount' - 1) (localCount + 1)); [done|lia].
    + assert (∃ events,
                trace w = trace w ++ events
                ∧ ∀ shard, EMaster shard ∈ events →
                    (localCount + 1 ≤ maxCount' - 1)%Z
                    ∧ shardToMasterAddress !! shard = Some maxAddress) as Hidle.
      { exists []. split; [by rewrite app_nil_r|]. by intros ? ?%elem_of_nil. }
      destruct (_ <? localCount)%Z; [done|].
      destruct (Z.ltb_spec (maxCount' - 1) (localCount + 1)); [done|].
      destruct (randomShard maxAddress shardToMasterAddress) as [shard|] eqn:Hshard;
        [|done].
      destruct (claim_trace r shard maxAddress w) as (events & Htrace & Honly).
      exists events. split; [done|]. intros shard' ->%Honly.
      split; [lia|]. by apply randomShard_Some.
Qed.

Example runIteration_example :
  trace (runIteration (H := storedOrder) exampleRoler (Ok exampleMasters) emptyWorld).2
  = [EMaster 2; EGoHoldMasterAddress 2 "hostC" "hostB"].
Proof. vm_compute. reflexivity. Qed.

Lemma runIteration_steals_to_balance_witness :
  ∃ events,
    trace (runIteration (H := storedOrder) exampleRoler (Ok exampleMasters) emptyWorld).2
      = trace emptyWorld ++ events
    ∧ ∀ shard, EMaster shard ∈ events →
        (Z.of_nat (countOf exampleMasters (localAddress exampleRoler)) + 1
         ≤ Z.of_nat (countOf exampleMasters
                       (maxCount (H := storedOrder)
                          (masterCounts (H := storedOrder) exampleMasters)).1) - 1)%Z
        ∧ exampleMasters !! shard
          = Some (maxCount (H := storedOrder)
                    (masterCounts (H := storedOrder) exampleMasters)).1.
Proof.
  destruct (runIteration_steals_to_balance (H0 := storedOrder_ok)
              exampleRoler exampleMasters emptyWorld) as [_ Hopen];
    [vm_compute; reflexivity|].
  destruct (Hopen eq_refl) as (_ & _ & Hevents). exact Hevents.
Defined.

(** * Further properties *)

(** ** The two ways the callback of [AssignRoles] ends *)

Lemma emits_mono {A} (P Q : Event → Prop) (c : M A) :
  (∀ e, P e → Q e) → emits P c → emits Q c.
Proof.
  intros HPQ Hc w. destruct (Hc w) as (events & Htrace & HP).
  exists events. split; [done|]. eapply Forall_impl; eauto.
Qed.

Lemma emits_collect `{MapOrder} `{Jsonpb} a minVersion :
  emits isCollect
    (serverRoles <~ clientGetAll (serverRoleDir a) ;;
     foldM (deleteOldRole minVersion) (range AtDeleteRoles serverRoles) tt).
Proof.
  apply emits_bindM; [by apply emits_clientGetAll|]. intros serverRoles.
  apply emits_foldM. intros [] entry _. unfold deleteOldRole.
  apply emits_bindM; [apply emits_lift|]. intros serverRole.
  destruct (role_Version serverRole <? minVersion)%Z; [|apply emits_retM].
  apply emits_bindM; [by apply emits_clientDelete|]. intros _.
  by apply emits_emit.
Qed.

Lemma collectRoles_keeps `{MapOrder} `{Jsonpb} a st minVersion w :
  ∃ events,
    trace (collectRoles a st minVersion w).2 = trace w ++ events
    ∧ Forall isCollect events
    ∧ (collectRoles a st minVersion w).1.2
      = mkAssigner (version st) (oldServerStates st) (oldRoles st) (oldMasters st)
          (oldReplicas st) (Z.max (oldMinVersion st) minVersion).
Proof.
  unfold collectRoles. destruct (Z.ltb_spec (oldMinVersion st) minVersion).
  - destruct (emits_collect a minVersion w) as (events & Htrace & HP).
    destruct (bindM _ _ w) as [r w']. exists events. simpl.
    split_and!; [done..|]. f_equal. lia.
  - exists []. rewrite app_nil_r. split_and!; [done|constructor|].
    destruct st. simpl in *. f_equal. lia.
Qed.

Lemma emits_publish_true `{MapOrder} `{Jsonpb} a version newServerStates newRoles :
  emits (λ _, True) (publish a version newServerStates newRoles).
Proof.
  unfold publish.
  apply emits_bindM.
  { apply emits_foldM. intros shardToAddresses [id serverRole] _.
    unfold publishRole.
    apply emits_bindM; [apply emits_lift|]. intros encodedServerRole.
    apply emits_bindM; [by apply emits_clientSet|]. intros _.
    apply emits_bindM; [by apply emits_emit|]. intros _.
    apply emits_bindM; [apply emits_lift|]. intros withMasters. apply emits_lift. }
  intros shardToAddresses.
  apply emits_bindM; [apply emits_lift|]. intros encodedAddresses.
  apply emits_bindM; [by apply emits_clientSet|]. intros _.
  by apply emits_emit.
Qed.

(** Either nothing is published: version and remembered assignment stay,
    and the events are those of collecting old roles.  Or the placement
    succeeded and was written in full. *)
Lemma assignRolesCallback_cases `{MapOrder} `{Jsonpb} a st encodedServerStates w
    res st' w' :
  assignRolesCallback a st encodedServerStates w = (res, st', w') →
  (version st' = version st
   ∧ oldServerStates st' = oldServerStates st
   ∧ oldRoles st' = oldRoles st
   ∧ oldMasters st' = oldMasters st
   ∧ oldReplicas st' = oldReplicas st
   ∧ (oldMinVersion st ≤ oldMinVersion st')%Z
   ∧ ∃ collected failed,
       trace w' = trace w ++ collected ++ failed
       ∧ Forall isCollect collected
       ∧ (failed = [] ∨ res ≠ Ok 0))
  ∨ (∃ budget newServerStates newRoles shardLocations st1 w1
       newRoles' newMasters newReplicas,
       budgets a (len encodedServerStates) = Ok budget
       ∧ foldResult (decodeServerState (version st))
           (range AtDecode encodedServerStates) (∅, ∅, ∅)
         = Ok (newServerStates, newRoles, shardLocations)
       ∧ collectRoles a st
           (minVersionOf (state_Version <$> (range AtMinVersion newServerStates).*2)) w
         = (Ok tt, st1, w1)
       ∧ sameServers (oldServerStates st) newServerStates = false
       ∧ place st1 a shardLocations newServerStates newRoles budget
         = Some (newRoles', newMasters, newReplicas)
       ∧ publish a (version st) newServerStates newRoles' w1 = (Ok tt, w')
       ∧ res = Ok 0
       ∧ st' = mkAssigner (wrapInt (version st + 1)) newServerStates newRoles'
                 newMasters newReplicas (oldMinVersion st1)).
Proof.
  unfold assignRolesCallback.
  assert (∀ r : result N,
            version st = version st ∧ oldServerStates st = oldServerStates st
            ∧ oldRoles st = oldRoles st ∧ oldMasters st = oldMasters st
            ∧ oldReplicas st = oldReplicas st
            ∧ (oldMinVersion st ≤ oldMinVersion st)%Z
            ∧ ∃ collected failed,
                trace w = trace w ++ collected ++ failed
                ∧ Forall isCollect collected ∧ (failed = [] ∨ r ≠ Ok 0)) as Hidle.
  { intros r. split_and!; [done..|lia|]. exists [], []. rewrite !app_nil_r.
    split_and!; [done|constructor|by left]. }
  destruct (len encodedServerStates =? 0); [intros [= <- <- <-]; by left|].
  destruct (budgets a (len encodedServerStates)) as [budget|e] eqn:Hbudget;
    [|intros [= <- <- <-]; by left].
  destruct (foldResult _ _ _) as [[[newServerStates newRoles] shardLocations]|e]
    eqn:Hdecode; [|intros [= <- <- <-]; by left].
  set (minVersion := minVersionOf _).
  destruct (collectRoles_keeps a st minVersion w) as (events1 & Htrace1 & HP1 & Hst1).
  destruct (collectRoles a st minVersion w) as [[collected st1] w1] eqn:Hcollect.
  simpl in Htrace1, Hst1.
  assert (∀ r : result N,
            version st1 = version st ∧ oldServerStates st1 = oldServerStates st
            ∧ oldRoles st1 = oldRoles st ∧ oldMasters st1 = oldMasters st
            ∧ oldReplicas st1 = oldReplicas st
            ∧ (oldMinVersion st ≤ oldMinVersion st1)%Z
            ∧ ∃ collected failed,
                trace w1 = trace w ++ collected ++ failed
                ∧ Forall isCollect collected ∧ (failed = [] ∨ r ≠ Ok 0)) as Hkept.
  { intros r. rewrite Hst1. simpl. split_and!; [done..|lia|].
    exists events1, []. rewrite app_nil_r. split_and!; [done..|by left]. }
  destruct collected as [[]|e]; [|intros [= <- <- <-]; by left].
  destruct (sameServers (oldServerStates st1) newServerStates) eqn:Hsame;
    [intros [= <- <- <-]; by left|].
  destruct (place st1 a shardLocations newServerStates newRoles budget)
    as [[[newRoles' newMasters] newReplicas]|] eqn:Hplace;
    [|intros [= <- <- <-]; by left].
  destruct (emits_publish_true a (version st1) newServerStates newRoles' w1)
    as (events2 & Htrace2 & _).
  destruct (publish a (version st1) newServerStates newRoles' w1) as [[[]|e] w2]
    eqn:Hpublish; intros [= <- <- <-].
  - right. rewrite Hst1 in Hsame, Hpublish. simpl in Hsame, Hpublish.
    exists budget, newServerStates, newRoles, shardLocations, st1, w1,
      newRoles', newMasters, newReplicas.
    split_and!; try done. by rewrite Hst1.
  - left. destruct (Hkept (Err e)) as (? & ? & ? & ? & ? & ? & _).
    split_and!; [done..|].
    exists events1, events2. simpl in Htrace2.
    rewrite Htrace2, Htrace1, app_assoc. split_and!; [done..|by right].
Qed.

(** ** One master for every shard *)

Lemma assignMaster_agree roles masters id shard perServer remainder
    ok roles' masters' remainder' :
  mastersAgree roles masters →
  masters !! shard = None →
  assignMaster roles masters id shard perServer remainder
    = (ok, (roles', masters', remainder')) →
  if ok then mastersAgree roles' masters' ∧ masters' = <[shard := id]> masters
  else roles' = roles ∧ masters' = masters.
Proof.
  intros Hagree Hfree Hcall.
  destruct (assignMaster_cases roles masters id shard perServer remainder)
    as [[Heq _]|(r & Hid & _ & Heq)]; rewrite Heq in Hcall; simplify_eq; [done|].
  split; [|done]. intros shard' id'.
  rewrite lookup_insert. destruct (decide (shard = shard')) as [<-|Hne].
  - split.
    + intros [= <-]. eexists. rewrite lookup_insert_eq. split; [done|].
      unfold holds. simpl. by rewrite getb_insert, decide_True.
    + intros (r' & Hr' & Hholds).
      destruct (decide (id = id')) as [->|Hid']; [done|].
      rewrite lookup_insert_ne in Hr' by done.
      assert (masters !! shard = Some id') as Hold by (apply Hagree; eauto).
      congruence.
  - unfold mastersAgree in Hagree. rewrite Hagree.
    split; intros (r' & Hr' & Hholds).
    + destruct (decide (id = id')) as [<-|Hid'].
      * eexists. rewrite lookup_insert_eq. split; [done|]. simplify_eq.
        unfold holds in *. simpl. by rewrite getb_insert, decide_False.
      * exists r'. by rewrite lookup_insert_ne.
    + destruct (decide (id = id')) as [<-|Hid'].
      * rewrite lookup_insert_eq in Hr'. simplify_eq. exists r. split; [done|].
        unfold holds in *. simpl in Hholds.
        by rewrite getb_insert, decide_False in Hholds.
      * rewrite lookup_insert_ne in Hr' by done. eauto.
Qed.

Lemma tryAssignMaster_agree ids roles masters shard perServer remainder
    roles' masters' remainder' :
  mastersAgree roles masters →
  masters !! shard = None →
  tryAssignMaster ids roles masters shard perServer remainder
    = Some (roles', masters', remainder') →
  mastersAgree roles' masters' ∧ ∃ id, masters' = <[shard := id]> masters.
Proof.
  revert roles masters remainder.
  induction ids as [|id ids IH]; intros roles masters remainder Hagree Hfree Htry;
    [done|].
  simpl in Htry.
  destruct (assignMaster roles masters id shard perServer remainder)
    as [ok [[roles1 masters1] remainder1]] eqn:Hcall.
  pose proof (assignMaster_agree _ _ _ _ _ _ _ _ _ _ Hagree Hfree Hcall) as Hstep.
  destruct ok.
  - destruct Hstep as [? ->]. simplify_eq. eauto.
  - destruct Hstep as [-> ->]. by eapply IH.
Qed.

Lemma placeMasters_agree `{MapOrder} st shardLocations newServerStates perServer
    shards roles masters remainder roles' masters' remainder' :
  mastersAgree roles masters →
  NoDup shards →
  (∀ shard, shard ∈ shards → masters !! shard = None) →
  placeMasters st shardLocations newServerStates perServer shards
    roles masters remainder = Some (roles', masters', remainder') →
  mastersAgree roles' masters'
  ∧ ∀ shard, is_Some (masters' !! shard) ↔ is_Some (masters !! shard) ∨ shard ∈ shards.
Proof.
  revert roles masters remainder.
  induction shards as [|shard shards IH];
    intros roles masters remainder Hagree Hnodup Hfree Hplace; simpl in Hplace.
  { simplify_eq. split; [done|]. intros shard. rewrite elem_of_nil. tauto. }
  apply NoDup_cons in Hnodup as [Hnotin Hnodup].
  destruct (tryAssignMaster _ roles masters shard perServer remainder)
    as [[[roles1 masters1] remainder1]|] eqn:Htry; [|done].
  apply tryAssignMaster_agree in Htry as [Hagree1 [id ->]];
    [|done|apply Hfree; by left].
  apply IH in Hplace as [Hagree' Hdom]; [|done|done|].
  - split; [done|]. intros shard'. rewrite Hdom, lookup_insert_is_Some', elem_of_cons.
    split; [intros [[->|?]|?]|intros [?|[->|?]]]; auto.
  - intros shard' Hin. rewrite lookup_insert_ne by (intros ->; done).
    apply Hfree. by right.
Qed.

Lemma NoDup_upto n : NoDup (upto n).
Proof.
  unfold upto. apply NoDup_fmap; [apply _|]. apply NoDup_seq.
Qed.

Lemma elem_of_upto n shard : shard ∈ upto n ↔ shard < n.
Proof.
  unfold upto. rewrite list_elem_of_fmap. split.
  - intros (i & -> & Hin%elem_of_seq). lia.
  - intros Hlt. exists (N.to_nat shard). split; [lia|]. apply elem_of_seq. lia.
Qed.

Lemma mastersAgree_sameMasters roles0 roles masters :
  mastersAgree roles0 masters → sameMasters roles0 roles → mastersAgree roles masters.
Proof.
  intros Hagree Hsame shard id. unfold mastersAgree in Hagree.
  rewrite Hagree. specialize (Hsame id).
  split; intros (r & Hr & Hholds); rewrite Hr in Hsame; simpl in Hsame.
  - destruct (roles !! id) as [r'|]; [|done]. injection Hsame as Hm.
    exists r'. by rewrite Hm.
  - destruct (roles0 !! id) as [r'|]; [|done]. injection Hsame as Hm.
    exists r'. by rewrite <- Hm.
Qed.

(** ** The replica lists agree with the roles *)

Lemma getl_insert (replicas : gmap N (list string)) shard shard' l :
  getl (<[shard := l]> replicas) shard'
  = if decide (shard = shard') then l else getl replicas shard'.
Proof. unfold getl. rewrite lookup_insert. by case_decide. Qed.

Lemma replicasAgree_add roles replicas id r shard :
  replicasAgree roles replicas →
  roles !! id = Some r →
  ¬ holds (role_Replicas r) shard →
  replicasAgree
    (<[id := setReplicas r (<[shard := true]> (role_Replicas r))]> roles)
    (<[shard := getl replicas shard ++ [id]]> replicas).
Proof.
  intros [Hagree Hnodup] Hid Hfree. split.
  - intros shard' id'. rewrite getl_insert.
    destruct (decide (shard = shard')) as [<-|Hne].
    + rewrite elem_of_app, list_elem_of_singleton, Hagree. split.
      * intros [(r' & Hr' & Hholds)| ->].
        -- destruct (decide (id = id')) as [<-|Hid']; [by simplify_eq|].
           exists r'. by rewrite lookup_insert_ne.
        -- eexists. rewrite lookup_insert_eq. split; [done|].
           unfold holds. simpl. by rewrite getb_insert, decide_True.
      * intros (r' & Hr' & Hholds).
        destruct (decide (id = id')) as [<-|Hid']; [by right|].
        rewrite lookup_insert_ne in Hr' by done. left. eauto.
    + rewrite Hagree. split; intros (r' & Hr' & Hholds).
      * destruct (decide (id = id')) as [<-|Hid'].
        -- eexists. rewrite lookup_insert_eq. split; [done|]. simplify_eq.
           unfold holds in *. simpl. by rewrite getb_insert, decide_False.
        -- exists r'. by rewrite lookup_insert_ne.
      * destruct (decide (id = id')) as [<-|Hid'].
        -- rewrite lookup_insert_eq in Hr'. simplify_eq. exists r. split; [done|].
           unfold holds in *. simpl in Hholds.
           by rewrite getb_insert, decide_False in Hholds.
        -- rewrite lookup_insert_ne in Hr' by done. eauto.
  - intros shard'. rewrite getl_insert. case_decide; [|done].
    apply NoDup_app. split_and!; [done| |apply NoDup_singleton].
    intros id' Hin ->%list_elem_of_singleton.
    apply Hagree in Hin as (r' & Hr' & Hholds). by simplify_eq.
Qed.

Lemma replicasAgree_remove roles replicas id r shard :
  replicasAgree roles replicas →
  roles !! id = Some r →
  replicasAgree
    (<[id := setReplicas r (delete shard (role_Replicas r))]> roles)
    (removeReplica replicas shard id).
Proof.
  intros [Hagree Hnodup] Hid. unfold removeReplica. split.
  - intros shard' id'. rewrite getl_insert.
    destruct (decide (shard = shard')) as [<-|Hne].
    + rewrite list_elem_of_filter, Hagree. split.
      * intros [Hid' (r' & Hr' & Hholds)]. exists r'. by rewrite lookup_insert_ne.
      * intros (r' & Hr' & Hholds).
        destruct (decide (id = id')) as [<-|Hid'].
        -- rewrite lookup_insert_eq in Hr'. simplify_eq.
           unfold holds in Hholds. simpl in Hholds.
           by rewrite getb_delete, decide_True in Hholds.
        -- rewrite lookup_insert_ne in Hr' by done. eauto.
    + rewrite Hagree. split; intros (r' & Hr' & Hholds).
      * destruct (decide (id = id')) as [<-|Hid'].
        -- eexists. rewrite lookup_insert_eq. split; [done|]. simplify_eq.
           unfold holds in *. simpl. by rewrite getb_delete, decide_False.
        -- exists r'. by rewrite lookup_insert_ne.
      * destruct (decide (id = id')) as [<-|Hid'].
        -- rewrite lookup_insert_eq in Hr'. simplify_eq. exists r. split; [done|].
           unfold holds in *. simpl in Hholds.
           by rewrite getb_delete, decide_False in Hholds.
        -- rewrite lookup_insert_ne in Hr' by done. eauto.
  - intros shard'. rewrite getl_insert. case_decide; [|done].
    by apply NoDup_filter.
Qed.

Lemma length_filter_remove (id : string) (l : list string) :
  NoDup l → id ∈ l →
  length (filter (λ replicaID, id ≠ replicaID) l) = pred (length l).
Proof.
  induction l as [|x l IH]; intros Hnodup Hin; [by apply elem_of_nil in Hin|].
  apply NoDup_cons in Hnodup as [Hnotin Hnodup].
  rewrite filter_cons. destruct (decide (id = x)) as [<-|Hne].
  - rewrite decide_False by (by intros ?). simpl.
    clear IH Hin. induction l as [|y l IH]; [done|].
    apply not_elem_of_cons in Hnotin as [Hy Hnotin].
    apply NoDup_cons in Hnodup as [_ Hnodup].
    rewrite filter_cons, decide_True by done. simpl. f_equal. by apply IH.
  - rewrite decide_True by done. simpl.
    apply elem_of_cons in Hin as [?|Hin]; [done|].
    rewrite IH by done. destruct l; [by apply elem_of_nil in Hin|done].
Qed.

Lemma assignReplica_lists roles masters replicas id shard perServer remainder
    ok roles' replicas' remainder' :
  replicasAgree roles replicas →
  assignReplica roles masters replicas id shard perServer remainder
    = (ok, (roles', replicas', remainder')) →
  if ok then replicasAgree roles' replicas' ∧ oneMore replicas replicas' shard
  else roles' = roles ∧ replicas' = replicas.
Proof.
  intros Hagree Hcall.
  destruct (assignReplica_cases roles masters replicas id shard perServer remainder)
    as [[Heq _]|(r & Hid & [[_ Hfree]%hasShard_false _] & Heq)];
    rewrite Heq in Hcall; simplify_eq; [done|].
  split.
  - apply replicasAgree_add; [done..|]. unfold holds. by rewrite Hfree.
  - intros shard'. rewrite getl_insert.
    destruct (decide (shard = shard')) as [<-|]; [|by rewrite decide_False, Nat.add_0_r].
    rewrite decide_True, length_app by done. done.
Qed.

Lemma tryAssignReplica_lists ids roles masters replicas shard perServer remainder
    roles' replicas' remainder' :
  replicasAgree roles replicas →
  tryAssignReplica ids roles masters replicas shard perServer remainder
    = Some (roles', replicas', remainder') →
  replicasAgree roles' replicas' ∧ oneMore replicas replicas' shard.
Proof.
  revert roles replicas remainder.
  induction ids as [|id ids IH]; intros roles replicas remainder Hagree Htry; [done|].
  simpl in Htry.
  destruct (assignReplica roles masters replicas id shard perServer remainder)
    as [ok [[roles1 replicas1] remainder1]] eqn:Hcall.
  pose proof (assignReplica_lists _ _ _ _ _ _ _ _ _ _ _ Hagree Hcall) as Hstep.
  destruct ok; [by simplify_eq|]. destruct Hstep as [-> ->]. by eapply IH.
Qed.

Lemma swapReplica_lists `{MapOrderOk} perServer remainder0 roles0 from roles masters
    replicas id shard remainder placed ok roles' replicas' :
  (N.to_nat perServer + remainder0 ≤ N.to_nat MaxUint64)%nat →
  replicaInv (N.to_nat perServer) remainder0 roles0 roles remainder placed →
  replicasAgree roles replicas →
  swapReplica from roles masters replicas id shard perServer
    = (ok, (roles', replicas')) →
  if ok then replicasAgree roles' replicas' ∧ oneMore replicas replicas' shard
  else roles' = roles ∧ replicas' = replicas.
Proof.
  intros Hroom Hinv Hagree. unfold swapReplica.
  destruct (roles !! id) as [serverRole|] eqn:Hid; [|by intros [= <- <- <-]].
  destruct (N.leb_spec perServer (len (role_Replicas serverRole))) as [|Hbelow];
    [by intros [= <- <- <-]|].
  destruct (findSwap from id serverRole shard _)
    as [[[swapID swapServerRole] swapShard]|] eqn:Hfind; [|by intros [= <- <- <-]].
  apply findSwap_Some in Hfind
    as (Hswap%elem_of_range & Hne & [b Hshard%elem_of_range] & Hfree & Hfree').
  destruct Hinv as [Hok Hbudget Hsame].
  pose proof (Hok _ _ Hswap) as Hsr.
  destruct (hasShard_false _ _ Hfree') as [HfreeM' HfreeR'].
  pose proof (setLike_present _ _ _ (roleOk_replicas _ Hsr) Hshard) as Hheld.
  assert (shard ≠ swapShard) as Hdiff by (intros ->; congruence).
  set (swapServerRole' :=
         setReplicas swapServerRole (delete swapShard (role_Replicas swapServerRole))).
  assert (hasShard swapServerRole' shard = false) as Hfree''.
  { unfold hasShard, swapServerRole'. simpl. rewrite HfreeM', getb_delete.
    by case_decide. }
  assert (size (role_Replicas swapServerRole') = pred (size (role_Replicas swapServerRole)))
    as Hsize' by (simpl; apply map_size_delete_Some; eauto).
  pose proof (budgetInv_room _ _ _ _ _ _ _ _ Hbudget Hswap) as Hfits.
  pose proof (replicasAgree_remove _ _ _ _ swapShard Hagree Hswap) as Hagree1.
  fold swapServerRole' in Hagree1.
  set (roles1 := <[swapID := swapServerRole']> roles) in *.
  set (replicas1 := removeReplica replicas swapShard swapID) in *.
  assert (∀ shard', length (getl replicas1 shard')
                    = if decide (shard' = swapShard)
                      then pred (length (getl replicas shard'))
                      else length (getl replicas shard')) as Hlen1.
  { intros shard'. unfold replicas1, removeReplica. rewrite getl_insert.
    destruct (decide (swapShard = shard')) as [<-|]; [|by rewrite decide_False].
    rewrite decide_True by done. apply length_filter_remove; [apply Hagree|].
    apply Hagree. eauto. }
  assert (length (getl replicas swapShard) ≠ 0)%nat as Hpos.
  { assert (swapID ∈ getl replicas swapShard) as Hin by (apply Hagree; eauto).
    destruct (getl replicas swapShard); [by apply elem_of_nil in Hin|done]. }
  destruct (assignReplica roles1 masters replicas1 swapID shard MaxUint64 0)
    as [ok2 [[roles2 replicas2] remainder2]] eqn:Hcall2.
  pose proof (assignReplica_lists _ _ _ _ _ _ _ _ _ _ _ Hagree1 Hcall2) as Hstep2.
  destruct (assignReplica_cases roles1 masters replicas1 swapID shard MaxUint64 0)
    as [[_ Hrefuse]|(r1 & Hr1 & _ & Heq2)].
  { exfalso. apply (Hrefuse swapServerRole'); [apply lookup_insert_eq|].
    split; [done|]. left. unfold len. lia. }
  rewrite Heq2 in Hcall2. injection Hcall2 as <- <- <- <-.
  destruct Hstep2 as [Hagree2 Hmore2].
  unfold roles1 in Hr1. rewrite lookup_insert_eq in Hr1. injection Hr1 as <-.
  set (roles2 := <[swapID := _]> roles1) in *.
  set (replicas2 := <[shard := _]> replicas1) in *.
  set (remainder2 := remainderAfter _ _ _) in *.
  destruct (assignReplica roles2 masters replicas2 id swapShard perServer remainder2)
    as [ok3 [[roles3 replicas3] remainder3]] eqn:Hcall3.
  pose proof (assignReplica_lists _ _ _ _ _ _ _ _ _ _ _ Hagree2 Hcall3) as Hstep3.
  destruct (assignReplica_cases roles2 masters replicas2 id swapShard perServer remainder2)
    as [[_ Hrefuse]|(r2 & Hr2 & _ & Heq3)].
  { exfalso. apply (Hrefuse serverRole).
    - unfold roles2, roles1. by rewrite !lookup_insert_ne.
    - split; [done|]. by left. }
  rewrite Heq3 in Hcall3. injection Hcall3 as <- <- <- <-.
  destruct Hstep3 as [Hagree3 Hmore3].
  intros [= <- <- <-]. split; [done|].
  intros shard'. rewrite Hmore3, Hmore2, Hlen1.
  repeat case_decide; subst; try done; lia.
Qed.

Lemma trySwapReplica_lists `{MapOrderOk} perServer remainder0 roles0 from ids roles
    masters replicas shard remainder placed roles' replicas' :
  (N.to_nat perServer + remainder0 ≤ N.to_nat MaxUint64)%nat →
  replicaInv (N.to_nat perServer) remainder0 roles0 roles remainder placed →
  replicasAgree roles replicas →
  trySwapReplica from ids roles masters replicas shard perServer
    = Some (roles', replicas') →
  replicasAgree roles' replicas' ∧ oneMore replicas replicas' shard.
Proof.
  intros Hroom. revert roles replicas.
  induction ids as [|id ids IH]; intros roles replicas Hinv Hagree Htry; [done|].
  simpl in Htry.
  destruct (swapReplica from roles masters replicas id shard perServer)
    as [ok [roles1 replicas1]] eqn:Hcall.
  pose proof (swapReplica_lists _ _ _ _ _ _ _ _ _ _ _ _ _ _ Hroom Hinv Hagree Hcall)
    as Hstep.
  destruct ok; [by simplify_eq|]. destruct Hstep as [-> ->]. by eapply IH.
Qed.

Lemma placeReplica_lists `{MapOrderOk} st shardLocations newServerStates masters
    perServer remainder0 roles0 replica shard roles replicas remainder placed
    roles' replicas' remainder' :
  (N.to_nat perServer + remainder0 ≤ N.to_nat MaxUint64)%nat →
  replicaInv (N.to_nat perServer) remainder0 roles0 roles remainder placed →
  replicasAgree roles replicas →
  placeReplica st shardLocations newServerStates masters perServer replica shard
    roles replicas remainder = Some (roles', replicas', remainder') →
  replicasAgree roles' replicas' ∧ oneMore replicas replicas' shard.
Proof.
  intros Hroom Hinv Hagree. unfold placeReplica.
  destruct (tryAssignReplica _ roles masters replicas shard perServer remainder)
    as [[[roles1 replicas1] remainder1]|] eqn:Htry.
  { intros [= <- <- <-]. by eapply tryAssignReplica_lists. }
  destruct (trySwapReplica _ _ roles masters replicas shard perServer)
    as [[roles1 replicas1]|] eqn:Hswap; [|done].
  intros [= <- <- <-]. by eapply trySwapReplica_lists.
Qed.

Lemma placeReplicaRound_lists `{MapOrderOk} st shardLocations newServerStates masters
    perServer remainder0 roles0 replica shards roles replicas remainder placed
    roles' replicas' remainder' :
  (N.to_nat perServer + remainder0 ≤ N.to_nat MaxUint64)%nat →
  replicaInv (N.to_nat perServer) remainder0 roles0 roles remainder placed →
  replicasAgree roles replicas →
  placeReplicaRound st shardLocations newServerStates masters perServer replica
    shards roles replicas remainder = Some (roles', replicas', remainder') →
  replicasAgree roles' replicas'
  ∧ ∀ shard,
      length (getl replicas' shard)
      = (length (getl replicas shard) + occurrences shard shards)%nat.
Proof.
  intros Hroom. revert roles replicas remainder placed.
  induction shards as [|shard shards IH];
    intros roles replicas remainder placed Hinv Hagree Hplace; simpl in Hplace.
  { simplify_eq. split; [done|]. intros shard. unfold occurrences. simpl. lia. }
  destruct (placeReplica _ _ _ masters perServer replica shard roles replicas remainder)
    as [[[roles1 replicas1] remainder1]|] eqn:Hone; [|done].
  pose proof (placeReplica_inv _ _ _ _ _ _ _ _ _ _ _ _ _ _ _ _ Hroom Hinv Hone) as Hinv1.
  apply placeReplica_lists with (remainder0 := remainder0) (roles0 := roles0)
    (placed := placed) in Hone as [Hagree1 Hmore]; [|done..].
  destruct (IH _ _ _ _ Hinv1 Hagree1 Hplace) as [Hagree' Hlen].
  split; [done|]. intros shard'. rewrite Hlen, Hmore. unfold occurrences.
  rewrite filter_cons. destruct (decide (shard' = shard)) as [->|Hne].
  - rewrite decide_True by done. simpl. lia.
  - rewrite decide_False by (by intros ?). lia.
Qed.

Lemma placeReplicas_lists `{MapOrderOk} st shardLocations newServerStates masters
    perServer remainder0 roles0 numShards replicaIndices roles replicas remainder
    placed roles' replicas' remainder' :
  (N.to_nat perServer + remainder0 ≤ N.to_nat MaxUint64)%nat →
  replicaInv (N.to_nat perServer) remainder0 roles0 roles remainder placed →
  replicasAgree roles replicas →
  placeReplicas st shardLocations newServerStates masters perServer numShards
    replicaIndices roles replicas remainder = Some (roles', replicas', remainder') →
  replicasAgree roles' replicas'
  ∧ ∀ shard,
      length (getl replicas' shard)
      = (length (getl replicas shard)
         + length replicaIndices * occurrences shard (upto numShards))%nat.
Proof.
  intros Hroom. revert roles replicas remainder placed.
  induction replicaIndices as [|replica rest IH];
    intros roles replicas remainder placed Hinv Hagree Hplace; simpl in Hplace.
  { simplify_eq. split; [done|]. intros shard. simpl. lia. }
  destruct (placeReplicaRound _ _ _ masters perServer replica _ roles replicas remainder)
    as [[[roles1 replicas1] remainder1]|] eqn:Hround; [|done].
  pose proof (placeReplicaRound_inv _ _ _ _ _ _ _ _ _ _ _ _ _ _ _ _ Hroom Hinv Hround)
    as Hinv1.
  apply placeReplicaRound_lists with (remainder0 := remainder0) (roles0 := roles0)
    (placed := placed) in Hround as [Hagree1 Hlen1]; [|done..].
  destruct (IH _ _ _ _ Hinv1 Hagree1 Hplace) as [Hagree' Hlen].
  split; [done|]. intros shard. rewrite Hlen, Hlen1. simpl. lia.
Qed.

Lemma occurrences_upto shard n :
  occurrences shard (upto n) = if decide (shard < n) then 1%nat else 0%nat.
Proof.
  unfold occurrences.
  pose proof (NoDup_upto n) as Hnodup. pose proof (elem_of_upto n shard) as Hin.
  revert Hnodup Hin. generalize (upto n). intros l Hnodup Hin.
  case_decide as Hlt.
  - apply Hin in Hlt. clear Hin.
    induction l as [|x l IH]; [by apply elem_of_nil in Hlt|].
    apply NoDup_cons in Hnodup as [Hnotin Hnodup]. rewrite filter_cons.
    destruct (decide (x = shard)) as [->|Hne].
    + simpl. f_equal.
      clear IH Hlt. induction l as [|y l IH]; [done|].
      apply not_elem_of_cons in Hnotin as [Hy Hnotin].
      apply NoDup_cons in Hnodup as [_ Hnodup].
      rewrite filter_cons, decide_False by done. by apply IH.
    + apply elem_of_cons in Hlt as [?|Hlt]; [done|]. by apply IH.
  - assert (shard ∉ l) as Hnotin by (by rewrite Hin). clear Hin Hnodup.
    induction l as [|y l IH]; [done|].
    apply not_elem_of_cons in Hnotin as [Hy Hnotin].
    rewrite filter_cons, decide_False by done. by apply IH.
Qed.

(** ** The structure of a placement *)

Lemma place_structure `{MapOrderOk} st a shardLocations newServerStates newRoles
    servers budget roles' masters' replicas' :
  budgets a servers = Ok budget →
  (size newRoles ≤ N.to_nat servers)%nat →
  freshRoles newRoles →
  place st a shardLocations newServerStates newRoles budget
    = Some (roles', masters', replicas') →
  mastersAgree roles' masters'
  ∧ (∀ shard, is_Some (masters' !! shard) ↔ shard < NumShards (sharder a))
  ∧ replicasAgree roles' replicas'
  ∧ (∀ shard,
       length (getl replicas' shard)
       = if decide (shard < NumShards (sharder a))
         then N.to_nat (NumReplicas (sharder a)) else 0%nat).
Proof.
  intros [Hservers ->]%budgets_Ok Hsize Hfresh. unfold place.
  set (numShards := NumShards (sharder a)).
  set (numReplicas := NumReplicas (sharder a)).
  destruct (placeMasters _ _ _ _ _ newRoles ∅ _)
    as [[[roles1 masters1] remainder1]|] eqn:Hmasters; [|done].
  destruct (placeReplicas _ _ _ masters1 _ _ _ roles1 ∅ _)
    as [[[roles2 replicas2] remainder2]|] eqn:Hreplicas; [|done].
  intros [= <- <- <-].
  (* the master loop *)
  assert (masterInv (N.to_nat (numShards / servers)) (N.to_nat (numShards mod servers))
            newRoles (numShards mod servers) 0) as Hstart.
  { split.
    - intros id r Hid. destruct (Hfresh id r Hid) as [Hm Hr].
      split; rewrite ?Hm, ?Hr; [apply setLike_empty..|].
      intros shard [Hheld _]. unfold holds, getb in Hheld.
      by rewrite lookup_empty in Hheld.
    - apply budgetInv_start. intros id r Hid. by destruct (Hfresh id r Hid).
    - intros id r Hid. by destruct (Hfresh id r Hid). }
  pose proof (placeMasters_inv _ _ _ _ _ _ _ _ _ _ _ _ _ Hstart Hmasters)
    as [Hok1 Hbudget1 Hnone1].
  assert (mastersAgree newRoles ∅) as Hagree0.
  { intros shard id. rewrite lookup_empty. split; [done|].
    intros (r & Hr & Hholds). destruct (Hfresh id r Hr) as [Hm _].
    unfold holds, getb in Hholds. by rewrite Hm, lookup_empty in Hholds. }
  apply placeMasters_agree in Hmasters as [Hagree1 Hdom1];
    [|done|apply NoDup_upto|intros; apply lookup_empty].
  (* the replica loop *)
  set (wanted := wrap64 (numShards * numReplicas)) in *.
  assert (wanted < 2 ^ 64) as Hwanted by (apply N.mod_lt; lia).
  pose proof (N.div_mod wanted servers Hservers) as Hdm.
  assert (1 * (wanted / servers) ≤ servers * (wanted / servers)) as Hmul
    by (apply N.mul_le_mono_r; lia).
  assert (replicaInv (N.to_nat (wanted / servers)) (N.to_nat (wanted mod servers))
            roles1 roles1 (wanted mod servers) 0) as Hstart2.
  { split; [done| |done]. apply budgetInv_start. eauto. }
  assert (N.to_nat (wanted / servers) + N.to_nat (wanted mod servers)
          ≤ N.to_nat MaxUint64)%nat as Hroom.
  { unfold MaxUint64. clear -Hwanted Hdm Hmul. revert Hwanted Hdm Hmul.
    generalize (wanted / servers) (wanted mod servers) (servers * (wanted / servers)).
    intros q m sq ???. lia. }
  assert (replicasAgree roles1 ∅) as Hlists0.
  { split; [|intros shard; apply NoDup_nil_2].
    intros shard id. unfold getl. rewrite lookup_empty. simpl. split.
    - by intros ?%elem_of_nil.
    - intros (r & Hr & Hholds). rewrite (Hnone1 id r Hr) in Hholds.
      unfold holds, getb in Hholds. by rewrite lookup_empty in Hholds. }
  pose proof Hreplicas as Hinv2.
  eapply placeReplicas_inv in Hinv2; [|exact Hroom|exact Hstart2].
  destruct Hinv2 as [_ _ Hsame].
  apply placeReplicas_lists with (remainder0 := N.to_nat (wanted mod servers))
    (roles0 := roles1) (placed := 0%nat) in Hreplicas as [Hlists Hlen]; [|done..].
  split_and!.
  - by eapply mastersAgree_sameMasters.
  - intros shard. rewrite Hdom1, lookup_empty, elem_of_upto.
    split; [intros [[? [=]]|?]; done|by right].
  - done.
  - intros shard. rewrite Hlen, occurrences_upto, length_upto.
    unfold getl. rewrite lookup_empty. simpl. case_decide; lia.
Qed.

(** What a publishing invocation remembers. *)
Lemma assignRolesCallback_published `{MapOrderOk} `{Jsonpb} a st encodedServerStates w
    res st' w' :
  assignRolesCallback a st encodedServerStates w = (res, st', w') →
  version st' ≠ version st →
  goodAssignment (oldRoles st')
  ∧ mastersAgree (oldRoles st') (oldMasters st')
  ∧ (∀ shard, is_Some (oldMasters st' !! shard) ↔ shard < NumShards (sharder a))
  ∧ replicasAgree (oldRoles st') (oldReplicas st')
  ∧ (∀ shard,
       length (getl (oldReplicas st') shard)
       = if decide (shard < NumShards (sharder a))
         then N.to_nat (NumReplicas (sharder a)) else 0%nat).
Proof.
  intros Hrun Hnew.
  apply assignRolesCallback_cases in Hrun
    as [(Hkept & _)|(budget & newServerStates & newRoles & shardLocations & st1 & w1
                     & newRoles' & newMasters & newReplicas & Hbudget & Hdecode
                     & _ & _ & Hplace & _ & _ & ->)]; [done|].
  apply decodeServerStates_fresh in Hdecode as [Hfresh Hsize];
    [|intros ??; by rewrite lookup_empty].
  rewrite map_size_empty, length_range in Hsize. simpl.
  split.
  - eapply (place_good _ _ _ _ _ (len encodedServerStates)); [done| |done|done].
    unfold len. lia.
  - eapply (place_structure _ _ _ _ _ (len encodedServerStates)); [done| |done|done].
    unfold len. lia.
Qed.

(** X1.  In every assignment the [AssignRoles] callback publishes, each shard
    [0 .. NumShards-1] has exactly one master: the server that [oldMasters]
    records for it holds the shard as master and no other server does; and no
    server is master of a shard outside that range. *)
Theorem published_one_master_per_shard `{MapOrderOk} `{Jsonpb} a st
    encodedServerStates w res st' w' :
  assignRolesCallback a st encodedServerStates w = (res, st', w') →
  version st' ≠ version st →
  (∀ shard, shard < NumShards (sharder a) →
     ∃ id r,
       oldMasters st' !! shard = Some id
       ∧ oldRoles st' !! id = Some r
       ∧ holds (role_Masters r) shard
       ∧ ∀ id' r', oldRoles st' !! id' = Some r' →
           holds (role_Masters r') shard → id' = id)
  ∧ (∀ id r shard, oldRoles st' !! id = Some r →
       holds (role_Masters r) shard → shard < NumShards (sharder a)).
Proof.
  intros Hrun Hnew.
  destruct (assignRolesCallback_published _ _ _ _ _ _ _ Hrun Hnew)
    as (_ & Hagree & Hdom & _).
  split.
  - intros shard [id Hid]%Hdom.
    pose proof Hid as (r & Hr & Hholds)%Hagree.
    exists id, r. split_and!; [done..|].
    intros id' r' Hr' Hholds'.
    assert (oldMasters st' !! shard = Some id') as Hid' by (apply Hagree; eauto).
    congruence.
  - intros id r shard Hr Hholds. apply Hdom. exists id. apply Hagree. eauto.
Qed.

Lemma published_one_master_per_shard_witness :
  ∃ id r,
    oldMasters exampleSwapRun.1.2 !! 2 = Some id
    ∧ oldRoles exampleSwapRun.1.2 !! id = Some r
    ∧ holds (role_Masters r) 2
    ∧ ∀ id' r', oldRoles exampleSwapRun.1.2 !! id' = Some r' →
        holds (role_Masters r') 2 → id' = id.
Proof.
  destruct (published_one_master_per_shard
              (H0 := storedOrder_ok) (H1 := exampleJsonpb)
              (newDiscoveryAddresser (mkSharder 3 1) "test") newAssigner
              {[ "test/pfs/server/state/A" := "stateA";
                 "test/pfs/server/state/B" := "stateB";
                 "test/pfs/server/state/C" := "stateC" ]}
              emptyWorld
              exampleSwapRun.1.1 exampleSwapRun.1.2 exampleSwapRun.2)
    as [Hone _]; [vm_compute; reflexivity|vm_compute; discriminate|].
  apply (Hone 2). reflexivity.
Defined.

(** X2.  In every assignment the [AssignRoles] callback publishes, each shard
    [0 .. NumShards-1] has exactly [NumReplicas] replicas: [oldReplicas] lists
    that many servers for it, each once, they are exactly the servers whose
    role holds the shard as replica, and the master of the shard is not among
    them. *)
Theorem published_replicas_per_shard `{MapOrderOk} `{Jsonpb} a st
    encodedServerStates w res st' w' :
  assignRolesCallback a st encodedServerStates w = (res, st', w') →
  version st' ≠ version st →
  ∀ shard, shard < NumShards (sharder a) →
    length (getl (oldReplicas st') shard) = N.to_nat (NumReplicas (sharder a))
    ∧ NoDup (getl (oldReplicas st') shard)
    ∧ (∀ id, id ∈ getl (oldReplicas st') shard
             ↔ ∃ r, oldRoles st' !! id = Some r ∧ holds (role_Replicas r) shard)
    ∧ (∀ id, oldMasters st' !! shard = Some id →
             id ∉ getl (oldReplicas st') shard).
Proof.
  intros Hrun Hnew shard Hshard.
  destruct (assignRolesCallback_published _ _ _ _ _ _ _ Hrun Hnew)
    as ([_ _ Hdisjoint] & Hagree & _ & [Hlists Hnodup] & Hlen).
  split_and!.
  - by rewrite Hlen, decide_True.
  - apply Hnodup.
  - intros id. apply Hlists.
  - intros id (r & Hr & Hm)%Hagree (r' & Hr' & Hrep)%Hlists. simplify_eq.
    by apply (Hdisjoint id r shard).
Qed.

Lemma published_replicas_per_shard_witness :
  length (getl (oldReplicas exampleSwapRun.1.2) 2) = 1%nat
  ∧ NoDup (getl (oldReplicas exampleSwapRun.1.2) 2)
  ∧ (∀ id, id ∈ getl (oldReplicas exampleSwapRun.1.2) 2
           ↔ ∃ r, oldRoles exampleSwapRun.1.2 !! id = Some r
                  ∧ holds (role_Replicas r) 2)
  ∧ (∀ id, oldMasters exampleSwapRun.1.2 !! 2 = Some id →
           id ∉ getl (oldReplicas exampleSwapRun.1.2) 2).
Proof.
  apply (published_replicas_per_shard
           (H0 := storedOrder_ok) (H1 := exampleJsonpb)
           (newDiscoveryAddresser (mkSharder 3 1) "test") newAssigner
           {[ "test/pfs/server/state/A" := "stateA";
              "test/pfs/server/state/B" := "stateB";
              "test/pfs/server/state/C" := "stateC" ]}
           emptyWorld
           exampleSwapRun.1.1 exampleSwapRun.1.2 exampleSwapRun.2);
    [vm_compute; reflexivity|vm_compute; discriminate|reflexivity].
Defined.

(** ** Unchanged membership *)

(** X3.  [sameServers] compares the two snapshots by their sets of server
    ids only: it returns [true] exactly when both maps have the same ids,
    whatever the states say. *)
Theorem sameServers_same_ids `{MapOrderOk} oldServerStates newServerStates :
  sameServers oldServerStates newServerStates = true
  ↔ dom oldServerStates = dom newServerStates.
Proof.
  unfold sameServers, len.
  destruct (N.eqb_spec (N.of_nat (size oldServerStates))
              (N.of_nat (size newServerStates))) as [Hsize|Hsize]; simpl.
  - rewrite forallb_forall. split.
    + intros Hall. apply set_subseteq_size_eq.
      * intros id [s Hs]%elem_of_dom. apply elem_of_dom.
        apply (elem_of_range AtSameServers) in Hs.
        apply list_elem_of_In, Hall in Hs. by apply bool_decide_eq_true in Hs.
      * rewrite !size_dom. lia.
    + intros Hdom [id s] Hin%list_elem_of_In%elem_of_range. simpl.
      apply bool_decide_eq_true. apply elem_of_dom. rewrite <- Hdom.
      apply elem_of_dom. eauto.
  - split; [done|]. intros Hdom. exfalso. apply Hsize.
    by rewrite <- !(size_dom (D := gset string)), Hdom.
Qed.

Lemma sameServers_same_ids_witness :
  sameServers (H := storedOrder)
    {[ "A" := mkServerState "A" "hostA:650" 3 ∅ ]}
    {[ "A" := mkServerState "A" "hostA:651" 4 {[0 := true]} ]} = true.
Proof.
  apply (sameServers_same_ids (H0 := storedOrder_ok)).
  by rewrite !dom_singleton_L.
Defined.

(** X4.  When the snapshot decodes to the same set of server ids as
    [oldServerStates], the states remembered from the last invocation that
    published an assignment (an invocation that publishes nothing leaves
    them as they are), the [AssignRoles] callback writes nothing: it calls
    neither [Set] nor logs a write, its only events are those of collecting
    old roles, and the version counter and the remembered assignment stay as
    they were. *)
Theorem assignRoles_same_servers_no_write `{MapOrderOk} `{Jsonpb} a st
    encodedServerStates w newServerStates newRoles shardLocations :
  foldResult (decodeServerState (version st))
    (range AtDecode encodedServerStates) (∅, ∅, ∅)
    = Ok (newServerStates, newRoles, shardLocations) →
  dom newServerStates = dom (oldServerStates st) →
  ∃ events,
    trace (assignRolesCallback a st encodedServerStates w).2 = trace w ++ events
    ∧ Forall isCollect events
    ∧ version (assignRolesCallback a st encodedServerStates w).1.2 = version st
    ∧ oldRoles (assignRolesCallback a st encodedServerStates w).1.2 = oldRoles st
    ∧ oldMasters (assignRolesCallback a st encodedServerStates w).1.2 = oldMasters st
    ∧ oldReplicas (assignRolesCallback a st encodedServerStates w).1.2
      = oldReplicas st.
Proof.
  intros Hdecode Hdom. unfold assignRolesCallback.
  assert (∃ events, trace w = trace w ++ events ∧ Forall isCollect events
                    ∧ version st = version st ∧ oldRoles st = oldRoles st
                    ∧ oldMasters st = oldMasters st
                    ∧ oldReplicas st = oldReplicas st) as Hidle.
  { exists []. rewrite app_nil_r. split_and!; [done|constructor|done..]. }
  destruct (len encodedServerStates =? 0); [done|].
  destruct (budgets a (len encodedServerStates)) as [budget|e]; [|done].
  rewrite Hdecode.
  set (minVersion := minVersionOf _).
  destruct (collectRoles_keeps a st minVersion w) as (events & Htrace & HP & Hst1).
  destruct (collectRoles a st minVersion w) as [[collected st1] w1].
  simpl in Htrace, Hst1. subst st1. simpl.
  assert (sameServers (oldServerStates st) newServerStates = true) as ->
    by (by apply sameServers_same_ids).
  exists events. by destruct collected.
Qed.

Lemma assignRoles_same_servers_no_write_witness :
  ∃ events,
    trace (assignRolesCallback (H := storedOrder) (H0 := exampleJsonpb)
             exampleAddresser exampleRun.1.2 exampleSnapshot exampleRun.2).2
      = trace exampleRun.2 ++ events
    ∧ Forall isCollect events
    ∧ version (assignRolesCallback (H := storedOrder) (H0 := exampleJsonpb)
                 exampleAddresser exampleRun.1.2 exampleSnapshot exampleRun.2).1.2
      = version exampleRun.1.2
    ∧ oldRoles (assignRolesCallback (H := storedOrder) (H0 := exampleJsonpb)
                  exampleAddresser exampleRun.1.2 exampleSnapshot exampleRun.2).1.2
      = oldRoles exampleRun.1.2
    ∧ oldMasters (assignRolesCallback (H := storedOrder) (H0 := exampleJsonpb)
                    exampleAddresser exampleRun.1.2 exampleSnapshot exampleRun.2).1.2
      = oldMasters exampleRun.1.2
    ∧ oldReplicas (assignRolesCallback (H := storedOrder) (H0 := exampleJsonpb)
                     exampleAddresser exampleRun.1.2 exampleSnapshot exampleRun.2).1.2
      = oldReplicas exampleRun.1.2.
Proof.
  apply (assignRoles_same_servers_no_write (H0 := storedOrder_ok)
           (H1 := exampleJsonpb) exampleAddresser exampleRun.1.2 exampleSnapshot
           exampleRun.2 (oldServerStates exampleRun.1.2)
           (<[ "B" := mkServerRole "B" 1 ∅ ∅ ]> {[ "A" := mkServerRole "A" 1 ∅ ∅ ]})
           ∅);
    [vm_compute; reflexivity|reflexivity].
Defined.

(** ** The order of the writes of a publication *)

Lemma foldM_cons {A B} (f : B → A → M B) x l b w :
  foldM f (x :: l) b w
  = match f b x w with
    | (Ok b', w') => foldM f l b' w'
    | (Err e, w') => (Err e, w')
    end.
Proof. reflexivity. Qed.





(** ** Collecting old roles *)

Lemma emits_publish_writes `{MapOrder} `{Jsonpb} a version newServerStates newRoles :
  emits isWrite (publish a version newServerStates newRoles).
Proof.
  unfold publish.
  apply emits_bindM.
  { apply emits_foldM. intros shardToAddresses [id serverRole] _.
    unfold publishRole.
    apply emits_bindM; [apply emits_lift|]. intros encodedServerRole.
    apply emits_bindM; [by apply emits_clientSet|]. intros _.
    apply emits_bindM; [by apply emits_emit|]. intros _.
    apply emits_bindM; [apply emits_lift|]. intros withMasters. apply emits_lift. }
  intros shardToAddresses.
  apply emits_bindM; [apply emits_lift|]. intros encodedAddresses.
  apply emits_bindM; [by apply emits_clientSet|]. intros _.
  by apply emits_emit.
Qed.

(** The trace of an invocation: first the events of [collectRoles], then
    those of [publish]. *)
Lemma assignRolesCallback_trace `{MapOrder} `{Jsonpb} a st encodedServerStates w :
  ∃ collected written,
    trace (assignRolesCallback a st encodedServerStates w).2
      = trace w ++ collected ++ written
    ∧ Forall isWrite written
    ∧ (collected = []
       ∨ ∃ newServerStates newRoles shardLocations,
           foldResult (decodeServerState (version st))
             (range AtDecode encodedServerStates) (∅, ∅, ∅)
             = Ok (newServerStates, newRoles, shardLocations)
           ∧ trace (collectRoles a st
                      (minVersionOf
                         (state_Version <$> (range AtMinVersion newServerStates).*2))
                      w).2
             = trace w ++ collected).
Proof.
  unfold assignRolesCallback.
  assert (∃ collected written,
            trace w = trace w ++ collected ++ written ∧ Forall isWrite written
            ∧ (collected = []
               ∨ ∃ newServerStates newRoles shardLocations,
                   foldResult (decodeServerState (version st))
                     (range AtDecode encodedServerStates) (∅, ∅, ∅)
                     = Ok (newServerStates, newRoles, shardLocations)
                   ∧ trace (collectRoles a st
                              (minVersionOf
                                 (state_Version
                                    <$> (range AtMinVersion newServerStates).*2))
                              w).2
                     = trace w ++ collected)) as Hidle.
  { exists [], []. rewrite !app_nil_r. split_and!; [done|constructor|by left]. }
  destruct (len encodedServerStates =? 0); [done|].
  destruct (budgets a (len encodedServerStates)) as [budget|e]; [|done].
  destruct (foldResult _ _ _) as [[[newServerStates newRoles] shardLocations]|e]
    eqn:Hdecode; [|done].
  set (minVersion := minVersionOf _).
  destruct (collectRoles_keeps a st minVersion w) as (events1 & Htrace1 & _ & _).
  assert (∀ w2 events2,
            trace w2 = trace w ++ events1 ++ events2 → Forall isWrite events2 →
            ∃ collected written,
              trace w2 = trace w ++ collected ++ written ∧ Forall isWrite written
              ∧ (collected = []
                 ∨ ∃ newServerStates' newRoles' shardLocations',
                     Ok (newServerStates, newRoles, shardLocations)
                       = Ok (newServerStates', newRoles', shardLocations')
                     ∧ trace (collectRoles a st
                                (minVersionOf
                                   (state_Version
                                      <$> (range AtMinVersion newServerStates').*2))
                                w).2
                       = trace w ++ collected)) as Hwritten.
  { intros w2 events2 Htrace2 HP2. exists events1, events2.
    split_and!; [done..|]. right. by exists newServerStates, newRoles, shardLocations. }
  destruct (collectRoles a st minVersion w) as [[collected st1] w1] eqn:Hcollect.
  simpl in Htrace1.
  destruct collected as [[]|e].
  2: { apply (Hwritten _ []); [by rewrite app_nil_r|constructor]. }
  destruct (sameServers _ _).
  { apply (Hwritten _ []); [by rewrite app_nil_r|constructor]. }
  destruct (place _ _ _ _ _ _) as [[[newRoles' newMasters] newReplicas]|].
  2: { apply (Hwritten _ []); [by rewrite app_nil_r|constructor]. }
  destruct (emits_publish_writes a (version st1) newServerStates newRoles' w1)
    as (events2 & Htrace2 & HP2).
  destruct (publish a (version st1) newServerStates newRoles' w1) as [[[]|e] w2];
    simpl in *; apply (Hwritten _ events2); by rewrite ?Htrace2, ?Htrace1, <- ?app_assoc.
Qed.

Lemma minVersionOf_le versions v : v ∈ versions → (minVersionOf versions ≤ v)%Z.
Proof.
  unfold minVersionOf. generalize MaxInt64. intros acc Hin.
  assert (∀ l acc,
            (foldl (λ minVersion v, if (v <? minVersion)%Z then v else minVersion)
               acc l ≤ acc)%Z) as Hacc.
  { clear. intros l. induction l as [|x l IH]; intros acc; simpl; [lia|].
    specialize (IH (if (x <? acc)%Z then x else acc)).
    destruct (Z.ltb_spec x acc); lia. }
  revert acc. induction versions as [|x l IH]; intros acc;
    [by apply elem_of_nil in Hin|].
  simpl. apply elem_of_cons in Hin as [->|Hin]; [|by apply IH].
  pose proof (Hacc l (if (x <? acc)%Z then x else acc)).
  destruct (Z.ltb_spec x acc); lia.
Qed.

Lemma emits_bind_lift {A B} P (r : result A) (k : A → M B) :
  (∀ a, r = Ok a → emits P (k a)) → emits P (bindM (lift r) k).
Proof.
  intros Hk w. unfold bindM, lift. destruct r as [x|e].
  - by apply Hk.
  - exists []. by rewrite app_nil_r.
Qed.

Lemma collectRoles_deletes `{MapOrderOk} `{Jsonpb} a st minVersion w :
  ∃ events,
    trace (collectRoles a st minVersion w).2 = trace w ++ events
    ∧ ∀ key, EDelete key ∈ events → deletable a w minVersion key.
Proof.
  unfold collectRoles. destruct (oldMinVersion st <? minVersion)%Z.
  2: { exists []. rewrite app_nil_r. split; [done|]. by intros ? ?%elem_of_nil. }
  cbv beta iota zeta delta [bindM clientGetAll call readKv retM].
  destruct (fails w (EGetAll (serverRoleDir a))) as [e|].
  { exists [EGetAll (serverRoleDir a)]. split; [done|].
    by intros key [=]%list_elem_of_singleton. }
  cbn [kv].
  set (serverRoles := filter (λ entry : string * string,
                                String.prefix (serverRoleDir a) entry.1 = true)
                        (kv w)).
  set (w1 := mkWorld _ _ _).
  assert (emits (λ e, ∀ key, e = EDelete key → deletable a w minVersion key)
            (foldM (deleteOldRole minVersion) (range AtDeleteRoles serverRoles) tt))
    as Hemits.
  { apply emits_foldM. intros [] [key encoded] Hin%elem_of_range.
    apply map_lookup_filter_Some in Hin as [Hin Hprefix]. simpl in Hprefix.
    unfold deleteOldRole. apply emits_bind_lift. simpl. intros serverRole Hrole.
    destruct (Z.ltb_spec (role_Version serverRole) minVersion); [|apply emits_retM].
    apply emits_bindM.
    - apply emits_clientDelete. intros key' [= <-]. by exists encoded, serverRole.
    - intros _. by apply emits_emit. }
  destruct (Hemits w1) as (events & Htrace & HP).
  destruct (foldM _ _ tt w1) as [r w2]. simpl in Htrace.
  exists (EGetAll (serverRoleDir a) :: events). split.
  - simpl. rewrite Htrace. by rewrite <- app_assoc.
  - intros key [[=]|Hin]%elem_of_cons. rewrite Forall_forall in HP.
    by apply (HP _ Hin).
Qed.

(** X6.  The [AssignRoles] callback deletes only roles that no live server
    uses any more: every key it passes to [Delete] is a key of the role tree
    that was in the store when the callback began and holds a role whose
    version is below the version reported by every server of the snapshot.
    The remembered minimum never goes down. *)
Theorem assignRoles_deletes_only_unused `{MapOrderOk} `{Jsonpb} a st
    encodedServerStates w :
  ∃ events,
    trace (assignRolesCallback a st encodedServerStates w).2 = trace w ++ events
    ∧ (∀ key, EDelete key ∈ events →
         ∃ newServerStates newRoles shardLocations encoded serverRole,
           foldResult (decodeServerState (version st))
             (range AtDecode encodedServerStates) (∅, ∅, ∅)
             = Ok (newServerStates, newRoles, shardLocations)
           ∧ kv w !! key = Some encoded
           ∧ String.prefix (serverRoleDir a) key = true
           ∧ unmarshalServerRole encoded = Ok serverRole
           ∧ ∀ id serverState, newServerStates !! id = Some serverState →
               (role_Version serverRole < state_Version serverState)%Z)
    ∧ (oldMinVersion st
       ≤ oldMinVersion (assignRolesCallback a st encodedServerStates w).1.2)%Z.
Proof.
  destruct (assignRolesCallback_trace a st encodedServerStates w)
    as (collected & written & Htrace & Hwritten & Hcollected).
  exists (collected ++ written). split; [done|]. split.
  - intros key [Hin|Hin]%elem_of_app.
    2: { rewrite Forall_forall in Hwritten. by destruct (Hwritten _ Hin). }
    destruct Hcollected as [->|(newServerStates & newRoles & shardLocations
                                 & Hdecode & Htrace1)];
      [by apply elem_of_nil in Hin|].
    set (minVersion := minVersionOf _) in Htrace1.
    destruct (collectRoles_deletes a st minVersion w) as (events & Htrace2 & Hdel).
    rewrite Htrace1 in Htrace2. apply app_inv_head in Htrace2. subst events.
    destruct (Hdel key Hin) as (encoded & serverRole & Hkey & Hprefix & Hrole & Hlt).
    exists newServerStates, newRoles, shardLocations, encoded, serverRole.
    split_and!; [done..|]. intros id serverState Hstate.
    assert (minVersion ≤ state_Version serverState)%Z; [|lia].
    apply minVersionOf_le. apply list_elem_of_fmap. exists serverState.
    split; [done|]. apply list_elem_of_fmap. exists (id, serverState).
    split; [done|]. by apply elem_of_range.
  - destruct (assignRolesCallback a st encodedServerStates w) as [[res st'] w']
      eqn:Hrun.
    apply assignRolesCallback_cases in Hrun
      as [(_ & _ & _ & _ & _ & Hle & _)|(budget & newServerStates & newRoles
            & shardLocations & st1 & w1 & newRoles' & newMasters & newReplicas
            & _ & _ & Hcollect & _ & _ & _ & _ & ->)]; [done|].
    simpl. set (minVersion := minVersionOf _) in Hcollect.
    destruct (collectRoles_keeps a st minVersion w) as (_ & _ & _ & Hst1).
    rewrite Hcollect in Hst1. simpl in Hst1. rewrite Hst1. simpl. lia.
Qed.


Lemma assignRoles_deletes_only_unused_witness :
  (oldMinVersion newAssigner ≤ oldMinVersion exampleRun.1.2)%Z.
Proof.
  destruct (assignRoles_deletes_only_unused (H0 := storedOrder_ok)
              (H1 := exampleJsonpb) exampleAddresser newAssigner exampleSnapshot
              emptyWorld) as (events & _ & _ & Hle).
  exact Hle.
Defined.

(** ** From [publish] to the resolver *)

Lemma elem_of_range_keys `{MapOrderOk} `{Countable K} {V} (s : Site)
    (m : gmap K V) k :
  k ∈ (range s m).*1 ↔ is_Some (m !! k).
Proof.
  rewrite list_elem_of_fmap. split.
  - intros ([k' v] & -> & Hin%elem_of_range). by exists v.
  - intros [v Hv]. exists (k, v). split; [done|]. by apply elem_of_range.
Qed.

Lemma setMasterAddress_fold address l acc r :
  foldResult (setMasterAddress address) l acc = Ok r →
  dom r = dom acc
  ∧ ∀ shard,
      masterAt r shard
      = (if decide (shard ∈ l.*1) then Some address else masterAt acc shard)
      ∧ ∀ addr, replicaAt r shard addr = replicaAt acc shard addr.
Proof.
  revert acc. induction l as [|[shard' b] l IH]; intros acc Hr; simpl in Hr.
  { injection Hr as <-. split; [done|]. intros shard. split; [|done].
    rewrite decide_False; [done|]. apply not_elem_of_nil. }
  destruct (setMasterAddress address acc (shard', b)) as [acc'|] eqn:Hstep; [|done].
  unfold setMasterAddress in Hstep. simpl in Hstep.
  destruct (acc !! shard') as [sa|] eqn:Hsa; [|done]. injection Hstep as <-.
  apply IH in Hr as [Hdom Hr]. split.
  { rewrite Hdom, dom_insert_L. apply elem_of_dom_2 in Hsa.
    by apply subseteq_union_1_L, singleton_subseteq_l. }
  intros shard. destruct (Hr shard) as [Hmaster Hreplica]. split.
  - rewrite Hmaster. unfold masterAt. rewrite fmap_cons. simpl.
    destruct (decide (shard = shard')) as [->|Hne].
    + rewrite lookup_insert_eq. simpl.
      rewrite (decide_True (P := shard' ∈ shard' :: l.*1)) by left.
      by destruct (decide (shard' ∈ l.*1)).
    + rewrite lookup_insert_ne by done.
      destruct (decide (shard ∈ l.*1)) as [Hin|Hin].
      * rewrite decide_True; [done|by right].
      * rewrite decide_False; [done|]. by intros [?|?]%elem_of_cons.
  - intros addr. rewrite Hreplica. unfold replicaAt.
    destruct (decide (shard = shard')) as [->|Hne].
    + by rewrite lookup_insert_eq, Hsa.
    + by rewrite lookup_insert_ne.
Qed.

Lemma addReplicaAddress_fold address l acc r :
  foldResult (addReplicaAddress address) l acc = Ok r →
  dom r = dom acc
  ∧ ∀ shard,
      masterAt r shard = masterAt acc shard
      ∧ ∀ addr, is_Some (replicaAt r shard addr)
                ↔ is_Some (replicaAt acc shard addr)
                  ∨ (shard ∈ l.*1 ∧ addr = address).
Proof.
  revert acc. induction l as [|[shard' b] l IH]; intros acc Hr; simpl in Hr.
  { injection Hr as <-. split; [done|]. intros shard. split; [done|].
    intros addr. split; [by left|]. intros [?|[[]%elem_of_nil _]]. done. }
  destruct (addReplicaAddress address acc (shard', b)) as [acc'|] eqn:Hstep; [|done].
  unfold addReplicaAddress in Hstep. simpl in Hstep.
  destruct (acc !! shard') as [sa|] eqn:Hsa; [|done]. injection Hstep as <-.
  apply IH in Hr as [Hdom Hr]. split.
  { rewrite Hdom, dom_insert_L. apply elem_of_dom_2 in Hsa.
    by apply subseteq_union_1_L, singleton_subseteq_l. }
  intros shard. destruct (Hr shard) as [Hmaster Hreplica]. split.
  - rewrite Hmaster. unfold masterAt.
    destruct (decide (shard = shard')) as [->|Hne].
    + by rewrite lookup_insert_eq, Hsa.
    + by rewrite lookup_insert_ne.
  - intros addr. rewrite Hreplica, fmap_cons, elem_of_cons. simpl.
    unfold replicaAt.
    destruct (decide (shard = shard')) as [->|Hne].
    + rewrite lookup_insert_eq, Hsa. simpl.
      destruct (decide (addr = address)) as [->|Hne'].
      * rewrite lookup_insert_eq. split; [|by eauto]. intros _. right. by split; [left|].
      * rewrite lookup_insert_ne by done.
        split; [intros [?|[? ?]]|intros [?|[[?|?] ?]]]; auto; done.
    + rewrite lookup_insert_ne by done.
      split; [intros [?|[? ?]]|intros [?|[[?|?] ?]]]; auto; done.
Qed.

(** What one round of the loop of lines 324-344 does to the addresses. *)
Lemma publishRole_addresses `{MapOrderOk} `{Jsonpb} a version newServerStates
    acc id serverRole w r w' :
  publishRole a version newServerStates acc (id, serverRole) w = (Ok r, w') →
  dom r = dom acc
  ∧ ∀ shard,
      masterAt r shard
      = (if decide (is_Some (role_Masters serverRole !! shard))
         then Some (addressOf newServerStates id) else masterAt acc shard)
      ∧ ∀ addr, is_Some (replicaAt r shard addr)
                ↔ is_Some (replicaAt acc shard addr)
                  ∨ (is_Some (role_Replicas serverRole !! shard)
                     ∧ addr = addressOf newServerStates id).
Proof.
  cbv beta iota zeta delta [publishRole bindM lift clientSet call updateKv emit].
  fold (addressOf newServerStates id).
  destruct (marshalServerRole serverRole) as [value|e]; [|done].
  destruct (fails w _) as [e|]; [done|].
  destruct (foldResult (setMasterAddress _) _ _) as [withMasters|e] eqn:Hmasters;
    [|done].
  intros [= Hreplicas _].
  apply setMasterAddress_fold in Hmasters as [Hdom1 Hmasters].
  apply addReplicaAddress_fold in Hreplicas as [Hdom2 Hreplicas].
  split; [congruence|]. intros shard.
  destruct (Hmasters shard) as [Hm1 Hr1]. destruct (Hreplicas shard) as [Hm2 Hr2].
  split.
  - rewrite Hm2, Hm1.
    destruct (decide (shard ∈ _)) as [Hin|Hin], (decide (is_Some _)) as [Hin'|Hin'];
      try done; rewrite elem_of_range_keys in Hin; done.
  - intros addr. rewrite Hr2, Hr1, elem_of_range_keys. done.
Qed.

Lemma publishRoles_addresses `{MapOrderOk} `{Jsonpb} a version newServerStates
    entries acc w r w' :
  foldM (publishRole a version newServerStates) entries acc w = (Ok r, w') →
  dom r = dom acc
  ∧ ∀ shard,
      (∀ address,
         (∀ id serverRole, (id, serverRole) ∈ entries →
            is_Some (role_Masters serverRole !! shard) →
            addressOf newServerStates id = address) →
         (∃ id serverRole, (id, serverRole) ∈ entries
                           ∧ is_Some (role_Masters serverRole !! shard))
         ∨ masterAt acc shard = Some address →
         masterAt r shard = Some address)
      ∧ ∀ addr, is_Some (replicaAt r shard addr)
                ↔ is_Some (replicaAt acc shard addr)
                  ∨ ∃ id serverRole, (id, serverRole) ∈ entries
                      ∧ is_Some (role_Replicas serverRole !! shard)
                      ∧ addr = addressOf newServerStates id.
Proof.
  revert acc w. induction entries as [|[id serverRole] entries IH]; intros acc w Hr.
  { injection Hr as <- <-. split; [done|]. intros shard. split.
    - intros address _ [(? & ? & []%elem_of_nil & _)|?]. done.
    - intros addr. split; [by left|]. by intros [?|(? & ? & []%elem_of_nil & _)]. }
  rewrite foldM_cons in Hr.
  destruct (publishRole a version newServerStates acc (id, serverRole) w)
    as [[acc'|e] w1] eqn:Hstep; [|done].
  apply publishRole_addresses in Hstep as [Hdom1 Hstep].
  apply IH in Hr as [Hdom2 Hr]. split; [congruence|]. intros shard.
  destruct (Hstep shard) as [Hm1 Hr1]. destruct (Hr shard) as [Hm2 Hr2]. split.
  - intros address Hall Hsome. apply Hm2.
    { intros id' r' Hin. apply Hall. by right. }
    destruct (decide (is_Some (role_Masters serverRole !! shard))) as [Hhere|Hhere].
    + right. rewrite Hm1. f_equal. apply (Hall id serverRole); [by left|done].
    + destruct Hsome as [(id' & r' & [[= -> ->]|Hin]%elem_of_cons & Hshard)|Hacc].
      * done.
      * left. eauto.
      * right. by rewrite Hm1.
  - intros addr. rewrite Hr2, Hr1. split.
    + intros [[?|[? ?]]|(id' & r' & ? & ? & ?)]; [by left|right..].
      * exists id, serverRole. split_and!; [by left|done..].
      * exists id', r'. split_and!; [by right|done..].
    + intros [?|(id' & r' & [[= -> ->]|Hin]%elem_of_cons & ? & ?)].
      * by left; left.
      * left. right. done.
      * right. eauto.
Qed.

Lemma emptyAddresses_lookup l shard :
  foldl (λ acc shard, <[shard := mkShardAddresses "" ∅]> acc)
        (∅ : gmap N ShardAddresses) l !! shard
  = if decide (shard ∈ l) then Some (mkShardAddresses "" ∅) else None.
Proof.
  assert (∀ acc : gmap N ShardAddresses,
            foldl (λ acc shard, <[shard := mkShardAddresses "" ∅]> acc) acc l
              !! shard
            = if decide (shard ∈ l) then Some (mkShardAddresses "" ∅)
              else acc !! shard) as Hgen.
  { induction l as [|x l IH]; intros acc.
    - simpl. by destruct (decide (shard ∈ [])) as [[]%elem_of_nil|].
    - cbn [foldl]. rewrite IH. destruct (decide (shard ∈ l)) as [Hin|Hin].
      + rewrite decide_True; [done|by right].
      + destruct (decide (shard = x)) as [->|Hne].
        * rewrite lookup_insert_eq. rewrite decide_True; [done|by left].
        * rewrite lookup_insert_ne by done. rewrite decide_False; [done|].
          by intros [?|?]%elem_of_cons. }
  rewrite Hgen. by destruct (decide (shard ∈ l)).
Qed.

(** What a successful [publish] leaves in the store under the addresses
    key. *)
Lemma publish_stores `{MapOrderOk} `{Jsonpb} a version newServerStates newRoles
    w w' :
  publish a version newServerStates newRoles w = (Ok tt, w') →
  ∃ shardToAddresses value,
    marshalAddresses (mkAddresses version shardToAddresses) = Ok value
    ∧ kv w' !! addressesKey a version = Some value
    ∧ fails w' = fails w
    ∧ (∀ shard, is_Some (shardToAddresses !! shard)
                ↔ (shard < NumShards (sharder a))%N)
    ∧ (∀ shard id serverRole,
         newRoles !! id = Some serverRole →
         is_Some (role_Masters serverRole !! shard) →
         (∀ id' serverRole', newRoles !! id' = Some serverRole' →
            is_Some (role_Masters serverRole' !! shard) → id' = id) →
         masterAt shardToAddresses shard = Some (addressOf newServerStates id))
    ∧ (∀ shard addr,
         is_Some (replicaAt shardToAddresses shard addr)
         ↔ ∃ id serverRole, newRoles !! id = Some serverRole
             ∧ is_Some (role_Replicas serverRole !! shard)
             ∧ addr = addressOf newServerStates id).
Proof.
  unfold publish. set (empty := foldl _ _ _).
  unfold bindM at 1.
  destruct (foldM _ _ empty w) as [[shardToAddresses|e] w1] eqn:Hfold; [|done].
  assert (fails w1 = fails w) as Hfails.
  { clear -Hfold. revert Hfold. generalize empty. generalize w.
    induction (range AtPublish newRoles) as [|[id serverRole] entries IH];
      intros w0 acc Hfold.
    - by injection Hfold as _ <-.
    - rewrite foldM_cons in Hfold.
      destruct (publishRole a version newServerStates acc (id, serverRole) w0)
        as [[acc'|e] w2] eqn:Hstep; [|done].
      apply IH in Hfold. rewrite Hfold. revert Hstep.
      cbv beta iota zeta delta [publishRole bindM lift clientSet call updateKv emit].
      destruct (marshalServerRole serverRole); [|done].
      destruct (fails w0 _); [done|].
      destruct (foldResult (setMasterAddress _) _ _); [|done].
      by intros [= _ <-]. }
  apply publishRoles_addresses in Hfold as [Hdom Hfold].
  cbv beta iota zeta delta [bindM lift clientSet call updateKv emit].
  destruct (marshalAddresses _) as [value|e] eqn:Hvalue; [|done].
  destruct (fails w1 _) as [e|]; [done|].
  intros [= <-]. exists shardToAddresses, value. simpl.
  split_and!; [done|by rewrite lookup_insert_eq|done|..].
  - intros shard. rewrite <- elem_of_dom, Hdom, elem_of_dom.
    unfold empty. rewrite emptyAddresses_lookup, <- elem_of_upto.
    destruct (decide (shard ∈ upto (NumShards (sharder a)))); [by eauto|].
    split; [by intros []|done].
  - intros shard id serverRole Hrole Hshard Honly.
    destruct (Hfold shard) as [Hmaster _]. apply Hmaster.
    + intros id' r' Hin%elem_of_range Hshard'. f_equal. by eapply Honly.
    + left. exists id, serverRole. split; [by apply elem_of_range|done].
  - intros shard addr. destruct (Hfold shard) as [_ Hreplica].
    rewrite Hreplica. split.
    + intros [Hempty|(id & r & Hin%elem_of_range & ? & ?)]; [|by eauto].
      unfold replicaAt, empty in Hempty. rewrite emptyAddresses_lookup in Hempty.
      destruct (decide (shard ∈ _)); simpl in Hempty; by destruct Hempty.
    + intros (id & r & Hin & ? & ?). right. exists id, r.
      split; [by apply elem_of_range|done].
Qed.

Lemma roundTripJsonpb_round_trip : addressesRoundTrip (H := roundTripJsonpb).
Proof.
  intros addresses value. simpl.
  destruct (decide (addresses = examplePublished)) as [->|]; [|done].
  by intros [= <-].
Qed.

Lemma examplePublishRun_ok : examplePublishRun.1 = Ok tt.
Proof. vm_compute. reflexivity. Qed.

(** X7.  What [AssignRoles] publishes is what [GetMasterAddress] resolves:
    after a successful write of the assignment of a version, with a codec
    whose decoder undoes its encoder and a store that answers the [Get], the
    lookup of a shard mastered by exactly one server returns the address that
    server registered in its [ServerState], with [ok] true. *)
Theorem published_master_resolves `{MapOrderOk} `{Jsonpb} a version
    newServerStates newRoles w w' shard id serverRole :
  addressesRoundTrip →
  publish a version newServerStates newRoles w = (Ok tt, w') →
  addresses a !! version = None →
  fails w' (EGet (addressesKey a version)) = None →
  newRoles !! id = Some serverRole →
  is_Some (role_Masters serverRole !! shard) →
  (∀ id' serverRole', newRoles !! id' = Some serverRole' →
     is_Some (role_Masters serverRole' !! shard) → id' = id) →
  (GetMasterAddress a shard version w').1
  = Ok (addressOf newServerStates id, true).
Proof.
  intros Hcodec Hpublish Hmiss Hget Hrole Hshard Honly.
  apply publish_stores in Hpublish
    as (shardToAddresses & value & Hvalue & Hstored & _ & _ & Hmaster & _).
  unfold GetMasterAddress, bindM.
  rewrite (getAddresses_uncached a version w' Hmiss Hget), Hstored. simpl.
  rewrite (Hcodec _ _ Hvalue). simpl.
  specialize (Hmaster shard id serverRole Hrole Hshard Honly).
  unfold masterAt in Hmaster.
  destruct (shardToAddresses !! shard) as [shardAddresses|]; [|done].
  simpl in Hmaster. injection Hmaster as ->. done.
Qed.

Lemma published_master_resolves_witness :
  (GetMasterAddress (H := roundTripJsonpb)
     (newDiscoveryAddresser (mkSharder 1 1) "test") 0 0 examplePublishRun.2).1
  = Ok ("hostA:650", true).
Proof.
  apply (published_master_resolves (H0 := storedOrder_ok) (H1 := roundTripJsonpb)
           (newDiscoveryAddresser (mkSharder 1 1) "test") 0
           examplePublishedStates examplePublishedRoles emptyWorld
           examplePublishRun.2 0 "A" (mkServerRole "A" 0 {[0 := true]} ∅)).
  - exact roundTripJsonpb_round_trip.
  - vm_compute. reflexivity.
  - reflexivity.
  - vm_compute. reflexivity.
  - vm_compute. reflexivity.
  - vm_compute. eauto.
  - intros id' serverRole' Hrole Hshard. unfold examplePublishedRoles in Hrole.
    apply lookup_insert_Some in Hrole as [[<- _]|[_ Hrole]]; [done|].
    apply lookup_singleton_Some in Hrole as [_ <-].
    destruct Hshard as [b Hb]. simpl in Hb. by rewrite lookup_empty in Hb.
Defined.

(** X8.  What [AssignRoles] publishes is what [GetReplicaAddresses]
    resolves: after a successful write of the assignment of a version, the
    lookup of a shard below [NumShards] returns a set whose members are
    exactly the registered addresses of the servers whose role lists the shard
    among its replicas; for a shard from [NumShards] on it returns the
    shard-not-found error. *)
Theorem published_replicas_resolve `{MapOrderOk} `{Jsonpb} a version
    newServerStates newRoles w w' shard :
  addressesRoundTrip →
  publish a version newServerStates newRoles w = (Ok tt, w') →
  addresses a !! version = None →
  fails w' (EGet (addressesKey a version)) = None →
  if decide (shard < NumShards (sharder a))%N then
    ∃ replicas,
      (GetReplicaAddresses a shard version w').1 = Ok replicas
      ∧ ∀ addr, is_Some (replicas !! addr)
                ↔ ∃ id serverRole, newRoles !! id = Some serverRole
                    ∧ is_Some (role_Replicas serverRole !! shard)
                    ∧ addr = addressOf newServerStates id
  else (GetReplicaAddresses a shard version w').1 = Err (ErrShardNotFound shard).
Proof.
  intros Hcodec Hpublish Hmiss Hget.
  apply publish_stores in Hpublish
    as (shardToAddresses & value & Hvalue & Hstored & _ & Hdom & _ & Hreplica).
  unfold GetReplicaAddresses, bindM.
  rewrite (getAddresses_uncached a version w' Hmiss Hget), Hstored. simpl.
  rewrite (Hcodec _ _ Hvalue). simpl.
  specialize (Hdom shard). specialize (Hreplica shard). unfold replicaAt in Hreplica.
  destruct (decide (shard < NumShards (sharder a))%N) as [Hlt|Hge].
  - apply Hdom in Hlt as [shardAddresses Hlookup]. rewrite Hlookup in Hreplica |- *.
    by exists (sa_Replicas shardAddresses).
  - destruct (shardToAddresses !! shard) as [shardAddresses|] eqn:Hlookup; [|done].
    destruct Hge. apply Hdom. by eexists.
Qed.

Lemma published_replicas_resolve_witness :
  ∃ replicas,
    (GetReplicaAddresses (H := roundTripJsonpb)
       (newDiscoveryAddresser (mkSharder 1 1) "test") 0 0 examplePublishRun.2).1
    = Ok replicas
    ∧ is_Some (replicas !! "hostB:650").
Proof.
  pose proof (published_replicas_resolve (H0 := storedOrder_ok)
                (H1 := roundTripJsonpb)
                (newDiscoveryAddresser (mkSharder 1 1) "test") 0
                examplePublishedStates examplePublishedRoles emptyWorld
                examplePublishRun.2 0) as Hresolve.
  simpl in Hresolve.
  destruct Hresolve as (replicas & Hreplicas & Hmembers).
  - exact roundTripJsonpb_round_trip.
  - vm_compute. reflexivity.
  - reflexivity.
  - vm_compute. reflexivity.
  - exists replicas. split; [exact Hreplicas|]. apply Hmembers.
    exists "B", (mkServerRole "B" 0 ∅ {[0 := true]}).
    split_and!; [vm_compute; reflexivity|vm_compute; eauto|vm_compute; reflexivity].
Defined.


(** ** The registrar: what it adds and what it remembers *)

Lemma containsShard_false_iff `{MapOrderOk} roles shard :
  containsShard roles shard = false
  ↔ ∀ version serverRole, roles !! version = Some serverRole →
      hasShard serverRole shard = false.
Proof.
  split; [intros ???; by eapply containsShard_false|].
  intros Hnone. unfold containsShard.
  destruct (existsb _ _) eqn:Hsome; [|done].
  apply existsb_exists in Hsome as ([version serverRole] & Hin & Hhas).
  apply list_elem_of_In, elem_of_range in Hin.
  specialize (Hnone _ _ Hin). unfold hasShard in Hnone. simpl in Hhas. congruence.
Qed.

Lemma NoDup_range_keys `{MapOrderOk} `{Countable K} {V} (s : Site) (m : gmap K V) :
  NoDup (range s m).*1.
Proof.
  unfold range. rewrite (range_order_perm _ s (map_to_list m)).
  apply NoDup_fst_map_to_list.
Qed.

(** The copy loop of lines 698-701 rebuilds the map it ranges over. *)
Lemma copy_range `{MapOrderOk} `{Countable K} {V} (s : Site) (m : gmap K V) :
  foldl (λ acc entry, <[entry.1 := entry.2]> acc) ∅ (range s m) = m.
Proof.
  assert (∀ (l : list (K * V)) (acc : gmap K V) k,
            NoDup l.*1 →
            foldl (λ acc entry, <[entry.1 := entry.2]> acc) acc l !! k
            = match list_to_map (M := gmap K V) l !! k with
              | Some v => Some v
              | None => acc !! k
              end) as Hgen.
  { induction l as [|[k' v'] l IH]; intros acc k Hnodup; [done|].
    apply NoDup_cons in Hnodup as [Hfresh Hnodup]. cbn [foldl]. rewrite IH by done.
    simpl. destruct (decide (k = k')) as [->|Hne].
    - rewrite !lookup_insert_eq.
      by rewrite (not_elem_of_list_to_map_1 (M := gmap K)) by done.
    - rewrite !lookup_insert_ne by done. done. }
  apply map_eq. intros k. rewrite Hgen by apply NoDup_range_keys.
  rewrite lookup_empty.
  destruct (list_to_map (range s m) !! k) as [v|] eqn:Hv.
  - apply elem_of_list_to_map in Hv; [|apply NoDup_range_keys].
    symmetry. by apply elem_of_range in Hv.
  - destruct (m !! k) as [v|] eqn:Hm; [|done].
    apply (elem_of_range s) in Hm.
    apply (elem_of_list_to_map (M := gmap K)) in Hm; [|apply NoDup_range_keys].
    congruence.
Qed.

Lemma applyVersions_adds `{MapOrderOk} roles versions oldRoles w :
  ∃ applied,
    trace (applyVersions roles versions oldRoles w).2 = trace w ++ applied
    ∧ Forall isApply applied
    ∧ ∀ shard, EAddShard shard ∈ applied →
        containsShard oldRoles shard = false
        ∧ ∃ version, version ∈ versions ∧ oldRoles !! version = None
            ∧ shard ∈ shards (default (mkServerRole "" 0 ∅ ∅) (roles !! version)).
Proof.
  revert oldRoles w.
  induction versions as [|version rest IH]; intros oldRoles w; simpl.
  { exists []. rewrite app_nil_r. split_and!; [done|done|]. by intros ? ?%elem_of_nil. }
  destruct (oldRoles !! version) as [known|] eqn:Hknown.
  { destruct (IH oldRoles w) as (applied & Htrace & Happly & Hadds).
    exists applied. split_and!; [done..|].
    intros shard [Hnone (v & ? & ? & ?)]%Hadds. split; [done|].
    exists v. split_and!; [by right|done..]. }
  set (serverRole := default _ (roles !! version)).
  set (adds := EAddShard <$> _).
  assert (∀ shard, EAddShard shard ∈ adds →
            containsShard oldRoles shard = false ∧ shard ∈ shards serverRole)
    as Hhere.
  { intros shard (shard' & [= <-] & Hin%list_elem_of_filter)%list_elem_of_fmap.
    done. }
  unfold parallel, logged. simpl.
  destruct (head (omap _ _)) as [e|].
  { simpl. exists (ELogAddServerRole serverRole :: adds).
    rewrite <- app_assoc. split_and!; [done| |].
    - constructor; [done|]. apply Forall_fmap, Forall_true. done.
    - intros shard [[=]|[Hnone Hin]%Hhere]%elem_of_cons. split; [done|].
      exists version. split_and!; [by left|done..]. }
  match goal with |- context [applyVersions roles rest ?o ?w1] =>
    destruct (IH o w1) as (applied & Htrace & Happly & Hadds) end.
  exists (ELogAddServerRole serverRole :: adds ++ ESendVersion version :: applied).
  split_and!.
  - rewrite Htrace. simpl. by rewrite <- !app_assoc.
  - constructor; [done|]. apply Forall_app. split.
    + apply Forall_fmap, Forall_true. done.
    + by constructor.
  - intros shard [[=]|[Hin|[[=]|Hin]%elem_of_cons]%elem_of_app]%elem_of_cons.
    + apply Hhere in Hin as [Hnone Hin]. split; [done|].
      exists version. split_and!; [by left|done..].
    + apply Hadds in Hin as [Hnone (v & Hv & Hnew & Hin)].
      apply lookup_insert_None in Hnew as [Hnew _]. split.
      * apply containsShard_false_iff. intros v' r' Hold.
        rewrite containsShard_false_iff in Hnone. apply (Hnone v').
        rewrite lookup_insert_ne; [done|]. intros <-. congruence.
      * exists v. split_and!; [by right|done..].
Qed.

(** X9.  The [fillRoles] callback calls [AddShard] only for a shard that no
    role it remembers holds, and that belongs to the role of a version of
    the snapshot it does not remember yet. *)
Theorem fillRoles_adds_only_new_shards `{MapOrderOk} `{Jsonpb} oldRoles
    encodedServerRoles w roles versions :
  foldResult decodeServerRole (range AtFillDecode encodedServerRoles) (∅, [])
    = Ok (roles, versions) →
  ∃ events,
    trace (fillRolesCallback oldRoles encodedServerRoles w).2 = trace w ++ events
    ∧ ∀ shard, EAddShard shard ∈ events →
        (∀ version serverRole, oldRoles !! version = Some serverRole →
           hasShard serverRole shard = false)
        ∧ ∃ version serverRole,
            roles !! version = Some serverRole
            ∧ oldRoles !! version = None
            ∧ shard ∈ shards serverRole.
Proof.
  intros Hdecode. unfold fillRolesCallback. rewrite Hdecode.
  apply decodeServerRole_versions in Hdecode as [Hkeys _].
  destruct (applyVersions_adds roles (merge_sort Z.le versions) oldRoles w)
    as (applied & Htrace & _ & Hadds).
  assert (∀ shard, EAddShard shard ∈ applied →
            (∀ version serverRole, oldRoles !! version = Some serverRole →
               hasShard serverRole shard = false)
            ∧ ∃ version serverRole,
                roles !! version = Some serverRole
                ∧ oldRoles !! version = None
                ∧ shard ∈ shards serverRole) as Hadds'.
  { intros shard [Hnone (version & Hin & Hnew & Hshard)]%Hadds. split.
    - by apply containsShard_false_iff.
    - rewrite merge_sort_Permutation in Hin. apply Hkeys in Hin as [serverRole Hrole].
      rewrite Hrole in Hshard. by exists version, serverRole. }
  destruct (applyVersions roles (merge_sort Z.le versions) oldRoles w)
    as [[[addShardErr|] oldRoles1] w1]; simpl in Htrace.
  - by exists applied.
  - exists (applied ++ concat (expiredRole roles <$> range AtFillRemove oldRoles1)).
    simpl. rewrite Htrace, app_assoc. split; [done|].
    intros shard [Hin|Hin]%elem_of_app; [by apply Hadds'|].
    pose proof (expiredRole_removals roles (range AtFillRemove oldRoles1)) as Hremoved.
    rewrite Forall_forall in Hremoved. by destruct (Hremoved _ Hin).
Qed.

Lemma fillRoles_adds_only_new_shards_witness :
  ∃ events,
    trace (fillRolesCallback (H := storedOrder) (H0 := exampleJsonpb)
             exampleOldRoles exampleRoleSnapshot emptyWorld).2
      = trace emptyWorld ++ events
    ∧ ∀ shard, EAddShard shard ∈ events →
        ∀ version serverRole, exampleOldRoles !! version = Some serverRole →
          hasShard serverRole shard = false.
Proof.
  destruct (fillRoles_adds_only_new_shards (H0 := storedOrder_ok)
              (H1 := exampleJsonpb) exampleOldRoles exampleRoleSnapshot emptyWorld
              {[ 1%Z := mkServerRole "A" 1 {[1 := true]} {[2 := true]} ]} [1%Z])
    as (events & Htrace & Hadds); [vm_compute; reflexivity|].
  exists events. split; [exact Htrace|]. intros shard Hin. by apply Hadds.
Defined.

Lemma applyVersions_ok `{MapOrder} roles versions oldRoles w :
  (∀ shard, fails w (EAddShard shard) = None) →
  (applyVersions roles versions oldRoles w).1.1 = None.
Proof.
  revert oldRoles w.
  induction versions as [|version rest IH]; intros oldRoles w Hok; simpl; [done|].
  destruct (oldRoles !! version); [by apply IH|].
  unfold parallel, logged. simpl.
  assert (∀ shards : list N,
            omap (fails w) (filter (λ e, serverCall e = true) (EAddShard <$> shards))
            = []) as ->.
  { induction shards0 as [|shard shards0 IHs]; [done|].
    rewrite fmap_cons, filter_cons_True by done. simpl. by rewrite Hok. }
  simpl. by apply IH.
Qed.

Lemma applyVersions_known `{MapOrder} roles versions oldRoles w :
  (∀ v, v ∈ versions → is_Some (oldRoles !! v)) →
  applyVersions roles versions oldRoles w = (None, oldRoles, w).
Proof.
  induction versions as [|version rest IH]; intros Hknown; simpl; [done|].
  destruct (Hknown version) as [known ->]; [by left|].
  apply IH. intros v Hin. apply Hknown. by right.
Qed.

(** X10.  When no [AddShard] fails, the [fillRoles] callback ends up
    remembering exactly the roles of the snapshot, whether or not a
    [RemoveShard] failed; and a callback that starts from the roles of its
    snapshot does nothing: no log record, no shard call, no version sent, no
    error, and the remembered roles stay as they are. *)
Theorem fillRoles_catches_up `{MapOrderOk} `{Jsonpb} oldRoles encodedServerRoles
    w w' roles versions :
  foldResult decodeServerRole (range AtFillDecode encodedServerRoles) (∅, [])
    = Ok (roles, versions) →
  (∀ shard, fails w (EAddShard shard) = None) →
  (fillRolesCallback oldRoles encodedServerRoles w).1.2 = roles
  ∧ (fillRolesCallback roles encodedServerRoles w').1 = (None, roles)
  ∧ trace (fillRolesCallback roles encodedServerRoles w').2 = trace w'.
Proof.
  intros Hdecode Hok. unfold fillRolesCallback. rewrite Hdecode.
  apply decodeServerRole_versions in Hdecode as [Hkeys _]. split.
  - pose proof (applyVersions_ok roles (merge_sort Z.le versions) oldRoles w Hok)
      as Hnone.
    destruct (applyVersions roles (merge_sort Z.le versions) oldRoles w)
      as [[addShardErr oldRoles1] w1]. simpl in Hnone. subst addShardErr.
    simpl. apply copy_range.
  - rewrite applyVersions_known.
    2: { intros v Hin. rewrite merge_sort_Permutation in Hin. by apply Hkeys. }
    assert (concat (expiredRole roles <$> range AtFillRemove roles) = []) as ->.
    { assert (∀ entries : list (Z * ServerRole),
                (∀ entry, entry ∈ entries → roles !! entry.1 = Some entry.2) →
                concat (expiredRole roles <$> entries) = []) as Hnil.
      { induction entries as [|entry entries IH]; intros Hin; [done|].
        rewrite fmap_cons. cbn [concat].
        rewrite IH by (intros; apply Hin; by right).
        unfold expiredRole. by rewrite (Hin entry) by left. }
      apply Hnil. intros [v r] Hin. by apply elem_of_range in Hin. }
    unfold parallel. simpl. rewrite copy_range, app_nil_r. done.
Qed.

Lemma fillRoles_catches_up_witness :
  (fillRolesCallback (H := storedOrder) (H0 := exampleJsonpb)
     exampleOldRoles exampleRoleSnapshot emptyWorld).1.2
  = {[ 1%Z := mkServerRole "A" 1 {[1 := true]} {[2 := true]} ]}.
Proof.
  destruct (fillRoles_catches_up (H0 := storedOrder_ok) (H1 := exampleJsonpb)
              exampleOldRoles exampleRoleSnapshot emptyWorld emptyWorld
              {[ 1%Z := mkServerRole "A" 1 {[1 := true]} {[2 := true]} ]} [1%Z])
    as (Hremembered & _); [vm_compute; reflexivity|reflexivity|].
  exact Hremembered.
Defined.


(** ** The roler: open shards first *)

Lemma head_filter_Some {A} (P : A → Prop) `{∀ x, Decision (P x)} (l : list A) x :
  head (filter P l) = Some x →
  ∃ l1 l2, l = l1 ++ x :: l2 ∧ P x ∧ Forall (λ y, ¬ P y) l1.
Proof.
  induction l as [|y l IH]; [done|]. rewrite filter_cons.
  destruct (decide (P y)) as [Hy|Hy].
  - intros [= ->]. exists [], l. split_and!; [done|done|constructor].
  - intros (l1 & l2 & -> & Hx & Hnone)%IH. exists (y :: l1), l2.
    split_and!; [done|done|by constructor].
Qed.

Lemma head_filter_None {A} (P : A → Prop) `{∀ x, Decision (P x)} (l : list A) :
  head (filter P l) = None → Forall (λ y, ¬ P y) l.
Proof.
  induction l as [|y l IH]; [constructor|]. rewrite filter_cons.
  destruct (decide (P y)) as [Hy|Hy]; [done|]. intros ?%IH. by constructor.
Qed.

(** X11.  [openShard] returns the least shard of [0 .. NumShards-1] that has
    no master, and reports none exactly when every shard of the range has
    one. *)
Theorem openShard_least r shardToMasterAddress :
  match openShard r shardToMasterAddress with
  | Some shard =>
    (0 ≤ shard < rolerNumShards r)%Z
    ∧ shardToMasterAddress !! shard = None
    ∧ ∀ i, (0 ≤ i < shard)%Z → is_Some (shardToMasterAddress !! i)
  | None =>
    ∀ i, (0 ≤ i < rolerNumShards r)%Z → is_Some (shardToMasterAddress !! i)
  end.
Proof.
  unfold openShard.
  destruct (head _) as [shard|] eqn:Hhead.
  - apply head_filter_Some in Hhead as (l1 & l2 & Hsplit & Hopen & Htaken).
    assert (seqZ 0 (rolerNumShards r) !! length l1 = Some shard) as Hat.
    { rewrite Hsplit. by apply list_lookup_middle. }
    apply lookup_seqZ in Hat as [Hshard Hlt].
    split; [lia|]. split; [done|]. intros i Hi.
    assert (seqZ 0 (rolerNumShards r) !! Z.to_nat i = Some i) as Hi'.
    { apply lookup_seqZ. lia. }
    rewrite Hsplit, lookup_app_l in Hi' by lia.
    apply list_elem_of_lookup_2 in Hi'. rewrite Forall_forall in Htaken.
    apply Htaken in Hi'. by apply not_eq_None_Some.
  - apply head_filter_None in Hhead. rewrite Forall_forall in Hhead.
    intros i Hi. apply not_eq_None_Some, Hhead, elem_of_seqZ. lia.
Qed.

(** X12.  One iteration of the roler's loop claims at most one shard.
    Either it yields with nothing done, or it calls [server.Master] once: for
    the open shard [openShard] found, taking it from nobody, or, when no
    shard is open, for a shard whose master it names as the one stolen from.
    The goroutine that holds the address is started only after
    [server.Master] succeeded; when it fails the iteration returns its
    error. *)
Theorem runIteration_one_claim `{MapOrderOk} r shardToMasterAddress w :
  runIteration r (Ok shardToMasterAddress) w = (Continue, w)
  ∨ ∃ shard stolenFrom,
      (openShard r shardToMasterAddress = Some shard ∧ stolenFrom = ""
       ∨ openShard r shardToMasterAddress = None
         ∧ shardToMasterAddress !! shard = Some stolenFrom)
      ∧ match fails w (EMaster shard) with
        | Some e =>
          (runIteration r (Ok shardToMasterAddress) w).1 = Return e
          ∧ trace (runIteration r (Ok shardToMasterAddress) w).2
            = trace w ++ [EMaster shard]
        | None =>
          (runIteration r (Ok shardToMasterAddress) w).1 = Continue
          ∧ trace (runIteration r (Ok shardToMasterAddress) w).2
            = trace w ++ [EMaster shard;
                          EGoHoldMasterAddress shard (localAddress r) stolenFrom]
        end.
Proof.
  assert (∀ shard stolenFrom,
            match fails w (EMaster shard) with
            | Some e =>
              (claim r shard stolenFrom w).1 = Return e
              ∧ trace (claim r shard stolenFrom w).2 = trace w ++ [EMaster shard]
            | None =>
              (claim r shard stolenFrom w).1 = Continue
              ∧ trace (claim r shard stolenFrom w).2
                = trace w ++ [EMaster shard;
                              EGoHoldMasterAddress shard (localAddress r) stolenFrom]
            end) as Hclaim.
  { intros shard stolenFrom. unfold claim, call.
    destruct (fails w (EMaster shard)); simpl; [done|].
    by rewrite <- app_assoc. }
  unfold runIteration.
  destruct (_ <? getCount _ _)%Z; [by left|].
  destruct (openShard r shardToMasterAddress) as [shard|] eqn:Hopen.
  { right. exists shard, "". split; [by left|]. apply Hclaim. }
  destruct (maxCount _) as [maxAddress max].
  destruct (_ <? _)%Z; [by left|].
  destruct (randomShard maxAddress shardToMasterAddress) as [shard|] eqn:Hrandom;
    [|by left].
  right. exists shard, maxAddress. split; [|apply Hclaim].
  right. split; [done|]. by apply randomShard_Some.
Qed.

Lemma runIteration_one_claim_witness :
  trace (runIteration (H := storedOrder) exampleRoler (Ok exampleOpenMasters)
           emptyWorld).2
  = [EMaster 1; EGoHoldMasterAddress 1 "hostC" ""].
Proof.
  destruct (runIteration_one_claim (H0 := storedOrder_ok) exampleRoler
              exampleOpenMasters emptyWorld)
    as [Hidle|(shard & stolenFrom & [[Hopen ->]|[Hopen _]] & Hclaim)].
  - vm_compute in Hidle. discriminate Hidle.
  - vm_compute in Hopen. injection Hopen as <-. hnf in Hclaim.
    destruct Hclaim as [_ Hclaim]. exact Hclaim.
  - vm_compute in Hopen. discriminate Hopen.
Defined.


(** ** [WaitForAvailability] *)

Lemma collectVersion_None l : foldl collectVersion None l = None.
Proof. by induction l. Qed.

Lemma collectVersion_fold (l : list (string * ServerState)) (acc : gmap Z bool) :
  match foldl collectVersion (Some acc) l with
  | Some versions =>
    Forall (λ entry, state_Version entry.2 ≠ (-1)%Z) l
    ∧ ∀ v, versions !! v
           = if decide (v ∈ (λ entry, state_Version entry.2) <$> l)
             then Some true else acc !! v
  | None => Exists (λ entry, state_Version entry.2 = (-1)%Z) l
  end.
Proof.
  revert acc. induction l as [|entry l IH]; intros acc.
  { simpl. split; [constructor|]. intros v.
    by destruct (decide (v ∈ [])) as [[]%elem_of_nil|]. }
  cbn [foldl]. unfold collectVersion at 2. simpl.
  destruct (Z.eqb_spec (state_Version entry.2) (-1)) as [Hunset|Hset].
  { rewrite collectVersion_None. by left. }
  specialize (IH (<[state_Version entry.2 := true]> acc)).
  destruct (foldl collectVersion _ l) as [versions|]; [|by right].
  destruct IH as [Hall Hversions]. split; [by constructor|].
  intros v. rewrite Hversions.
  change (list_fmap _ _ ?f l) with (f <$> l).
  destruct (decide (v ∈ (λ entry, state_Version entry.2) <$> l)) as [Hin|Hin].
  - rewrite decide_True; [done|by right].
  - destruct (decide (v = state_Version entry.2)) as [->|Hne].
    + rewrite lookup_insert_eq. rewrite decide_True; [done|by left].
    + rewrite lookup_insert_ne by done. rewrite decide_False; [done|].
      by intros [?|?]%elem_of_cons.
Qed.

(** The versions seen by the loop of lines 418-423 are those of the
    registered states. *)
Lemma elem_of_state_versions `{MapOrderOk} (s : Site)
    (serverStates : gmap string ServerState) v :
  v ∈ (λ entry : string * ServerState, state_Version entry.2) <$> range s serverStates
  ↔ ∃ id serverState, serverStates !! id = Some serverState
      ∧ state_Version serverState = v.
Proof.
  rewrite list_elem_of_fmap. split.
  - intros ([id serverState] & -> & Hin%elem_of_range). by exists id, serverState.
  - intros (id & serverState & Hin & <-). exists (id, serverState).
    split; [done|]. by apply elem_of_range.
Qed.

Lemma waitCallback_Complete_inv `{MapOrderOk} `{Jsonpb} atDecode atVersions a ids
    encodedServerStatesAndRoles :
  waitCallback atDecode atVersions a ids encodedServerStatesAndRoles = Complete →
  ∃ serverStates serverRoles version,
    foldResult (decodeStateOrRole a)
      (range atDecode encodedServerStatesAndRoles) (∅, [])
      = Ok (serverStates, serverRoles)
    ∧ size serverStates = length ids
    ∧ (∀ id, id ∈ ids → is_Some (serverStates !! id))
    ∧ serverStates ≠ ∅
    ∧ version ≠ (-1)%Z
    ∧ (∀ id serverState, serverStates !! id = Some serverState →
         state_Version serverState = version)
    ∧ (∀ serverRole, serverRole ∈ serverRoles → role_Version serverRole = version).
Proof.
  unfold waitCallback.
  destruct (foldResult _ _ _) as [[serverStates serverRoles]|e]; [|done].
  destruct (Nat.eqb_spec (size serverStates) (length ids)) as [Hsize|]; [|done].
  simpl. destruct (forallb _ ids) eqn:Hids; [|done]. simpl.
  pose proof (collectVersion_fold (range atVersions serverStates) ∅) as Hfold.
  destruct (foldl collectVersion _ _) as [versions|]; [|done].
  destruct Hfold as [Hset Hversions].
  destruct (Nat.eqb_spec (size versions) 1) as [Hone|]; [|done]. simpl.
  destruct (forallb _ serverRoles) eqn:Hroles; [|done]. intros _.
  rewrite <- size_dom in Hone. apply size_1_elem_of in Hone as [version Hone].
  assert (∀ v, (∃ id serverState, serverStates !! id = Some serverState
                                  ∧ state_Version serverState = v) ↔ v = version)
    as Hsame.
  { intros v. rewrite <- (elem_of_state_versions atVersions).
    rewrite <- (elem_of_singleton (C := gset Z)), <- Hone, elem_of_dom, Hversions.
    destruct (decide (v ∈ _)); [by split; eauto|].
    rewrite lookup_empty. split; [done|by intros []]. }
  destruct (proj2 (Hsame version) eq_refl) as (id0 & state0 & Hstate0 & Hversion0).
  exists serverStates, serverRoles, version. split_and!; [done|done|..].
  - intros id Hin. rewrite forallb_forall in Hids.
    apply list_elem_of_In, Hids, bool_decide_eq_true in Hin. done.
  - intros ->. by rewrite lookup_empty in Hstate0.
  - rewrite Forall_forall in Hset. rewrite <- Hversion0.
    apply (Hset (id0, state0)). by apply elem_of_range.
  - intros id serverState Hstate. apply Hsame. eauto.
  - intros serverRole Hin. rewrite forallb_forall in Hroles.
    apply list_elem_of_In, Hroles in Hin. unfold getb in Hin.
    rewrite Hversions in Hin.
    destruct (decide (role_Version serverRole ∈ _)) as [Hseen|]; [|done].
    apply elem_of_state_versions in Hseen. by apply Hsame.
Qed.

(** X13.  The watch callback of [WaitForAvailability] reports completion
    exactly when the snapshot decodes, there are as many registered states as
    awaited ids, every awaited id has a registered state, some server is
    registered, all states carry one and the same version other than [-1],
    and every role found in the server tree is of that version. *)
Theorem waitForAvailability_complete `{MapOrderOk} `{Jsonpb} atDecode atVersions
    a ids encodedServerStatesAndRoles :
  waitCallback atDecode atVersions a ids encodedServerStatesAndRoles = Complete
  ↔ ∃ serverStates serverRoles version,
      foldResult (decodeStateOrRole a)
        (range atDecode encodedServerStatesAndRoles) (∅, [])
        = Ok (serverStates, serverRoles)
      ∧ size serverStates = length ids
      ∧ (∀ id, id ∈ ids → is_Some (serverStates !! id))
      ∧ serverStates ≠ ∅
      ∧ version ≠ (-1)%Z
      ∧ (∀ id serverState, serverStates !! id = Some serverState →
           state_Version serverState = version)
      ∧ (∀ serverRole, serverRole ∈ serverRoles →
           role_Version serverRole = version).
Proof.
  split; [apply waitCallback_Complete_inv|].
  intros (serverStates & serverRoles & version & Hdecode & Hsize & Hids & Hsome
          & Hset & Hstates & Hroles).
  unfold waitCallback. rewrite Hdecode, Hsize, Nat.eqb_refl. simpl.
  assert (forallb (λ id, bool_decide (is_Some (serverStates !! id))) ids = true)
    as ->.
  { apply forallb_forall. intros id Hin%list_elem_of_In.
    by apply bool_decide_eq_true, Hids. }
  simpl.
  pose proof (collectVersion_fold (range atVersions serverStates) ∅) as Hfold.
  destruct (foldl collectVersion _ _) as [versions|].
  2: { apply Exists_exists in Hfold as ([id serverState] & Hin%elem_of_range & Hunset).
       simpl in Hunset. apply Hstates in Hin. congruence. }
  destruct Hfold as [_ Hversions].
  assert (versions !! version = Some true) as Hversion.
  { rewrite Hversions. rewrite decide_True; [done|].
    apply elem_of_state_versions.
    apply map_choose in Hsome as (id & serverState & Hstate).
    exists id, serverState. split; [done|by eapply Hstates]. }
  assert (dom versions = {[version]}) as Hdom.
  { apply set_eq. intros v. rewrite elem_of_dom, elem_of_singleton, Hversions.
    destruct (decide (v ∈ _)) as [Hin|Hin].
    - apply elem_of_state_versions in Hin as (id & serverState & Hstate & <-).
      split; [intros _; by eapply Hstates|by eauto].
    - rewrite lookup_empty. split; [by intros []|].
      intros ->. rewrite Hversions, decide_False, lookup_empty in Hversion; done. }
  rewrite <- size_dom, Hdom, size_singleton. simpl.
  assert (forallb (λ serverRole, getb versions (role_Version serverRole))
            serverRoles = true) as ->; [|done].
  apply forallb_forall. intros serverRole Hin%list_elem_of_In.
  unfold getb. by rewrite (Hroles _ Hin), Hversion.
Qed.

Lemma waitForAvailability_complete_witness :
  waitCallback (H := storedOrder) (H0 := exampleJsonpb) AtDecode AtVersion
    exampleAddresser ["A"] exampleAvailable = Complete.
Proof.
  apply (waitForAvailability_complete (H0 := storedOrder_ok) (H1 := exampleJsonpb)
           AtDecode AtVersion exampleAddresser ["A"] exampleAvailable).
  exists {[ "A" := mkServerState "A" "hostA:650" 3 ∅ ]}, [], 3%Z.
  split_and!.
  - vm_compute. reflexivity.
  - reflexivity.
  - intros id ->%list_elem_of_singleton. vm_compute. eauto.
  - vm_compute. discriminate.
  - discriminate.
  - intros id serverState [<- <-]%lookup_singleton_Some. reflexivity.
  - intros serverRole []%elem_of_nil.
Defined.

(** X14.  Waiting for no server never completes: with an empty list of
    ids the callback of [WaitForAvailability] never reports completion,
    whatever the snapshot.  With a list of ids without repetition, completion
    means that the servers that have registered are exactly the awaited
    ones. *)
Theorem waitForAvailability_awaited `{MapOrderOk} `{Jsonpb} atDecode atVersions
    a ids encodedServerStatesAndRoles :
  (ids = [] →
   waitCallback atDecode atVersions a ids encodedServerStatesAndRoles ≠ Complete)
  ∧ (NoDup ids →
     waitCallback atDecode atVersions a ids encodedServerStatesAndRoles = Complete →
     ∃ serverStates serverRoles,
       foldResult (decodeStateOrRole a)
         (range atDecode encodedServerStatesAndRoles) (∅, [])
         = Ok (serverStates, serverRoles)
       ∧ dom serverStates = list_to_set ids).
Proof.
  split.
  - intros -> (serverStates & ? & ? & _ & Hsize & _ & Hsome & _)%waitCallback_Complete_inv.
    by apply map_size_empty_iff in Hsize.
  - intros Hnodup (serverStates & serverRoles & ? & Hdecode & Hsize & Hids & _)%waitCallback_Complete_inv.
    exists serverStates, serverRoles. split; [done|].
    symmetry. apply (set_subseteq_size_eq (C := gset string)).
    + intros id Hin%elem_of_list_to_set. by apply elem_of_dom, Hids.
    + by rewrite size_dom, Hsize, size_list_to_set.
Qed.

Lemma waitForAvailability_awaited_witness :
  waitCallback (H := storedOrder) (H0 := exampleJsonpb) AtDecode AtVersion
    exampleAddresser [] exampleAvailable ≠ Complete.
Proof.
  apply (waitForAvailability_awaited (H0 := storedOrder_ok) (H1 := exampleJsonpb)
           AtDecode AtVersion exampleAddresser [] exampleAvailable).
  reflexivity.
Defined.


(** ** Paths *)

(** The examples of the documentation of [path.Clean] and [path.Join]. *)
Example pathClean_examples :
  pathClean "a/c" = "a/c"
  ∧ pathClean "a//c" = "a/c"
  ∧ pathClean "a/c/." = "a/c"
  ∧ pathClean "a/c/b/.." = "a/c"
  ∧ pathClean "/../a/c" = "/a/c"
  ∧ pathClean "/../a/b/../././/c" = "/a/c"
  ∧ pathClean "" = "."
  ∧ pathClean "../../a" = "../../a"
  ∧ pathClean "a/../.." = ".."
  ∧ pathClean "/" = "/".
Proof. repeat split; vm_compute; reflexivity. Qed.

Example pathJoin_examples :
  pathJoin "a" "b/c" = "a/b/c"
  ∧ pathJoin "a/b" "/c" = "a/b/c"
  ∧ pathJoin "a/b" "../../../xyz" = "../xyz"
  ∧ pathJoin "" "" = ""
  ∧ pathJoin "a" "" = "a"
  ∧ pathJoin "" "a" = "a".
Proof. repeat split; vm_compute; reflexivity. Qed.

Lemma string_app_cons c (s t : string) : String c s +:+ t = String c (s +:+ t).
Proof. reflexivity. Qed.

Lemma string_app_assoc (s t u : string) : (s +:+ t) +:+ u = s +:+ (t +:+ u).
Proof.
  induction s as [|c s IH]; [done|]. rewrite !string_app_cons. by rewrite IH.
Qed.

Lemma prefix_app (s t : string) : String.prefix s (s +:+ t) = true.
Proof.
  induction s as [|c s IH]; [by destruct t|]. rewrite string_app_cons. simpl.
  by destruct (Ascii.ascii_dec c c).
Qed.

Lemma prefix_app_same (s t u : string) :
  String.prefix (s +:+ t) (s +:+ u) = String.prefix t u.
Proof.
  induction s as [|c s IH]; [done|]. rewrite !string_app_cons. simpl.
  by destruct (Ascii.ascii_dec c c).
Qed.

Lemma prefix_both (d x y key : string) :
  String.prefix (d +:+ x) key = true → String.prefix (d +:+ y) key = true →
  ∃ key', String.prefix x key' = true ∧ String.prefix y key' = true.
Proof.
  revert key. induction d as [|c d IH]; intros key;
    [intros Hx Hy; exists key; split; [exact Hx|exact Hy]|].
  rewrite !string_app_cons. destruct key as [|c' key]; simpl; [done|].
  destruct (Ascii.ascii_dec c c'); [|done]. apply IH.
Qed.

Lemma prefix_cons_inv a s b t :
  String.prefix (String a s) (String b t) = true →
  a = b ∧ String.prefix s t = true.
Proof. simpl. by destruct (Ascii.ascii_dec a b). Qed.

Lemma splitSlash_cons c rest :
  splitSlash (String c rest)
  = if decide (String c EmptyString = "/") then EmptyString :: splitSlash rest
    else match splitSlash rest with
         | [] => [String c EmptyString]
         | element :: elements => String c element :: elements
         end.
Proof. reflexivity. Qed.

Lemma splitSlash_nonempty path : splitSlash path ≠ [].
Proof.
  destruct path as [|c rest]; [done|]. rewrite splitSlash_cons.
  destruct (decide _); [done|]. by destruct (splitSlash rest).
Qed.

Lemma splitSlash_app p q :
  splitSlash (p +:+ "/" +:+ q) = splitSlash p ++ splitSlash q.
Proof.
  induction p as [|c p IH]; [reflexivity|].
  rewrite string_app_cons, !splitSlash_cons, IH.
  destruct (decide _); [done|].
  pose proof (splitSlash_nonempty p). by destruct (splitSlash p).
Qed.

Lemma joinSlash_cons element next rest :
  joinSlash (element :: next :: rest) = element +:+ "/" +:+ joinSlash (next :: rest).
Proof. reflexivity. Qed.

Lemma joinSlash_splitSlash path : joinSlash (splitSlash path) = path.
Proof.
  induction path as [|c rest IH]; [done|]. rewrite splitSlash_cons.
  pose proof (splitSlash_nonempty rest) as Hrest.
  destruct (splitSlash rest) as [|element elements]; [done|].
  destruct (decide _) as [Hslash|_].
  - rewrite joinSlash_cons, IH. injection Hslash as ->. reflexivity.
  - destruct elements as [|next elements].
    + simpl in IH. by rewrite <- IH.
    + rewrite joinSlash_cons in IH. rewrite joinSlash_cons, string_app_cons.
      by rewrite IH.
Qed.

Lemma cleanElement_clean rooted out element :
  cleanElem element = true → cleanElement rooted out element = element :: out.
Proof.
  intros (Hempty & Hdot & Hdots)%bool_decide_eq_true. unfold cleanElement.
  rewrite decide_False by (by intros [?|?]). by rewrite decide_False.
Qed.

Lemma foldl_cleanElement rooted out elements :
  forallb cleanElem elements = true →
  foldl (cleanElement rooted) out elements = rev elements ++ out.
Proof.
  revert out. induction elements as [|element elements IH]; intros out; [done|].
  simpl. intros [Helement Hrest]%andb_prop.
  rewrite cleanElement_clean, IH by done. by rewrite <- app_assoc.
Qed.

Lemma cleanPath_nonempty path : cleanPath path → path ≠ "".
Proof. by intros Hclean ->. Qed.

Lemma cleanPath_relative path : cleanPath path → String.prefix "/" path = false.
Proof.
  destruct path as [|c rest]; [done|]. unfold cleanPath.
  rewrite splitSlash_cons. destruct (decide _) as [|Hc]; [done|]. intros _.
  destruct (String.prefix "/" (String c rest)) eqn:Hprefix; [|done].
  destruct Hc. apply prefix_cons_inv in Hprefix as [<- _]. reflexivity.
Qed.

(** [path.Clean] leaves a clean relative path as it is. *)
Lemma pathClean_clean path : cleanPath path → pathClean path = path.
Proof.
  intros Hclean. unfold pathClean.
  rewrite (cleanPath_relative _ Hclean), (foldl_cleanElement _ _ _ Hclean).
  rewrite app_nil_r, rev_involutive, joinSlash_splitSlash.
  change ("" +:+ path) with path.
  rewrite decide_False; [done|]. by apply cleanPath_nonempty.
Qed.

Lemma cleanPath_app p q : cleanPath p → cleanPath q → cleanPath (p +:+ "/" +:+ q).
Proof.
  unfold cleanPath. intros Hp Hq. by rewrite splitSlash_app, forallb_app, Hp, Hq.
Qed.

(** [path.Join] of clean relative paths puts a slash between them. *)
Lemma pathJoin_clean dir name :
  cleanPath dir → cleanPath name → pathJoin dir name = dir +:+ "/" +:+ name.
Proof.
  intros Hdir Hname. unfold pathJoin.
  rewrite decide_False by (by apply cleanPath_nonempty).
  by apply pathClean_clean, cleanPath_app.
Qed.

(** The decimal numeral of an integer is a clean path of one element. *)
Lemma plainString_split s : plainString s → splitSlash s = [s].
Proof.
  induction s as [|c rest IH]; [done|]. intros (Hslash & _ & Hrest).
  rewrite splitSlash_cons, decide_False by done. by rewrite IH.
Qed.

Lemma plainString_clean s : s ≠ "" → plainString s → cleanPath s.
Proof.
  intros Hs Hplain. unfold cleanPath. rewrite plainString_split by done.
  simpl. rewrite andb_true_r. apply bool_decide_eq_true.
  split; [done|]. destruct s as [|c rest]; [done|].
  destruct Hplain as (_ & Hdot & _). split.
  - intros [= -> _]. by destruct Hdot.
  - intros [= -> _]. by destruct Hdot.
Qed.

Lemma plainString_app s t : plainString s → plainString t → plainString (s +:+ t).
Proof.
  induction s as [|c s IH]; [done|]. rewrite string_app_cons.
  intros (? & ? & ?) ?. split_and!; [done..|by apply IH].
Qed.

Lemma pretty_N_char_plain x : plainString (String (pretty_N_char x) EmptyString).
Proof. unfold pretty_N_char. by repeat case_match. Qed.

Lemma pretty_N_go_plain x s :
  plainString s → plainString (pretty_N_go x s)
                  ∧ (s ≠ "" → pretty_N_go x s ≠ "").
Proof.
  revert s. induction (N.lt_wf_0 x) as [x _ IH]; intros s Hs.
  assert (x = 0 ∨ 0 < x)%N as [->|Hpos] by lia.
  - by rewrite pretty_N_go_0.
  - rewrite pretty_N_go_step by done.
    destruct (IH (x `div` 10)%N) with (s := String (pretty_N_char (x `mod` 10)) s)
      as [Hplain Hne].
    + by apply N.div_lt.
    + destruct (pretty_N_char_plain (x `mod` 10)) as (? & ? & _). by split_and!.
    + split; [done|]. intros _. by apply Hne.
Qed.

Lemma pretty_N_plain (x : N) : plainString (pretty x) ∧ pretty x ≠ "".
Proof.
  unfold pretty, pretty_N. destruct (decide (x = 0)%N) as [->|Hx]; [by split|].
  rewrite pretty_N_go_step by lia.
  destruct (pretty_N_go_plain (x `div` 10)%N
              (String (pretty_N_char (x `mod` 10)) EmptyString)) as [Hplain Hne].
  { apply pretty_N_char_plain. }
  split; [done|by apply Hne].
Qed.

Lemma cleanPath_pretty (version : Z) : cleanPath (pretty version).
Proof.
  unfold pretty, pretty_Z. destruct version as [|p|p].
  - reflexivity.
  - destruct (pretty_N_plain (N.pos p)). by apply plainString_clean.
  - destruct (pretty_N_plain (N.pos p)) as [Hplain _].
    apply plainString_clean; [done|]. by apply (plainString_app "-").
Qed.

(** ** The layout of the store *)

Section layout.
Variable a : discoveryAddresser.
Hypothesis cleanNamespace : cleanPath (namespace a).

Lemma cleanPath_serverDir : cleanPath (serverDir a).
Proof. by apply (cleanPath_app (namespace a) "pfs/server"). Qed.

Lemma cleanPath_addressesDir : cleanPath (addressesDir a).
Proof. by apply (cleanPath_app (namespace a) "pfs/roles"). Qed.

Lemma serverStateDir_clean : serverStateDir a = serverDir a +:+ "/state".
Proof. by apply pathJoin_clean; [apply cleanPath_serverDir|]. Qed.

Lemma serverRoleDir_clean : serverRoleDir a = serverDir a +:+ "/role".
Proof. by apply pathJoin_clean; [apply cleanPath_serverDir|]. Qed.

Lemma cleanPath_serverStateDir : cleanPath (serverStateDir a).
Proof.
  rewrite serverStateDir_clean.
  by apply (cleanPath_app (serverDir a) "state"); [apply cleanPath_serverDir|].
Qed.

Lemma cleanPath_serverRoleDir : cleanPath (serverRoleDir a).
Proof.
  rewrite serverRoleDir_clean.
  by apply (cleanPath_app (serverDir a) "role"); [apply cleanPath_serverDir|].
Qed.

Lemma serverStateKey_clean id :
  cleanPath id → serverStateKey a id = serverDir a +:+ "/state/" +:+ id.
Proof.
  intros Hid. unfold serverStateKey.
  rewrite pathJoin_clean by (done || apply cleanPath_serverStateDir).
  by rewrite serverStateDir_clean, string_app_assoc.
Qed.

Lemma serverRoleKey_clean id :
  cleanPath id → serverRoleKey a id = serverRoleDir a +:+ "/" +:+ id.
Proof.
  intros Hid. unfold serverRoleKey.
  by rewrite pathJoin_clean by (done || apply cleanPath_serverRoleDir).
Qed.

Lemma serverRoleKeyVersion_clean id version :
  cleanPath id →
  serverRoleKeyVersion a id version
  = serverRoleDir a +:+ "/" +:+ id +:+ "/" +:+ pretty version.
Proof.
  intros Hid. unfold serverRoleKeyVersion. rewrite serverRoleKey_clean by done.
  rewrite pathJoin_clean.
  - by rewrite !string_app_assoc.
  - by apply cleanPath_app; [apply cleanPath_serverRoleDir|].
  - apply cleanPath_pretty.
Qed.

Lemma addressesKey_clean version :
  addressesKey a version = addressesDir a +:+ "/" +:+ pretty version.
Proof.
  unfold addressesKey.
  by rewrite pathJoin_clean by (apply cleanPath_addressesDir || apply cleanPath_pretty).
Qed.

Lemma roleKey_under_roleDir id version :
  cleanPath id →
  String.prefix (serverRoleDir a) (serverRoleKeyVersion a id version) = true.
Proof. intros Hid. rewrite serverRoleKeyVersion_clean by done. apply prefix_app. Qed.

Lemma roleKey_outside_stateDir id version :
  cleanPath id →
  String.prefix (serverStateDir a) (serverRoleKeyVersion a id version) = false.
Proof.
  intros Hid.
  rewrite serverRoleKeyVersion_clean, serverRoleDir_clean, serverStateDir_clean
    by done.
  rewrite !string_app_assoc. by rewrite prefix_app_same.
Qed.

Lemma stateKey_outside_roleDir id :
  cleanPath id → String.prefix (serverRoleDir a) (serverStateKey a id) = false.
Proof.
  intros Hid. rewrite serverStateKey_clean, serverRoleDir_clean by done.
  by rewrite prefix_app_same.
Qed.

Lemma addressesKey_outside_serverDir version :
  String.prefix (serverDir a) (addressesKey a version) = false.
Proof.
  rewrite addressesKey_clean. unfold serverDir, addressesDir.
  rewrite !string_app_assoc. by rewrite prefix_app_same.
Qed.

Lemma addressesKey_outside_stateDir version :
  String.prefix (serverStateDir a) (addressesKey a version) = false.
Proof.
  rewrite addressesKey_clean, serverStateDir_clean. unfold serverDir, addressesDir.
  rewrite !string_app_assoc. by rewrite prefix_app_same.
Qed.

Lemma stateDir_outside_roleDir key :
  String.prefix (serverStateDir a) key = true →
  String.prefix (serverRoleDir a) key = false.
Proof.
  rewrite serverStateDir_clean, serverRoleDir_clean. intros Hstate.
  destruct (String.prefix (serverDir a +:+ "/role") key) eqn:Hrole; [|done].
  destruct (prefix_both _ _ _ _ Hstate Hrole) as (key' & Hs & Hr).
  destruct key' as [|c1 key']; [done|].
  apply prefix_cons_inv in Hs as [_ Hs]. apply prefix_cons_inv in Hr as [_ Hr].
  destruct key' as [|c2 key']; [done|].
  apply prefix_cons_inv in Hs as [<- _]. apply prefix_cons_inv in Hr as [Hc _].
  discriminate Hc.
Qed.

End layout.

(** An id that is not a clean path escapes the role tree: [path.Join]
    resolves its [..], and the role key of the server lies in the
    [ServerState] tree. *)
Example roleKey_of_unclean_id :
  serverRoleKeyVersion exampleAddresser "../state/x" 0 = "test/pfs/server/state/x/0"
  ∧ String.prefix (serverStateDir exampleAddresser)
      (serverRoleKeyVersion exampleAddresser "../state/x" 0) = true.
Proof. split; vm_compute; reflexivity. Qed.

(** X15.  The keys of the store keep apart, for a namespace and server ids
    that are clean relative paths (no empty, [.] or [..] element).  A role
    key is never under the [ServerState] directory and a state key never
    under the role directory; an addresses key is never under the server
    directory; and two versions never share an addresses key, nor a role key
    of the same server. *)
Theorem store_keys_apart a :
  cleanPath (namespace a) →
  (∀ id version,
     cleanPath id →
     String.prefix (serverStateDir a) (serverRoleKeyVersion a id version) = false)
  ∧ (∀ id, cleanPath id →
       String.prefix (serverRoleDir a) (serverStateKey a id) = false)
  ∧ (∀ version, String.prefix (serverDir a) (addressesKey a version) = false)
  ∧ (∀ version version',
       addressesKey a version = addressesKey a version' → version = version')
  ∧ (∀ id version version',
       cleanPath id →
       serverRoleKeyVersion a id version = serverRoleKeyVersion a id version' →
       version = version').
Proof.
  intros Hnamespace. split_and!.
  - by apply roleKey_outside_stateDir.
  - by apply stateKey_outside_roleDir.
  - by apply addressesKey_outside_serverDir.
  - intros version version'. rewrite !addressesKey_clean by done. intros Heq.
    by apply (inj (String.app _)), (inj (String.app _)), (inj pretty) in Heq.
  - intros id version version' Hid. rewrite !serverRoleKeyVersion_clean by done.
    intros Heq.
    by apply (inj (String.app _)), (inj (String.app _)), (inj (String.app _)),
      (inj (String.app _)), (inj pretty) in Heq.
Qed.

Lemma store_keys_apart_witness :
  String.prefix (serverStateDir exampleAddresser)
    (serverRoleKeyVersion exampleAddresser "A" 3) = false.
Proof.
  destruct (store_keys_apart exampleAddresser) as (Hrole & _);
    [vm_compute; reflexivity|].
  apply Hrole. vm_compute. reflexivity.
Defined.

(** ** What the assigner leaves alone *)

Lemma keepsOutside_retM {A} Q (x : A) : keepsOutside Q (retM x).
Proof. by intros w key _. Qed.

Lemma keepsOutside_lift {A} Q (r : result A) : keepsOutside Q (lift r).
Proof. by intros w key _. Qed.

Lemma keepsOutside_emit Q e : keepsOutside Q (emit e).
Proof. by intros w key _. Qed.

Lemma keepsOutside_call Q e : keepsOutside Q (call e).
Proof. intros w key _. unfold call. by destruct (fails w e). Qed.

Lemma keepsOutside_bindM {A B} Q (c : M A) (k : A → M B) :
  keepsOutside Q c → (∀ x, keepsOutside Q (k x)) → keepsOutside Q (bindM c k).
Proof.
  intros Hc Hk w key Hkey. unfold bindM. specialize (Hc w key Hkey).
  destruct (c w) as [[x|e] w1]; [|done]. simpl in Hc.
  by rewrite (Hk x w1 key Hkey).
Qed.

Lemma keepsOutside_foldM {A B} Q (f : B → A → M B) (l : list A) (b : B) :
  (∀ b x, x ∈ l → keepsOutside Q (f b x)) → keepsOutside Q (foldM f l b).
Proof.
  revert b. induction l as [|x l IH]; intros b Hf; simpl;
    [apply keepsOutside_retM|].
  apply keepsOutside_bindM; [apply Hf; by left|].
  intros b'. apply IH. intros ???. apply Hf. by right.
Qed.

Lemma keepsOutside_clientSet (Q : string → Prop) key value ttl :
  Q key → keepsOutside Q (clientSet key value ttl).
Proof.
  intros HQ w key' Hkey'. unfold clientSet, bindM, call, updateKv.
  destruct (fails w _); [done|]. simpl.
  rewrite lookup_insert_ne; [done|]. by intros ->.
Qed.

Lemma keepsOutside_clientDelete (Q : string → Prop) key :
  Q key → keepsOutside Q (clientDelete key).
Proof.
  intros HQ w key' Hkey'. unfold clientDelete, bindM, call, updateKv.
  destruct (fails w _); [done|]. simpl.
  rewrite lookup_delete_ne; [done|]. by intros ->.
Qed.

Lemma keepsOutside_publish `{MapOrderOk} `{Jsonpb} a version newServerStates
    newRoles :
  cleanPath (namespace a) →
  (∀ id, is_Some (newRoles !! id) → cleanPath id) →
  keepsOutside (assignerKey a version)
    (publish a version newServerStates newRoles).
Proof.
  intros Hnamespace Hids. unfold publish.
  apply keepsOutside_bindM.
  { apply keepsOutside_foldM. intros shardToAddresses [id serverRole] Hin%elem_of_range.
    unfold publishRole.
    apply keepsOutside_bindM; [apply keepsOutside_lift|]. intros encodedServerRole.
    apply keepsOutside_bindM.
    { apply keepsOutside_clientSet. left.
      apply roleKey_under_roleDir; [done|]. apply Hids. by eexists. }
    intros _.
    apply keepsOutside_bindM; [apply keepsOutside_emit|]. intros _.
    apply keepsOutside_bindM; [apply keepsOutside_lift|]. intros withMasters.
    apply keepsOutside_lift. }
  intros shardToAddresses.
  apply keepsOutside_bindM; [apply keepsOutside_lift|]. intros encodedAddresses.
  apply keepsOutside_bindM; [apply keepsOutside_clientSet; by right|]. intros _.
  apply keepsOutside_emit.
Qed.

Lemma collectRoles_keepsOutside `{MapOrderOk} `{Jsonpb} a st minVersion version
    w key :
  ¬ assignerKey a version key →
  kv (collectRoles a st minVersion w).2 !! key = kv w !! key.
Proof.
  intros Hkey. unfold collectRoles. destruct (oldMinVersion st <? minVersion)%Z;
    [|done].
  cbv beta iota zeta delta [bindM clientGetAll call readKv retM].
  destruct (fails w (EGetAll (serverRoleDir a))) as [e|]; [done|].
  cbn [kv].
  set (serverRoles := filter (λ entry : string * string,
                                String.prefix (serverRoleDir a) entry.1 = true)
                        (kv w)).
  set (w1 := mkWorld _ _ _).
  assert (keepsOutside (assignerKey a version)
            (foldM (deleteOldRole minVersion) (range AtDeleteRoles serverRoles) tt))
    as Hkeeps.
  { apply keepsOutside_foldM. intros [] [key' encoded] Hin%elem_of_range.
    apply map_lookup_filter_Some in Hin as [Hin Hprefix]. simpl in Hprefix.
    unfold deleteOldRole.
    apply keepsOutside_bindM; [apply keepsOutside_lift|]. intros serverRole.
    destruct (_ <? _)%Z; [|apply keepsOutside_retM].
    apply keepsOutside_bindM; [apply keepsOutside_clientDelete; by left|].
    intros _. apply keepsOutside_emit. }
  specialize (Hkeeps w1 key Hkey).
  destruct (foldM _ _ tt w1) as [r w2]. done.
Qed.

(** The placement gives roles to the servers it was handed, and to no
    other. *)
Lemma assignMaster_dom roles masters id shard perServer remainder :
  dom (assignMaster roles masters id shard perServer remainder).2.1.1 = dom roles.
Proof.
  destruct (assignMaster_cases roles masters id shard perServer remainder)
    as [[Heq _]|(r & Hid & _ & Heq)]; rewrite Heq; simpl; [done|].
  by apply dom_insert_lookup_L.
Qed.

Lemma tryAssignMaster_dom ids roles masters shard perServer remainder
    roles' masters' remainder' :
  tryAssignMaster ids roles masters shard perServer remainder
    = Some (roles', masters', remainder') →
  dom roles' = dom roles.
Proof.
  revert roles masters remainder.
  induction ids as [|id ids IH]; intros roles masters remainder Htry; [done|].
  simpl in Htry.
  pose proof (assignMaster_dom roles masters id shard perServer remainder) as Hdom.
  destruct (assignMaster roles masters id shard perServer remainder)
    as [ok [[roles1 masters1] remainder1]]; simpl in Hdom.
  destruct ok; [by simplify_eq|]. rewrite <- Hdom. by eapply IH.
Qed.

Lemma placeMasters_dom `{MapOrder} st shardLocations newServerStates perServer
    shards roles masters remainder roles' masters' remainder' :
  placeMasters st shardLocations newServerStates perServer shards
    roles masters remainder = Some (roles', masters', remainder') →
  dom roles' = dom roles.
Proof.
  revert roles masters remainder.
  induction shards as [|shard shards IH];
    intros roles masters remainder Hplace; simpl in Hplace; [by simplify_eq|].
  destruct (tryAssignMaster _ roles masters shard perServer remainder)
    as [[[roles1 masters1] remainder1]|] eqn:Htry; [|done].
  rewrite <- (tryAssignMaster_dom _ _ _ _ _ _ _ _ _ Htry). by eapply IH.
Qed.

Lemma sameMasters_dom roles0 roles : sameMasters roles0 roles → dom roles = dom roles0.
Proof.
  intros Hsame. apply set_eq. intros id. rewrite !elem_of_dom.
  by rewrite <- !(fmap_is_Some role_Masters), Hsame.
Qed.

Lemma place_dom `{MapOrderOk} st a shardLocations newServerStates newRoles
    servers budget roles' masters' replicas' :
  budgets a servers = Ok budget →
  (size newRoles ≤ N.to_nat servers)%nat →
  freshRoles newRoles →
  place st a shardLocations newServerStates newRoles budget
    = Some (roles', masters', replicas') →
  dom roles' = dom newRoles.
Proof.
  intros [Hservers ->]%budgets_Ok Hsize Hfresh. unfold place.
  set (numShards := NumShards (sharder a)).
  set (numReplicas := NumReplicas (sharder a)).
  destruct (placeMasters _ _ _ _ _ newRoles ∅ _)
    as [[[roles1 masters1] remainder1]|] eqn:Hmasters; [|done].
  destruct (placeReplicas _ _ _ masters1 _ _ _ roles1 ∅ _)
    as [[[roles2 replicas2] remainder2]|] eqn:Hreplicas; [|done].
  intros [= <- <- <-].
  assert (masterInv (N.to_nat (numShards / servers)) (N.to_nat (numShards mod servers))
            newRoles (numShards mod servers) 0) as Hstart.
  { split.
    - intros id r Hid. destruct (Hfresh id r Hid) as [Hm Hr].
      split; rewrite ?Hm, ?Hr; [apply setLike_empty..|].
      intros shard [Hheld _]. unfold holds, getb in Hheld.
      by rewrite lookup_empty in Hheld.
    - apply budgetInv_start. intros id r Hid. by destruct (Hfresh id r Hid).
    - intros id r Hid. by destruct (Hfresh id r Hid). }
  pose proof (placeMasters_inv _ _ _ _ _ _ _ _ _ _ _ _ _ Hstart Hmasters)
    as [Hok1 Hbudget1 Hnone1].
  set (wanted := wrap64 (numShards * numReplicas)) in *.
  assert (wanted < 2 ^ 64) as Hwanted by (apply N.mod_lt; lia).
  pose proof (N.div_mod wanted servers Hservers) as Hdm.
  assert (1 * (wanted / servers) ≤ servers * (wanted / servers)) as Hmul
    by (apply N.mul_le_mono_r; lia).
  assert (replicaInv (N.to_nat (wanted / servers)) (N.to_nat (wanted mod servers))
            roles1 roles1 (wanted mod servers) 0) as Hstart2.
  { split; [done| |done]. apply budgetInv_start. eauto. }
  assert (N.to_nat (wanted / servers) + N.to_nat (wanted mod servers)
          ≤ N.to_nat MaxUint64)%nat as Hroom.
  { unfold MaxUint64. clear -Hwanted Hdm Hmul. revert Hwanted Hdm Hmul.
    generalize (wanted / servers) (wanted mod servers) (servers * (wanted / servers)).
    intros q m sq ???. lia. }
  eapply placeReplicas_inv in Hreplicas; [|exact Hroom|exact Hstart2].
  destruct Hreplicas as [_ _ Hsame].
  rewrite (sameMasters_dom _ _ Hsame). by eapply placeMasters_dom.
Qed.

(** The ids of the decoded roles are those of the decoded states. *)
Lemma decodeServerStates_ids `{MapOrder} `{Jsonpb} version entries
    states roles locations states' roles' locations' id :
  foldResult (decodeServerState version) entries (states, roles, locations)
    = Ok (states', roles', locations') →
  is_Some (roles' !! id) →
  is_Some (roles !! id)
  ∨ ∃ entry serverState,
      entry ∈ entries ∧ unmarshalServerState entry.2 = Ok serverState
      ∧ state_Id serverState = id.
Proof.
  revert states roles locations.
  induction entries as [|entry entries IH]; intros states roles locations; simpl.
  { intros [= <- <- <-] Hid. by left. }
  destruct (unmarshalServerState entry.2) as [serverState|e] eqn:Hentry; simpl;
    [|done].
  intros Hfold Hid. destruct (IH _ _ _ Hfold Hid) as [Hhere|(entry' & s & ? & ? & ?)].
  - apply lookup_insert_is_Some in Hhere as [<-|[_ ?]]; [|by left].
    right. exists entry, serverState. split_and!; [by left|done..].
  - right. exists entry', s. split_and!; [by right|done..].
Qed.

(** X16.  For a namespace and server ids that are clean relative paths,
    the [AssignRoles] callback changes the store only in the role tree and
    at the addresses key of its current version: every other key reads
    afterwards as it did before.  In particular the [ServerState] entries,
    which the callback is fed from and which [Version] reads, are left as
    they were.  (The id of a server is the one its decoded [ServerState]
    carries; with an id such as [../state/x] the role key lies outside the
    role tree, see [roleKey_of_unclean_id].) *)
Theorem assignRoles_writes_only_assignment `{MapOrderOk} `{Jsonpb} a st
    encodedServerStates w :
  cleanPath (namespace a) →
  (∀ key encoded serverState,
     encodedServerStates !! key = Some encoded →
     unmarshalServerState encoded = Ok serverState →
     cleanPath (state_Id serverState)) →
  (∀ key, ¬ assignerKey a (version st) key →
     kv (assignRolesCallback a st encodedServerStates w).2 !! key = kv w !! key)
  ∧ stateEntries a (assignRolesCallback a st encodedServerStates w).2
    = stateEntries a w.
Proof.
  intros Hnamespace Hids.
  assert (∀ key, ¬ assignerKey a (version st) key →
            kv (assignRolesCallback a st encodedServerStates w).2 !! key
            = kv w !! key) as Hframe.
  { intros key Hkey.
    destruct (assignRolesCallback a st encodedServerStates w) as [[res st'] w']
      eqn:Hrun. simpl.
    unfold assignRolesCallback in Hrun.
    destruct (len encodedServerStates =? 0); [by injection Hrun as _ _ <-|].
    destruct (budgets a (len encodedServerStates)) as [budget|e] eqn:Hbudget;
      [|by injection Hrun as _ _ <-].
    destruct (foldResult _ _ _) as [[[newServerStates newRoles] shardLocations]|e]
      eqn:Hdecode; [|by injection Hrun as _ _ <-].
    set (minVersion := minVersionOf _) in Hrun.
    pose proof (collectRoles_keepsOutside a st minVersion (version st) w key Hkey)
      as Hcollect.
    destruct (collectRoles_keeps a st minVersion w) as (_ & _ & _ & Hst1).
    destruct (collectRoles a st minVersion w) as [[collected st1] w1].
    simpl in Hcollect, Hst1.
    destruct collected as [[]|e]; [|by injection Hrun as _ _ <-].
    destruct (sameServers _ _); [by injection Hrun as _ _ <-|].
    destruct (place _ _ _ _ _ _) as [[[newRoles' newMasters] newReplicas]|]
      eqn:Hplace; [|by injection Hrun as _ _ <-].
    assert (version st1 = version st) as Hversion by (by rewrite Hst1).
    assert (∀ id, is_Some (newRoles' !! id) → cleanPath id) as Hclean.
    { intros id Hid.
      pose proof Hdecode as Hfresh.
      apply decodeServerStates_fresh in Hfresh as [Hfresh Hsize];
        [|intros ??; by rewrite lookup_empty].
      rewrite map_size_empty, length_range in Hsize.
      assert (size newRoles ≤ N.to_nat (len encodedServerStates))%nat as Hsize'
        by (unfold len; lia).
      apply elem_of_dom in Hid.
      rewrite (place_dom _ _ _ _ _ _ _ _ _ _ Hbudget Hsize' Hfresh Hplace) in Hid.
      apply elem_of_dom in Hid.
      destruct (decodeServerStates_ids _ _ _ _ _ _ _ _ id Hdecode Hid)
        as [Hnone|([key' encoded] & serverState & Hin%elem_of_range & Hstate & <-)].
      - rewrite lookup_empty in Hnone. by destruct Hnone.
      - by eapply Hids. }
    pose proof (keepsOutside_publish a (version st1) newServerStates newRoles'
                  Hnamespace Hclean w1 key) as Hpublish.
    rewrite Hversion in Hpublish at 1. specialize (Hpublish Hkey).
    destruct (publish a (version st1) newServerStates newRoles' w1) as [[[]|e] w2];
      injection Hrun as _ _ <-; simpl in Hpublish; congruence. }
  split; [done|].
  unfold stateEntries. apply map_eq. intros key. apply option_eq. intros value.
  rewrite !map_lookup_filter_Some. simpl.
  assert (String.prefix (serverStateDir a) key = true →
          kv (assignRolesCallback a st encodedServerStates w).2 !! key = kv w !! key)
    as Hstate.
  { intros Hprefix. apply Hframe. intros [Hrole| ->].
    - apply stateDir_outside_roleDir in Hprefix; [congruence|done].
    - rewrite addressesKey_outside_stateDir in Hprefix; done. }
  split; intros [Hvalue Hprefix]; (split; [|done]);
    [by rewrite <- Hstate|by rewrite Hstate].
Qed.

Lemma exampleSnapshot_clean key encoded serverState :
  exampleSnapshot !! key = Some encoded →
  unmarshalServerState (Jsonpb := exampleJsonpb) encoded = Ok serverState →
  cleanPath (state_Id serverState).
Proof.
  unfold exampleSnapshot.
  intros [[_ <-]|[_ [_ <-]%lookup_singleton_Some]]%lookup_insert_Some;
    vm_compute; by intros [= <-].
Qed.

Lemma assignRoles_writes_only_assignment_witness :
  stateEntries exampleAddresser exampleRun.2 = stateEntries exampleAddresser emptyWorld.
Proof.
  destruct (assignRoles_writes_only_assignment (H0 := storedOrder_ok)
              (H1 := exampleJsonpb) exampleAddresser newAssigner exampleSnapshot
              emptyWorld) as [_ Hstates].
  - vm_compute. reflexivity.
  - exact exampleSnapshot_clean.
  - exact Hstates.
Defined.

(** ** The assigner raises no error of its own *)

Lemma collaboratorError_fails `{Jsonpb} w w' e :
  fails w' = fails w → collaboratorError w' e → collaboratorError w e.
Proof. unfold collaboratorError. by intros ->. Qed.

Lemma failsFrom_retM `{Jsonpb} {A} (x : A) : failsFrom (retM x).
Proof. by intros w. Qed.

Lemma failsFrom_emit `{Jsonpb} e : failsFrom (emit e).
Proof. by intros w. Qed.

Lemma failsFrom_call `{Jsonpb} e : failsFrom (call e).
Proof.
  intros w. unfold call. destruct (fails w e) as [err|] eqn:Hfails; [|done].
  split; [done|]. intros e' [= <-]. left. by exists e.
Qed.

Lemma failsFrom_updateKv `{Jsonpb} f : failsFrom (updateKv f).
Proof. by intros w. Qed.

Lemma failsFrom_readKv `{Jsonpb} : failsFrom readKv.
Proof. by intros w. Qed.

Lemma failsFrom_bindM `{Jsonpb} {A B} (c : M A) (k : A → M B) :
  failsFrom c → (∀ x, failsFrom (k x)) → failsFrom (bindM c k).
Proof.
  intros Hc Hk w. unfold bindM. destruct (Hc w) as [Hfails Herr].
  destruct (c w) as [[x|e] w1]; simpl in *.
  2: { split; [exact Hfails|]. intros e' [= <-]. by apply Herr. }
  destruct (Hk x w1) as [Hfails' Herr']. split; [congruence|].
  intros e He. eapply collaboratorError_fails; [exact Hfails|by apply Herr'].
Qed.

Lemma failsFrom_lift `{Jsonpb} {A} (r : result A) :
  (∀ e w, r = Err e → collaboratorError w e) → failsFrom (lift r).
Proof. intros Hr w. split; [done|]. intros e He. by apply Hr. Qed.

Lemma failsFrom_foldM `{Jsonpb} {A B} (f : B → A → M B) (l : list A) (b : B) :
  (∀ b x, failsFrom (f b x)) → failsFrom (foldM f l b).
Proof.
  revert b. induction l as [|x l IH]; intros b Hf; simpl; [apply failsFrom_retM|].
  apply failsFrom_bindM; [apply Hf|]. intros b'. by apply IH.
Qed.

Lemma failsFrom_clientSet `{Jsonpb} key value ttl : failsFrom (clientSet key value ttl).
Proof.
  unfold clientSet. apply failsFrom_bindM; [apply failsFrom_call|].
  intros _. apply failsFrom_updateKv.
Qed.

Lemma failsFrom_clientDelete `{Jsonpb} key : failsFrom (clientDelete key).
Proof.
  unfold clientDelete. apply failsFrom_bindM; [apply failsFrom_call|].
  intros _. apply failsFrom_updateKv.
Qed.

Lemma failsFrom_clientGetAll `{Jsonpb} prefix : failsFrom (clientGetAll prefix).
Proof.
  unfold clientGetAll. apply failsFrom_bindM; [apply failsFrom_call|]. intros _.
  apply failsFrom_bindM; [apply failsFrom_readKv|]. intros store.
  apply failsFrom_retM.
Qed.

Lemma collectRoles_failsFrom `{MapOrder} `{Jsonpb} a st minVersion w :
  fails (collectRoles a st minVersion w).2 = fails w
  ∧ ∀ e, (collectRoles a st minVersion w).1.1 = Err e → collaboratorError w e.
Proof.
  unfold collectRoles. destruct (oldMinVersion st <? minVersion)%Z; [|done].
  assert (failsFrom (serverRoles <~ clientGetAll (serverRoleDir a) ;;
                     foldM (deleteOldRole minVersion)
                       (range AtDeleteRoles serverRoles) tt)) as Hfrom.
  { apply failsFrom_bindM; [apply failsFrom_clientGetAll|]. intros serverRoles.
    apply failsFrom_foldM. intros [] entry. unfold deleteOldRole.
    apply failsFrom_bindM.
    { apply failsFrom_lift. intros e w' He. right. right. left. eauto. }
    intros serverRole. destruct (_ <? _)%Z; [|apply failsFrom_retM].
    apply failsFrom_bindM; [apply failsFrom_clientDelete|]. intros _.
    apply failsFrom_emit. }
  specialize (Hfrom w). by destruct (bindM _ _ w) as [r w'].
Qed.

Lemma decodeServerState_error `{MapOrder} `{Jsonpb} version entries acc e :
  foldResult (decodeServerState version) entries acc = Err e →
  ∃ encoded, unmarshalServerState encoded = Err e.
Proof.
  revert acc. induction entries as [|entry entries IH]; intros acc; simpl; [done|].
  destruct acc as [[newServerStates newRoles] shardLocations]. simpl.
  destruct (unmarshalServerState entry.2) as [serverState|e'] eqn:Hentry.
  - apply IH.
  - intros [= <-]. eauto.
Qed.

Lemma setMasterAddress_total address l (acc : gmap N ShardAddresses) :
  (∀ shard, shard ∈ l.*1 → is_Some (acc !! shard)) →
  ∃ r, foldResult (setMasterAddress address) l acc = Ok r.
Proof.
  revert acc. induction l as [|[shard b] l IH]; intros acc Hin; simpl; [by eauto|].
  unfold setMasterAddress at 1. simpl.
  destruct (Hin shard) as [shardAddresses ->]; [by left|].
  apply IH. intros shard' Hin'. rewrite lookup_insert_is_Some.
  destruct (decide (shard = shard')); [by left|right].
  split; [done|]. apply Hin. by right.
Qed.

Lemma addReplicaAddress_total address l (acc : gmap N ShardAddresses) :
  (∀ shard, shard ∈ l.*1 → is_Some (acc !! shard)) →
  ∃ r, foldResult (addReplicaAddress address) l acc = Ok r.
Proof.
  revert acc. induction l as [|[shard b] l IH]; intros acc Hin; simpl; [by eauto|].
  unfold addReplicaAddress at 1. simpl.
  destruct (Hin shard) as [shardAddresses ->]; [by left|].
  apply IH. intros shard' Hin'. rewrite lookup_insert_is_Some.
  destruct (decide (shard = shard')); [by left|right].
  split; [done|]. apply Hin. by right.
Qed.

Lemma publishRole_failsFrom `{MapOrderOk} `{Jsonpb} a version newServerStates
    acc id serverRole w :
  (∀ shard, is_Some (role_Masters serverRole !! shard)
            ∨ is_Some (role_Replicas serverRole !! shard) →
            is_Some (acc !! shard)) →
  fails (publishRole a version newServerStates acc (id, serverRole) w).2 = fails w
  ∧ ∀ e, (publishRole a version newServerStates acc (id, serverRole) w).1 = Err e →
         collaboratorError w e.
Proof.
  intros Hin.
  cbv beta iota zeta delta [publishRole bindM lift clientSet call updateKv emit].
  destruct (marshalServerRole serverRole) as [value|e] eqn:Hvalue.
  2: { split; [done|]. intros e' [= <-]. do 3 right. left. eauto. }
  destruct (fails w _) as [e|] eqn:Hfails.
  { split; [done|]. intros e' [= <-]. left. eauto. }
  destruct (setMasterAddress_total
              match newServerStates !! id with
              | Some serverState => state_Address serverState
              | None => ""
              end
              (range (AtPublishMasters id) (role_Masters serverRole)) acc)
    as [withMasters Hmasters].
  { intros shard Hshard%elem_of_range_keys. apply Hin. by left. }
  rewrite Hmasters.
  destruct (addReplicaAddress_total
              match newServerStates !! id with
              | Some serverState => state_Address serverState
              | None => ""
              end
              (range (AtPublishReplicas id) (role_Replicas serverRole)) withMasters)
    as [withReplicas Hreplicas].
  { intros shard Hshard%elem_of_range_keys.
    apply setMasterAddress_fold in Hmasters as [Hdom _].
    apply elem_of_dom. rewrite Hdom. apply elem_of_dom, Hin. by right. }
  rewrite Hreplicas. done.
Qed.

Lemma publishRoles_failsFrom `{MapOrderOk} `{Jsonpb} a version newServerStates
    entries acc w :
  (∀ id serverRole shard,
     (id, serverRole) ∈ entries →
     is_Some (role_Masters serverRole !! shard)
     ∨ is_Some (role_Replicas serverRole !! shard) →
     is_Some (acc !! shard)) →
  fails (foldM (publishRole a version newServerStates) entries acc w).2 = fails w
  ∧ ∀ e, (foldM (publishRole a version newServerStates) entries acc w).1 = Err e →
         collaboratorError w e.
Proof.
  revert acc w. induction entries as [|[id serverRole] entries IH]; intros acc w Hin;
    [done|].
  rewrite foldM_cons.
  destruct (publishRole_failsFrom a version newServerStates acc id serverRole w)
    as [Hfails Herr].
  { intros shard Hshard. apply (Hin id serverRole); [by left|done]. }
  destruct (publishRole a version newServerStates acc (id, serverRole) w)
    as [[acc'|e] w1] eqn:Hstep; simpl in *; [|done].
  apply publishRole_addresses in Hstep as [Hdom _].
  destruct (IH acc' w1) as [Hfails' Herr'].
  { intros id' r' shard Hin' Hshard. apply elem_of_dom. rewrite Hdom.
    apply elem_of_dom. eapply Hin; [by right|done]. }
  split; [congruence|]. intros e He.
  eapply collaboratorError_fails; [exact Hfails|by apply Herr'].
Qed.

Lemma publish_failsFrom `{MapOrderOk} `{Jsonpb} a version newServerStates newRoles w :
  (∀ id serverRole shard,
     newRoles !! id = Some serverRole →
     is_Some (role_Masters serverRole !! shard)
     ∨ is_Some (role_Replicas serverRole !! shard) →
     shard < NumShards (sharder a)) →
  ∀ e, (publish a version newServerStates newRoles w).1 = Err e →
       collaboratorError w e.
Proof.
  intros Hbound. unfold publish. set (empty := foldl _ _ _).
  unfold bindM at 1.
  destruct (publishRoles_failsFrom a version newServerStates
              (range AtPublish newRoles) empty w) as [Hfails Herr].
  { intros id serverRole shard Hin%elem_of_range Hshard.
    unfold empty. rewrite emptyAddresses_lookup.
    rewrite decide_True; [done|]. apply elem_of_upto. by eapply Hbound. }
  destruct (foldM _ _ empty w) as [[shardToAddresses|e] w1]; simpl in *.
  2: { intros e' [= <-]. by apply Herr. }
  cbv beta iota zeta delta [bindM lift clientSet call updateKv emit].
  destruct (marshalAddresses _) as [value|e] eqn:Hvalue.
  2: { intros e' [= <-]. do 4 right. eauto. }
  destruct (fails w1 _) as [e|] eqn:Hcall; [|done].
  intros e' [= <-]. left. rewrite Hfails in Hcall. eauto.
Qed.

(** The maps of the roles [place] builds are used as sets. *)
Lemma place_rolesOk `{MapOrderOk} st a shardLocations newServerStates newRoles
    servers budget roles' masters' replicas' :
  budgets a servers = Ok budget →
  (size newRoles ≤ N.to_nat servers)%nat →
  freshRoles newRoles →
  place st a shardLocations newServerStates newRoles budget
    = Some (roles', masters', replicas') →
  rolesOk roles'.
Proof.
  intros [Hservers ->]%budgets_Ok Hsize Hfresh. unfold place.
  set (numShards := NumShards (sharder a)).
  set (numReplicas := NumReplicas (sharder a)).
  destruct (placeMasters _ _ _ _ _ newRoles ∅ _)
    as [[[roles1 masters1] remainder1]|] eqn:Hmasters; [|done].
  destruct (placeReplicas _ _ _ masters1 _ _ _ roles1 ∅ _)
    as [[[roles2 replicas2] remainder2]|] eqn:Hreplicas; [|done].
  intros [= <- <- <-].
  assert (masterInv (N.to_nat (numShards / servers)) (N.to_nat (numShards mod servers))
            newRoles (numShards mod servers) 0) as Hstart.
  { split.
    - intros id r Hid. destruct (Hfresh id r Hid) as [Hm Hr].
      split; rewrite ?Hm, ?Hr; [apply setLike_empty..|].
      intros shard [Hheld _]. unfold holds, getb in Hheld.
      by rewrite lookup_empty in Hheld.
    - apply budgetInv_start. intros id r Hid. by destruct (Hfresh id r Hid).
    - intros id r Hid. by destruct (Hfresh id r Hid). }
  pose proof (placeMasters_inv _ _ _ _ _ _ _ _ _ _ _ _ _ Hstart Hmasters)
    as [Hok1 Hbudget1 Hnone1].
  set (wanted := wrap64 (numShards * numReplicas)) in *.
  assert (wanted < 2 ^ 64) as Hwanted by (apply N.mod_lt; lia).
  pose proof (N.div_mod wanted servers Hservers) as Hdm.
  assert (1 * (wanted / servers) ≤ servers * (wanted / servers)) as Hmul
    by (apply N.mul_le_mono_r; lia).
  assert (replicaInv (N.to_nat (wanted / servers)) (N.to_nat (wanted mod servers))
            roles1 roles1 (wanted mod servers) 0) as Hstart2.
  { split; [done| |done]. apply budgetInv_start. eauto. }
  assert (N.to_nat (wanted / servers) + N.to_nat (wanted mod servers)
          ≤ N.to_nat MaxUint64)%nat as Hroom.
  { unfold MaxUint64. clear -Hwanted Hdm Hmul. revert Hwanted Hdm Hmul.
    generalize (wanted / servers) (wanted mod servers) (servers * (wanted / servers)).
    intros q m sq ???. lia. }
  eapply placeReplicas_inv in Hreplicas; [|exact Hroom|exact Hstart2].
  by destruct Hreplicas as [Hok2 _ _].
Qed.

(** X17.  The [AssignRoles] callback raises no error of its own: whatever
    error it returns was handed to it by the store or by the codec.  The
    division of lines 210-213 is never by zero, and the writes through the
    pointers of [shardToAddresses], lines 334-343, never meet a shard for
    which line 319 made no entry. *)
Theorem assignRoles_fails_only_with_collaborators `{MapOrderOk} `{Jsonpb} a st
    encodedServerStates w e :
  (assignRolesCallback a st encodedServerStates w).1.1 = Err e →
  collaboratorError w e.
Proof.
  unfold assignRolesCallback.
  destruct (N.eqb_spec (len encodedServerStates) 0) as [|Hservers]; [done|].
  destruct (budgets a (len encodedServerStates)) as [budget|e'] eqn:Hbudget.
  2: { unfold budgets, goDiv, goMod in Hbudget.
       by destruct (N.eqb_spec (len encodedServerStates) 0). }
  destruct (foldResult _ _ _) as [[[newServerStates newRoles] shardLocations]|e']
    eqn:Hdecode.
  2: { intros [= <-]. apply decodeServerState_error in Hdecode. right. by left. }
  set (minVersion := minVersionOf _).
  destruct (collectRoles_failsFrom a st minVersion w) as [Hfails Herr].
  destruct (collectRoles_keeps a st minVersion w) as (_ & _ & _ & Hst1).
  destruct (collectRoles a st minVersion w) as [[collected st1] w1].
  simpl in Hfails, Herr, Hst1.
  destruct collected as [[]|e']; [|intros [= <-]; by apply Herr].
  destruct (sameServers _ _); [done|].
  destruct (place _ _ _ _ _ _) as [[[newRoles' newMasters] newReplicas]|] eqn:Hplace;
    [|done].
  apply decodeServerStates_fresh in Hdecode as [Hfresh Hsize];
    [|intros ??; by rewrite lookup_empty].
  rewrite map_size_empty, length_range in Hsize.
  assert (size newRoles ≤ N.to_nat (len encodedServerStates))%nat as Hsize'
    by (unfold len; lia).
  pose proof (place_rolesOk _ _ _ _ _ _ _ _ _ _ Hbudget Hsize' Hfresh Hplace) as Hok.
  destruct (place_structure _ _ _ _ _ _ _ _ _ _ Hbudget Hsize' Hfresh Hplace)
    as (Hmasters & Hmdom & [Hreplicas _] & Hlen).
  pose proof (publish_failsFrom a (version st1) newServerStates newRoles' w1) as Hpub.
  destruct (publish a (version st1) newServerStates newRoles' w1) as [[[]|e'] w2];
    [done|].
  intros [= <-]. eapply collaboratorError_fails; [exact Hfails|].
  apply Hpub; [|done].
  intros id serverRole shard Hrole [[b Hb]|[b Hb]].
  - destruct (Hok id serverRole Hrole) as [Hset _ _].
    pose proof (Hset shard b Hb) as ->.
    apply Hmdom. exists id. apply Hmasters. exists serverRole.
    split; [done|]. unfold holds, getb. by rewrite Hb.
  - destruct (Hok id serverRole Hrole) as [_ Hset _].
    pose proof (Hset shard b Hb) as ->.
    assert (id ∈ getl newReplicas shard) as Hin.
    { apply Hreplicas. exists serverRole. split; [done|].
      unfold holds, getb. by rewrite Hb. }
    specialize (Hlen shard).
    destruct (decide (shard < NumShards (sharder a))); [done|].
    apply length_zero_iff_nil in Hlen. rewrite Hlen in Hin.
    by apply elem_of_nil in Hin.
Qed.

Lemma assignRoles_fails_only_with_collaborators_witness :
  collaboratorError (H := exampleJsonpb) exampleWorld (ErrExternal "malformed value").
Proof.
  apply (assignRoles_fails_only_with_collaborators (H0 := storedOrder_ok)
           (H1 := exampleJsonpb) exampleAddresser newAssigner
           {[ "test/pfs/server/state/A" := "garbled" ]} exampleWorld).
  vm_compute. reflexivity.
Defined.


(** ** The four lookups of the resolver *)

(** X18.  The four lookups of a version agree.  They fail together, with
    the same error.  When they succeed, the two tables have an entry for the
    same shards, [GetMasterAddress] returns the entry of the master table
    with [ok] true, or the empty address with [ok] false where the table has
    none, and [GetReplicaAddresses] returns the entry of the replica table,
    or the shard-not-found error where the table has none. *)
Theorem lookups_agree `{Jsonpb} a version w :
  match (GetShardToMasterAddress a version w).1,
        (GetShardToReplicaAddresses a version w).1 with
  | Ok masters, Ok replicas =>
    dom masters = dom replicas
    ∧ ∀ shard,
        (GetMasterAddress a shard version w).1
        = Ok (default "" (masters !! shard), bool_decide (is_Some (masters !! shard)))
        ∧ (GetReplicaAddresses a shard version w).1
          = match replicas !! shard with
            | Some addresses => Ok addresses
            | None => Err (ErrShardNotFound shard)
            end
  | Err e, Err e' =>
    e = e'
    ∧ ∀ shard,
        (GetMasterAddress a shard version w).1 = Err e
        ∧ (GetReplicaAddresses a shard version w).1 = Err e
  | _, _ => False
  end.
Proof.
  unfold GetShardToMasterAddress, GetShardToReplicaAddresses, GetMasterAddress,
    GetReplicaAddresses, bindM, retM, failM.
  destruct (getAddresses a version w) as [[found|e] w1]; simpl; [|done].
  split; [by rewrite !dom_fmap_L|].
  intros shard. rewrite !lookup_fmap.
  by destruct (addr_Addresses found !! shard).
Qed.


(** ** The roler: when an open shard is claimed *)

Lemma foldl_min_from (entries : list (string * Z)) (acc : string * Z) :
  let r := foldl (λ acc entry, if (entry.2 <? acc.2)%Z then entry else acc)
                 acc entries in
  r = acc ∨ r ∈ entries.
Proof.
  revert acc. induction entries as [|entry entries IH]; intros acc; simpl; [by left|].
  destruct (IH (if (entry.2 <? acc.2)%Z then entry else acc)) as [->|Hin].
  - destruct (entry.2 <? acc.2)%Z; [right; by left|by left].
  - right. by right.
Qed.

(** X19.  A server that masters no more shards than any server with
    masters does not yield: when a shard is open, the iteration claims the
    least open shard, taking it from nobody.  (A Go map has fewer than
    [math.MaxInt64] entries.) *)
Theorem runIteration_claims_open `{MapOrderOk} r shardToMasterAddress w shard :
  (Z.of_nat (size shardToMasterAddress) < MaxInt64)%Z →
  (∀ address,
     (0 < countOf shardToMasterAddress address)%nat →
     (countOf shardToMasterAddress (localAddress r)
      ≤ countOf shardToMasterAddress address)%nat) →
  openShard r shardToMasterAddress = Some shard →
  runIteration r (Ok shardToMasterAddress) w = claim r shard "" w.
Proof.
  intros Hsize Hfewest Hopen. unfold runIteration.
  rewrite (getCount_masterCounts shardToMasterAddress (localAddress r) Hsize).
  pose proof (countOf_le_size shardToMasterAddress (localAddress r)) as Hfew.
  assert (((minCount (masterCounts shardToMasterAddress)).2
           <? Z.of_nat (countOf shardToMasterAddress (localAddress r)))%Z = false)
    as ->; [|by rewrite Hopen].
  apply Z.ltb_ge. unfold minCount.
  destruct (foldl_min_from (range AtMinCount (masterCounts shardToMasterAddress))
              ("", MaxInt64)) as [->|Hin].
  - simpl. lia.
  - destruct (foldl _ _ _) as [address count]. apply elem_of_range in Hin.
    rewrite masterCounts_spec in Hin by done.
    destruct (decide (countOf shardToMasterAddress address = 0)%nat); [done|].
    injection Hin as <-. simpl. specialize (Hfewest address). lia.
Qed.

Lemma runIteration_claims_open_witness :
  runIteration (H := storedOrder) exampleRoler (Ok exampleOpenMasters) emptyWorld
  = claim exampleRoler 1 "" emptyWorld.
Proof.
  apply (runIteration_claims_open (H0 := storedOrder_ok) exampleRoler
           exampleOpenMasters emptyWorld 1).
  - vm_compute. reflexivity.
  - intros address _. vm_compute. lia.
  - vm_compute. reflexivity.
Defined.

(** ** The registrar: a failed [AddShard] *)

Lemma head_omap_None {A B} (f : A → option B) (l : list A) :
  head (omap f l) = None → ∀ x, x ∈ l → f x = None.
Proof.
  induction l as [|y l IH]; [by intros _ ? ?%elem_of_nil|]. simpl.
  destruct (f y) eqn:Hy; [done|]. intros Hhead x [->|Hin]%elem_of_cons; [done|].
  by apply IH.
Qed.

Lemma head_omap_Some {A B} (f : A → option B) (l : list A) b :
  head (omap f l) = Some b → ∃ x, x ∈ l ∧ f x = Some b.
Proof.
  induction l as [|y l IH]; [done|]. simpl.
  destruct (f y) eqn:Hy.
  - intros [= ->]. exists y. split; [by left|done].
  - intros (x & Hin & Hx)%IH. exists x. split; [by right|done].
Qed.

Lemma applyVersions_outcome `{MapOrder} roles versions oldRoles w
    err oldRoles1 w1 :
  applyVersions roles versions oldRoles w = (err, oldRoles1, w1) →
  ∃ applied,
    trace w1 = trace w ++ applied
    ∧ Forall isApply applied
    ∧ (∀ v serverRole, oldRoles !! v = Some serverRole →
         oldRoles1 !! v = Some serverRole)
    ∧ match err with
      | None =>
        ∀ shard, EAddShard shard ∈ applied → fails w (EAddShard shard) = None
      | Some e =>
        ∃ version,
          version ∈ versions
          ∧ oldRoles1 !! version = None
          ∧ (version ∉ sentVersions applied)
          ∧ (∃ shard, EAddShard shard ∈ applied
                      ∧ fails w (EAddShard shard) = Some e)
          ∧ ∀ shard, EAddShard shard ∈ applied →
              fails w (EAddShard shard) ≠ None →
              shard ∈ shards (default (mkServerRole "" 0 ∅ ∅) (roles !! version))
      end.
Proof.
  revert oldRoles w.
  induction versions as [|version rest IH]; intros oldRoles w; simpl.
  { intros [= <- <- <-]. exists []. rewrite app_nil_r.
    split_and!; [done|done|done|]. by intros ? ?%elem_of_nil. }
  destruct (oldRoles !! version) as [known|] eqn:Hknown.
  { intros (applied & Htrace & Happly & Hkept & Herr)%IH.
    exists applied. split_and!; [done..|].
    destruct err as [e|]; [|done].
    destruct Herr as (v & ? & ? & ? & ? & ?). exists v.
    split_and!; [by right|done..]. }
  set (serverRole := default _ (roles !! version)).
  set (adds := EAddShard <$> _).
  assert (∀ shard, EAddShard shard ∈ adds → shard ∈ shards serverRole) as Hhere.
  { intros shard (shard' & [= <-] & Hin%list_elem_of_filter)%list_elem_of_fmap.
    by destruct Hin. }
  assert (sentVersions (ELogAddServerRole serverRole :: adds) = []) as Hnone.
  { change (sentVersions adds = []). apply sentVersions_addShards. }
  unfold parallel, logged. simpl.
  destruct (head (omap _ _)) as [e|] eqn:Hhead.
  { intros [= <- <- <-]. simpl. exists (ELogAddServerRole serverRole :: adds).
    rewrite <- app_assoc. split_and!; [done| |done|].
    - constructor; [done|]. apply Forall_fmap, Forall_true. done.
    - exists version. rewrite Hnone. split_and!; [by left|done|apply not_elem_of_nil| |].
      + apply head_omap_Some in Hhead as (event & [_ Hin]%list_elem_of_filter & Hfails).
        apply list_elem_of_fmap in Hin as (shard & -> & Hin).
        exists shard. split; [|done]. right. apply list_elem_of_fmap. eauto.
      + intros shard [[=]|Hin]%elem_of_cons _. by apply Hhere. }
  pose proof (head_omap_None _ _ Hhead) as Hgood.
  intros (applied & Htrace & Happly & Hkept & Herr)%IH.
  simpl in Htrace, Herr.
  exists (ELogAddServerRole serverRole :: adds ++ ESendVersion version :: applied).
  assert (sentVersions (ELogAddServerRole serverRole :: adds
                          ++ ESendVersion version :: applied)
          = version :: sentVersions applied) as Hsends.
  { change (sentVersions (adds ++ ESendVersion version :: applied)
            = version :: sentVersions applied).
    rewrite sentVersions_app. unfold adds. by rewrite sentVersions_addShards. }
  assert (∀ shard, EAddShard shard ∈ adds → fails w (EAddShard shard) = None)
    as Hadds.
  { intros shard Hin. apply Hgood. by apply list_elem_of_filter. }
  split_and!.
  - rewrite Htrace. simpl. by rewrite <- !app_assoc.
  - constructor; [done|]. apply Forall_app. split.
    + apply Forall_fmap, Forall_true. done.
    + by constructor.
  - intros v r Hv. apply Hkept. rewrite lookup_insert_ne; [done|].
    intros <-. congruence.
  - destruct err as [e|].
    + destruct Herr as (v & Hv & Hnew & Hunsent & (shard & Hin & Hfails) & Hbatch).
      assert (v ≠ version) as Hne.
      { intros ->. by rewrite (Hkept version serverRole) in Hnew
          by apply lookup_insert_eq. }
      exists v. rewrite Hsends. split_and!; [by right|done| | |].
      * by intros [?|?]%elem_of_cons.
      * exists shard. split; [|done]. right. apply elem_of_app. right. by right.
      * intros shard' [[=]|[Hin'|[[=]|Hin']%elem_of_cons]%elem_of_app]%elem_of_cons
          Hbad.
        -- by destruct Hbad; apply Hadds.
        -- by apply Hbatch.
    + intros shard [[=]|[Hin|[[=]|Hin]%elem_of_cons]%elem_of_app]%elem_of_cons.
      * by apply Hadds.
      * by apply Herr.
Qed.

(** X20.  When an [AddShard] of an invocation of the [fillRoles] callback
    fails, the callback returns the error of a failed [AddShard] and stops
    there: nothing is removed, every role remembered before is still
    remembered, and the version the failed shard belongs to is neither sent
    on [versionChan] nor remembered, so that the next invocation takes it up
    again. *)
Theorem fillRoles_add_failure `{MapOrderOk} `{Jsonpb} oldRoles encodedServerRoles
    w roles versions events shard e :
  foldResult decodeServerRole (range AtFillDecode encodedServerRoles) (∅, [])
    = Ok (roles, versions) →
  trace (fillRolesCallback oldRoles encodedServerRoles w).2 = trace w ++ events →
  EAddShard shard ∈ events →
  fails w (EAddShard shard) = Some e →
  (∃ shard' e',
     (fillRolesCallback oldRoles encodedServerRoles w).1.1 = Some e'
     ∧ EAddShard shard' ∈ events
     ∧ fails w (EAddShard shard') = Some e')
  ∧ Forall isApply events
  ∧ (∀ v serverRole, oldRoles !! v = Some serverRole →
       (fillRolesCallback oldRoles encodedServerRoles w).1.2 !! v = Some serverRole)
  ∧ ∃ version serverRole,
      roles !! version = Some serverRole
      ∧ shard ∈ shards serverRole
      ∧ (fillRolesCallback oldRoles encodedServerRoles w).1.2 !! version = None
      ∧ version ∉ sentVersions events.
Proof.
  intros Hdecode. unfold fillRolesCallback. rewrite Hdecode.
  apply decodeServerRole_versions in Hdecode as [Hkeys _].
  destruct (applyVersions roles (merge_sort Z.le versions) oldRoles w)
    as [[err oldRoles1] w1] eqn:Hrun.
  apply applyVersions_outcome in Hrun as (applied & Htrace & Happly & Hkept & Herr).
  destruct err as [e'|].
  - simpl. rewrite Htrace. intros <-%app_inv_head Hin Hfails.
    destruct Herr as (version & Hversion & Hnew & Hunsent & (shard' & Hin' & Hfails')
                      & Hbatch).
    split_and!; [by exists shard', e'|done|done|].
    rewrite merge_sort_Permutation in Hversion.
    apply Hkeys in Hversion as [serverRole Hrole].
    exists version, serverRole. split_and!; [done| |done|done].
    specialize (Hbatch shard Hin). rewrite Hrole in Hbatch. apply Hbatch.
    by rewrite Hfails.
  - simpl. rewrite Htrace, <- app_assoc. intros <-%app_inv_head.
    intros [Hin|Hin]%elem_of_app Hfails.
    + rewrite (Herr shard Hin) in Hfails. done.
    + pose proof (expiredRole_removals roles (range AtFillRemove oldRoles1))
        as Hremoved.
      rewrite Forall_forall in Hremoved. by destruct (Hremoved _ Hin).
Qed.

Lemma fillRoles_add_failure_witness :
  (fillRolesCallback (H := storedOrder) (H0 := exampleJsonpb)
     exampleOldRoles exampleRoleSnapshot exampleFailingWorld).1.2 !! 1%Z = None.
Proof.
  destruct (fillRoles_add_failure (H0 := storedOrder_ok) (H1 := exampleJsonpb)
              exampleOldRoles exampleRoleSnapshot exampleFailingWorld
              {[ 1%Z := mkServerRole "A" 1 {[1 := true]} {[2 := true]} ]} [1%Z]
              [ELogAddServerRole (mkServerRole "A" 1 {[1 := true]} {[2 := true]});
               EAddShard 2]
              2 (ErrExternal "disk full"))
    as (_ & _ & _ & version & serverRole & Hrole & _ & Hnew & _).
  - vm_compute. reflexivity.
  - vm_compute. reflexivity.
  - right. left.
  - reflexivity.
  - apply lookup_singleton_Some in Hrole as [<- _]. exact Hnew.
Defined.
